(** * cn-infra KV scheduler: dependency ordering, node readiness and
      descriptor defaults

    A shallow embedding of

    - [utils.DependsOn] and [utils.TopologicalOrder] (Kahn's algorithm with
      the cycle fallback),
    - [isNodeReady], [isNodeReadyRec] and [isNodeBeingRemoved] of the
      scheduler's graph utilities,
    - the [descriptorHandler] wrappers around the optional descriptor
      callbacks,

    together with the properties the specification states about them. *)

From Stdlib Require Import String Ascii List Bool Arith Lia NArith.
From stdpp Require Import gmap strings list fin_maps fin_sets sorting.


(** ** Go run-time outcomes *)

(** A Go call either returns, panics, or (in the model only) exceeds the
    recursion bound given to it. *)
Inductive result (A : Type) : Type :=
| Ok (a : A)
| Panic (msg : string)
| OutOfFuel.
Arguments Ok {A} a.
Arguments Panic {A} msg.
Arguments OutOfFuel {A}.

Definition bind {A B : Type} (r : result A) (k : A → result B) : result B :=
  match r with
  | Ok a => k a
  | Panic msg => Panic msg
  | OutOfFuel => OutOfFuel
  end.

Notation "'let*' x ':=' r 'in' k" := (bind r (fun x => k))
  (at level 10, x pattern, r at level 100, k at level 200).

(** ** Iteration order of Go maps

    [for k := range m] visits the entries of a map in an unspecified
    order.  An iteration order is any function that permutes the entries
    it is given; every function that ranges over a map takes one, and the
    statements about these functions hold for every order.  A function
    uses the one order it is given for all its loops; that no loop's
    outcome depends on the order is shown loop by loop. *)
Record MapOrder : Type := {
  range : ∀ A : Type, list A → list A;
  range_perm : ∀ (A : Type) (l : list A), range A l ≡ₚ l
}.
Arguments range _ {A} _.

Definition order_id : MapOrder :=
  {| range := λ A l, l; range_perm := λ A l, reflexivity l |}.

Definition order_rev : MapOrder :=
  {| range := λ A l, reverse l; range_perm := λ A l, reverse_Permutation l |}.

(** ** [sort.Strings]

    Go compares strings byte-wise, which is [String.leb].  A slice of
    strings has one sorted arrangement, so any correct sorting routine
    stands for the library's; the model uses merge sort. *)
Definition string_le (a b : string) : Prop := String.leb a b = true.

#[global] Instance string_le_dec : RelDecision string_le.
Proof. intros a b. unfold string_le. apply _. Defined.

Definition sort_Strings (l : list string) : list string := merge_sort string_le l.

(** ** Key sets with value semantics *)

Abbreviation KeySet := (gset string).
Abbreviation DepMap := (gmap string (gset string)).

Module utils.

(** Modelled from the spec: the [KeySet] type of the utilities package
    ("key-set operations") is a Go [map[string]struct{}]; its methods are
    not among the sources.  Here a key set is the finite set of its keys,
    [Add] and [Del] return the updated set, [DeepCopy] and [Intersect]
    return a set of their own. *)
Definition NewKeySet : KeySet := ∅.
Definition Has (ks : KeySet) (key : string) : bool := bool_decide (key ∈ ks).
Definition Add (ks : KeySet) (key : string) : KeySet := ks ∪ {[key]}.
Definition Del (ks : KeySet) (key : string) : KeySet := ks ∖ {[key]}.
Definition DeepCopy (ks : KeySet) : KeySet := ks.
Definition Intersect (ks ks2 : KeySet) : KeySet := ks ∩ ks2.
Definition len (ks : KeySet) : nat := size ks.

(** [deps[k]]: reading an absent key of a Go map gives the zero value, the
    nil key set, which reads as the empty set. *)
Definition index (deps : DepMap) (k : string) : KeySet := default ∅ (deps !! k).

(** *** DependsOn *)

(** The [for dep := range k1Deps] loop of [DependsOn]; [rec] is the
    recursive call.  [visited] is one Go map shared by all the calls, so it
    is threaded through and returned. *)
Fixpoint DependsOn_range (rec : string → KeySet → result (bool * KeySet))
    (k1Deps : list string) (visited : KeySet) : result (bool * KeySet) :=
  match k1Deps with
  | [] => Ok (false, visited)
  | dep :: rest =>
      if Has visited dep then DependsOn_range rec rest visited
      else
        let* (found, visited) := rec dep visited in
        if found then Ok (true, visited)
        else DependsOn_range rec rest visited
  end.

Fixpoint DependsOn_rec (o : MapOrder) (fuel : nat) (k1 k2 : string)
    (deps : DepMap) (visited : KeySet) : result (bool * KeySet) :=
  match fuel with
  | O => OutOfFuel
  | S fuel =>
      (* check direct dependencies *)
      let k1Deps := index deps k1 in
      if Has k1Deps k2 then Ok (true, visited)
      else
        (* continue transitively *)
        let visited := Add visited k1 in
        DependsOn_range (λ dep v, DependsOn_rec o fuel dep k2 deps v)
          (range o (elements k1Deps)) visited
  end.

(** [DependsOn k1 k2 deps visited]; a nil [visited] is [None].  Every
    nested call marks a key of [deps] that was not marked before, so the
    nesting depth is at most [size deps + 1]. *)
Definition DependsOn (o : MapOrder) (k1 k2 : string) (deps : DepMap)
    (visited : option KeySet) : result (bool * KeySet) :=
  let visited := match visited with None => NewKeySet | Some v => v end in
  DependsOn_rec o (S (size deps)) k1 k2 deps visited.

(** *** TopologicalOrder *)

(** The first loop: [remainsDeps[key] = keyDeps.Intersect(keys)] for the
    keys of [deps] that are in [keys]. *)
Definition restrict_deps_body (keys : KeySet) (remainsDeps : DepMap)
    (entry : string * KeySet) : DepMap :=
  let (key, keyDeps) := entry in
  if negb (Has keys key) then remainsDeps
  else <[key := Intersect keyDeps keys]> remainsDeps.

Definition restrict_deps (o : MapOrder) (keys : KeySet) (deps : DepMap) : DepMap :=
  foldl (restrict_deps_body keys) ∅ (range o (map_to_list deps)).

(** Is there any other key depending on this one? *)
Definition depended_on (o : MapOrder) (remainsDeps : DepMap) (key : string) : bool :=
  existsb (λ '(_, key2Deps), Has key2Deps key) (range o (map_to_list remainsDeps)).

(** The candidate test of one key. *)
Definition candidate (o : MapOrder) (depFirst : bool) (remainsDeps : DepMap)
    (key : string) : bool :=
  if depFirst then Nat.eqb (len (index remainsDeps key)) 0
  else negb (depended_on o remainsDeps key).

(** Keys that could follow in the order. *)
Definition find_candidates (o : MapOrder) (depFirst : bool)
    (remains : KeySet) (remainsDeps : DepMap) : list string :=
  List.filter (candidate o depFirst remainsDeps) (range o (elements remains)).

(** The cycle fallback: the remaining keys that depend on themselves. *)
Fixpoint cycle_candidates (o : MapOrder) (deps : DepMap) (remains : list string)
    : result (list string) :=
  match remains with
  | [] => Ok []
  | key :: rest =>
      let* (self, _) := DependsOn o key key deps None in
      let* candidates := cycle_candidates o deps rest in
      Ok (if self then key :: candidates else candidates)
  end.

(** The candidates of one iteration, the fallback included. *)
Definition candidates_of (o : MapOrder) (deps : DepMap) (depFirst handleCycle : bool)
    (remains : KeySet) (remainsDeps : DepMap) : result (list string) :=
  let candidates := find_candidates o depFirst remains remainsDeps in
  if Nat.eqb (length candidates) 0 then
    if negb handleCycle then Panic "Dependency cycle!"
    else cycle_candidates o deps (range o (elements remains))
  else Ok candidates.

(** [sort.Strings(candidates); key := candidates[0]]. *)
Definition first_sorted (candidates : list string) : result string :=
  match sort_Strings candidates with
  | [] => Panic "index out of range"
  | key :: _ => Ok key
  end.

(** The state of the main loop. *)
Record state : Type := State {
  remains : KeySet;
  remainsDeps : DepMap;
  sorted : list string
}.

(** Removing the selected key: from the remaining keys, from the map and
    from every dependency set that is left. *)
Definition remove_key (key : string) (st : state) : state :=
  {| remains := Del (remains st) key;
     remainsDeps := (λ key2Deps, Del key2Deps key) <$> delete key (remainsDeps st);
     sorted := sorted st ++ [key] |}.

(** One iteration of [for len(remains) > 0]. *)
Definition step (o : MapOrder) (deps : DepMap) (depFirst handleCycle : bool)
    (st : state) : result state :=
  let* candidates :=
    candidates_of o deps depFirst handleCycle (remains st) (remainsDeps st) in
  let* key := first_sorted candidates in
  Ok (remove_key key st).

Fixpoint loop (o : MapOrder) (deps : DepMap) (depFirst handleCycle : bool)
    (fuel : nat) (st : state) : result (list string) :=
  if Nat.eqb (len (remains st)) 0 then Ok (sorted st)
  else
    match fuel with
    | O => OutOfFuel
    | S fuel =>
        let* st := step o deps depFirst handleCycle st in
        loop o deps depFirst handleCycle fuel st
    end.

Definition initial (o : MapOrder) (keys : KeySet) (deps : DepMap) : state :=
  {| remains := DeepCopy keys;
     remainsDeps := restrict_deps o keys deps;
     sorted := [] |}.

(** Every iteration removes one key, so [len keys] iterations are enough. *)
Definition TopologicalOrder (o : MapOrder) (keys : KeySet) (deps : DepMap)
    (depFirst handleCycle : bool) : result (list string) :=
  loop o deps depFirst handleCycle (len keys) (initial o keys deps).

End utils.

(** ** Notions the properties are stated with *)

(** [edge deps a b]: key [a] depends directly on key [b]. *)
Definition edge (deps : DepMap) (a b : string) : Prop := b ∈ utils.index deps a.

#[global] Instance edge_dec (deps : DepMap) : RelDecision (edge deps).
Proof. intros a b. unfold edge. apply _. Defined.

(** [depends deps a b]: [b] is reachable from [a] by a non-empty path. *)
Definition depends (deps : DepMap) : relation string := tc (edge deps).

(** Both keys lie in one strongly-connected component. *)
Definition same_scc (deps : DepMap) (a b : string) : Prop :=
  a = b ∨ (depends deps a b ∧ depends deps b a).

(** [x] occurs in [l] at a smaller index than [y]. *)
Definition precedes (x y : string) (l : list string) : Prop :=
  ∃ i j : nat, i < j ∧ l !! i = Some x ∧ l !! j = Some y.

(** The order of the output as the specification words it: for an edge
    [a → b] between two components, [a] before [b] when [depFirst], [b]
    before [a] otherwise. *)
Definition edge_order_as_specified (keys : KeySet) (deps : DepMap) (depFirst : bool)
    (l : list string) : Prop :=
  ∀ a b, a ∈ keys → b ∈ keys → edge deps a b → ¬ same_scc deps a b →
         if depFirst then precedes a b l else precedes b a l.

(** The same with the two directions exchanged. *)
Definition edge_order_exchanged (keys : KeySet) (deps : DepMap) (depFirst : bool)
    (l : list string) : Prop :=
  ∀ a b, a ∈ keys → b ∈ keys → edge deps a b → ¬ same_scc deps a b →
         if depFirst then precedes b a l else precedes a b l.

(** What the main loop of [TopologicalOrder] maintains: the remaining keys
    are input keys, the remaining dependency sets are the input's
    restricted to the remaining keys, the output holds the other input
    keys, each once. *)
Record loop_invariant (keys : KeySet) (deps : DepMap) (st : utils.state) : Prop := {
  inv_remains : utils.remains st ⊆ keys;
  inv_deps : ∀ k,
    utils.remainsDeps st !! k =
      if decide (k ∈ utils.remains st)
      then (λ s, s ∩ utils.remains st) <$> deps !! k
      else None;
  inv_nodup : NoDup (utils.sorted st);
  inv_sorted : ∀ k, k ∈ utils.sorted st ↔ k ∈ keys ∧ k ∉ utils.remains st
}.

(** The answer of [DependsOn(key, key, deps, nil)] as a boolean. *)
Definition self_dependent (o : MapOrder) (deps : DepMap) (key : string) : bool :=
  match utils.DependsOn o key key deps None with
  | Ok (b, _) => b
  | _ => false
  end.

(** [first] is in the output before [last] whenever [last] is there. *)
Definition ordered (first last : string) (st : utils.state) : Prop :=
  last ∈ utils.sorted st → precedes first last (utils.sorted st).

(** What a run of [DependsOn] for [k2] that answers false has done
    between the marked keys [V] and [V']: none of the keys marked in
    between has [k2] among its direct dependencies, and all their
    dependencies are marked as well. *)
Definition explored (deps : DepMap) (k2 : string) (V V' : KeySet) : Prop :=
  V ⊆ V' ∧
  ∀ x, x ∈ V' → x ∉ V → (k2 ∉ utils.index deps x) ∧ utils.index deps x ⊆ V'.

(** The keys of [deps] that are not marked yet. *)
Definition unmarked (deps : DepMap) (V : KeySet) : nat := size (dom deps ∖ V).

(** ** Key sets as Go maps in a store

    A Go [KeySet] is a reference to a hash table: a callee that writes to
    a key set it was given changes the caller's set.  To state what
    [TopologicalOrder] leaves untouched, the same code is embedded a second
    time over an explicit store of key sets; a key-set value is then a
    reference, [None] being the nil map.  The dependency map itself is
    only read by the code and [remainsDeps] is a map of the callee's own,
    so both are maps from keys to references. *)

Abbreviation KeySetRef := (option positive).
Abbreviation Store := (gmap positive (gset string)).
Abbreviation DepRefs := (gmap string (option positive)).

Module store.

(** What a reference holds; the nil map reads as the empty set. *)
Definition content (h : Store) (ks : KeySetRef) : KeySet :=
  match ks with
  | None => ∅
  | Some l => default ∅ (h !! l)
  end.

(** [make(KeySet)] with the given keys: a cell the store does not have
    yet. *)
Definition alloc (h : Store) (s : KeySet) : KeySetRef * Store :=
  let l := fresh (dom h) in (Some l, <[l := s]> h).

(** Modelled from the spec: the methods of the utilities' [KeySet]
    ("key-set operations"), which are not among the sources.  [Add] and
    [Del] write to the receiver; [DeepCopy] and [Intersect] fill a map of
    their own, as the comment of [TopologicalOrder] on its copies
    requires. *)
Definition NewKeySet (h : Store) : KeySetRef * Store := alloc h ∅.
Definition Has (h : Store) (ks : KeySetRef) (key : string) : bool :=
  bool_decide (key ∈ content h ks).
Definition Add (h : Store) (ks : KeySetRef) (key : string) : result Store :=
  match ks with
  | None => Panic "assignment to entry in nil map"
  | Some l => Ok (<[l := content h ks ∪ {[key]}]> h)
  end.
Definition Del (h : Store) (ks : KeySetRef) (key : string) : Store :=
  match ks with
  | None => h
  | Some l => <[l := content h ks ∖ {[key]}]> h
  end.
Definition DeepCopy (h : Store) (ks : KeySetRef) : KeySetRef * Store :=
  alloc h (content h ks).
Definition Intersect (h : Store) (ks ks2 : KeySetRef) : KeySetRef * Store :=
  alloc h (content h ks ∩ content h ks2).
Definition len (h : Store) (ks : KeySetRef) : nat := size (content h ks).

(** [deps[k]], the nil map when [k] is absent. *)
Definition index (deps : DepRefs) (k : string) : KeySetRef := default None (deps !! k).

(** *** DependsOn *)

Fixpoint DependsOn_range (rec : string → Store → result (bool * Store))
    (k1Deps : list string) (visited : KeySetRef) (h : Store)
    : result (bool * Store) :=
  match k1Deps with
  | [] => Ok (false, h)
  | dep :: rest =>
      if Has h visited dep then DependsOn_range rec rest visited h
      else
        let* (found, h) := rec dep h in
        if found then Ok (true, h)
        else DependsOn_range rec rest visited h
  end.

(** The keys of [k1Deps] are read when the [range] loop starts: the calls
    inside the loop write to [visited] only, which [TopologicalOrder]
    makes afresh for every query. *)
Fixpoint DependsOn_rec (o : MapOrder) (fuel : nat) (h : Store) (k1 k2 : string)
    (deps : DepRefs) (visited : KeySetRef) : result (bool * Store) :=
  match fuel with
  | O => OutOfFuel
  | S fuel =>
      let k1Deps := index deps k1 in
      if Has h k1Deps k2 then Ok (true, h)
      else
        let* h := Add h visited k1 in
        DependsOn_range (λ dep h, DependsOn_rec o fuel h dep k2 deps visited)
          (range o (elements (content h k1Deps))) visited h
  end.

Definition DependsOn (o : MapOrder) (h : Store) (k1 k2 : string) (deps : DepRefs)
    (visited : KeySetRef) : result (bool * Store) :=
  let (visited, h) :=
    match visited with
    | None => NewKeySet h
    | Some _ => (visited, h)
    end in
  DependsOn_rec o (S (size deps)) h k1 k2 deps visited.

(** *** TopologicalOrder *)

Definition restrict_deps_body (keys : KeySetRef) (acc : DepRefs * Store)
    (entry : string * KeySetRef) : DepRefs * Store :=
  let (remainsDeps, h) := acc in
  let (key, keyDeps) := entry in
  if negb (Has h keys key) then acc
  else
    let (r, h) := Intersect h keyDeps keys in
    (<[key := r]> remainsDeps, h).

Definition restrict_deps (o : MapOrder) (h : Store) (keys : KeySetRef)
    (deps : DepRefs) : DepRefs * Store :=
  foldl (restrict_deps_body keys) (∅, h) (range o (map_to_list deps)).

Definition depended_on (o : MapOrder) (h : Store) (remainsDeps : DepRefs)
    (key : string) : bool :=
  existsb (λ '(_, key2Deps), Has h key2Deps key) (range o (map_to_list remainsDeps)).

Definition candidate (o : MapOrder) (depFirst : bool) (h : Store)
    (remainsDeps : DepRefs) (key : string) : bool :=
  if depFirst then Nat.eqb (len h (index remainsDeps key)) 0
  else negb (depended_on o h remainsDeps key).

Definition find_candidates (o : MapOrder) (depFirst : bool) (h : Store)
    (remains : KeySetRef) (remainsDeps : DepRefs) : list string :=
  List.filter (candidate o depFirst h remainsDeps) (range o (elements (content h remains))).

Fixpoint cycle_candidates (o : MapOrder) (deps : DepRefs) (remains : list string)
    (h : Store) : result (list string * Store) :=
  match remains with
  | [] => Ok ([], h)
  | key :: rest =>
      let* (self, h) := DependsOn o h key key deps None in
      let* (candidates, h) := cycle_candidates o deps rest h in
      Ok (if self then key :: candidates else candidates, h)
  end.

Definition candidates_of (o : MapOrder) (deps : DepRefs) (depFirst handleCycle : bool)
    (h : Store) (remains : KeySetRef) (remainsDeps : DepRefs)
    : result (list string * Store) :=
  let candidates := find_candidates o depFirst h remains remainsDeps in
  if Nat.eqb (length candidates) 0 then
    if negb handleCycle then Panic "Dependency cycle!"
    else cycle_candidates o deps (range o (elements (content h remains))) h
  else Ok (candidates, h).

Record state : Type := State {
  mem : Store;
  remains : KeySetRef;
  remainsDeps : DepRefs;
  sorted : list string
}.

(** The body of [for _, key2Deps := range remainsDeps]. *)
Definition del_body (key : string) (h : Store) (entry : string * KeySetRef) : Store :=
  let (_, key2Deps) := entry in Del h key2Deps key.

(** [remains.Del(key)], [delete(remainsDeps, key)] and the loop deleting
    [key] from every set that is left. *)
Definition remove_key (o : MapOrder) (key : string) (h : Store) (st : state) : state :=
  let h := Del h (remains st) key in
  let remainsDeps := delete key (remainsDeps st) in
  let h := foldl (del_body key) h (range o (map_to_list remainsDeps)) in
  {| mem := h; remains := remains st; remainsDeps := remainsDeps;
     sorted := sorted st ++ [key] |}.

Definition step (o : MapOrder) (deps : DepRefs) (depFirst handleCycle : bool)
    (st : state) : result state :=
  let* (candidates, h) :=
    candidates_of o deps depFirst handleCycle (mem st) (remains st) (remainsDeps st) in
  let* key := utils.first_sorted candidates in
  Ok (remove_key o key h st).

Fixpoint loop (o : MapOrder) (deps : DepRefs) (depFirst handleCycle : bool)
    (fuel : nat) (st : state) : result (list string * Store) :=
  if Nat.eqb (len (mem st) (remains st)) 0 then Ok (sorted st, mem st)
  else
    match fuel with
    | O => OutOfFuel
    | S fuel =>
        let* st := step o deps depFirst handleCycle st in
        loop o deps depFirst handleCycle fuel st
    end.

Definition initial (o : MapOrder) (h : Store) (keys : KeySetRef) (deps : DepRefs)
    : state :=
  let (remains, h) := DeepCopy h keys in
  let (remainsDeps, h) := restrict_deps o h keys deps in
  {| mem := h; remains := remains; remainsDeps := remainsDeps; sorted := [] |}.

(** The call returns the sorted keys; the store it leaves is returned with
    them. *)
Definition TopologicalOrder (o : MapOrder) (h : Store) (keys : KeySetRef)
    (deps : DepRefs) (depFirst handleCycle : bool) : result (list string * Store) :=
  loop o deps depFirst handleCycle (len h keys) (initial o h keys deps).

End store.

(** ** Notions about the store *)

(** Every cell of [h] is in [h'] with the same keys. *)
Definition preserved (h h' : Store) : Prop :=
  ∀ l, l ∈ dom h → h' !! l = h !! l.

(** The references of the arguments point into the store. *)
Definition valid_ref (h : Store) (ks : KeySetRef) : Prop :=
  match ks with
  | None => True
  | Some l => l ∈ dom h
  end.

Definition valid_deps (h : Store) (deps : DepRefs) : Prop :=
  ∀ k r, deps !! k = Some r → valid_ref h r.

(** A reference made during the call: a cell of [h] that the caller's
    store [h0] does not have. *)
Definition local_ref (h0 h : Store) (ks : KeySetRef) : Prop :=
  ∃ l, ks = Some l ∧ l ∈ dom h ∧ l ∉ dom h0.

(** The dependency map, read off the store. *)
Definition deps_content (h : Store) (deps : DepRefs) : DepMap :=
  store.content h <$> deps.

(** The loop state, read off the store. *)
Definition state_content (st : store.state) : utils.state :=
  {| utils.remains := store.content (store.mem st) (store.remains st);
     utils.remainsDeps := deps_content (store.mem st) (store.remainsDeps st);
     utils.sorted := store.sorted st |}.

(** What the loop over the store maintains with respect to the caller's
    store [h0]. *)
Record store_invariant (h0 : Store) (st : store.state) : Prop := {
  sinv_preserved : preserved h0 (store.mem st);
  sinv_remains : local_ref h0 (store.mem st) (store.remains st);
  sinv_deps : ∀ k r, store.remainsDeps st !! k = Some r →
                     local_ref h0 (store.mem st) r
}.

(** Putting the outcome of a value-level [DependsOn] back into the cell of
    [visited]. *)
Definition write_visited (v : positive) (h : Store) (r : result (bool * KeySet))
    : result (bool * Store) :=
  match r with
  | Ok (b, V) => Ok (b, <[v := V]> h)
  | Panic msg => Panic msg
  | OutOfFuel => OutOfFuel
  end.

(** ** The scheduler's graph utilities *)

Module kvscheduler.

(** Modelled from the spec: the origin of a value ("Enum {FromNB, FromSB,
    Unknown}"), declared by the scheduler's API package. *)
Inductive ValueOrigin : Type := UnknownOrigin | FromNB | FromSB.

#[global] Instance ValueOrigin_eq_dec : EqDecision ValueOrigin.
Proof. solve_decision. Defined.

(** The two edge relations of the graph. *)
Inductive Relation : Type := DependencyRelation | DerivesRelation.

(** Modelled from the spec: the graph and its [Node] handle, which the
    graph package declares.  Following the spec ("node id → record; edges
    store target ids, resolved at traversal"), a graph maps a key to the
    record of its node: the flags that are set, and per relation the
    labelled groups of target keys and the keys of the source nodes.  Of
    the [LastChange] flag only its [value] matters here: [Some None] is a
    flag whose value is nil. *)
Record NodeData : Type := {
  originFlag : option ValueOrigin;
  derivedFlag : bool;
  pendingFlag : bool;
  lastChangeFlag : option (option string);
  targets : Relation → list (string * list string);
  sources : Relation → list string
}.

Abbreviation Node := (string * NodeData)%type.
Abbreviation Graph := (gmap string NodeData).

Definition GetKey (node : Node) : string := node.1.

Definition GetNode (g : Graph) (key : string) : option Node :=
  (λ d, (key, d)) <$> g !! key.

(** Edges are resolved against the graph: a key without a node has no
    target. *)
Definition GetTargets (g : Graph) (node : Node) (relation : Relation)
    : list (string * list Node) :=
  (λ group : string * list string, (group.1, omap (GetNode g) group.2))
    <$> targets node.2 relation.

Definition GetSources (g : Graph) (node : Node) (relation : Relation) : list Node :=
  omap (GetNode g) (sources node.2 relation).

(** *** Flags *)

Definition getNodeOrigin (node : Node) : ValueOrigin :=
  match originFlag node.2 with
  | Some origin => origin
  | None => UnknownOrigin
  end.

Definition isNodeDerived (node : Node) : bool := derivedFlag node.2.

Definition isNodePending (node : Node) : bool := pendingFlag node.2.

Definition getNodeLastChange (node : Node) : option (option string) :=
  lastChangeFlag node.2.

(** *** isNodeBeingRemoved *)

(** How the search for the base of a derived node ends: at a pending
    node ([return true]) or at a node without sources ([break]). *)
Inductive base_search : Type :=
| PendingBase
| Base (base : Node).

(** The [for] loop of [isNodeBeingRemoved].  It follows the first source
    of each node; the bound stands for the number of nodes, beyond which
    the walk has entered a cycle of sources and the Go loop does not
    end. *)
Fixpoint find_base (fuel : nat) (g : Graph) (base : Node) : result base_search :=
  match fuel with
  | O => OutOfFuel
  | S fuel =>
      match GetSources g base DerivesRelation with
      | [] => Ok (Base base)
      | derivedFrom0 :: _ =>
          if isNodePending derivedFrom0 then Ok PendingBase
          else find_base fuel g derivedFrom0
      end
  end.

(** [getNodeLastChange(base) != nil && getNodeLastChange(base).value == nil] *)
Definition removed_by_transaction (base : Node) : bool :=
  match getNodeLastChange base with
  | Some None => true
  | _ => false
  end.

Definition isNodeBeingRemoved (g : Graph) (node : Node) : result bool :=
  if isNodeDerived node then
    let* found := find_base (S (size g)) g node in
    match found with
    | PendingBase => Ok true
    | Base base =>
        if isNodeDerived base then Ok true
        else Ok (removed_by_transaction base)
    end
  else Ok (removed_by_transaction node).

(** *** isNodeReady *)

(** The key set of the scheduler package; [add] writes to the receiver. *)
Definition add (ks : KeySet) (key : string) : KeySet := ks ∪ {[key]}.

(** The loop over the targets of one dependency.  It returns [satisfied],
    [cycle] and the visited keys. *)
Fixpoint targets_loop (g : Graph)
    (rec : Node → KeySet → result (bool * KeySet))
    (src current : Node) (targets : list Node)
    (satisfied cycle : bool) (visited : KeySet) : result (bool * bool * KeySet) :=
  match targets with
  | [] => Ok (satisfied, cycle, visited)
  | target :: rest =>
      let* removed := isNodeBeingRemoved g target in
      if removed then
        (* do not consider values that are about to be removed *)
        targets_loop g rec src current rest satisfied cycle visited
      else
        let satisfied := if negb (isNodePending target) then true else satisfied in
        if negb (isNodePending target) && String.eqb (GetKey current) (GetKey src)
        then Ok (satisfied, cycle, visited)
        else
          let wasVisited := bool_decide (GetKey target ∈ visited) in
          let* (back, visited) :=
            if String.eqb (GetKey target) (GetKey src) then Ok (true, visited)
            else if negb wasVisited then rec target visited
            else Ok (false, visited) in
          if back then Ok (true, true, visited)
          else targets_loop g rec src current rest satisfied cycle visited
  end.

(** The loop over the dependencies.  It returns whether all were
    satisfied, [cycle] and the visited keys. *)
Fixpoint dependencies_loop (g : Graph)
    (rec : Node → KeySet → result (bool * KeySet))
    (src current : Node) (dependencies : list (string * list Node))
    (cycle : bool) (visited : KeySet) : result (bool * bool * KeySet) :=
  match dependencies with
  | [] => Ok (true, cycle, visited)
  | (_, targets) :: rest =>
      let* (satisfied, cycle, visited) :=
        targets_loop g rec src current targets false cycle visited in
      if negb satisfied then Ok (false, cycle, visited)
      else dependencies_loop g rec src current rest cycle visited
  end.

(** [isNodeReadyRec].  [visited] is one map for all the calls: the key of
    [current] is added on entry and deleted again when the call returns.
    Every nested call is for a node of the graph whose key is not in
    [visited], so the nesting is at most [size g + 1] deep. *)
Fixpoint isNodeReadyRec (o : MapOrder) (fuel : nat) (g : Graph) (src current : Node)
    (visited : KeySet) : result (bool * KeySet) :=
  match fuel with
  | O => OutOfFuel
  | S fuel =>
      let visited := add visited (GetKey current) in
      let* (satisfied, cycle, visited) :=
        dependencies_loop g (isNodeReadyRec o fuel g src) src current
          (range o (GetTargets g current DependencyRelation)) false visited in
      let ready :=
        if negb satisfied then false
        else String.eqb (GetKey current) (GetKey src) || cycle in
      Ok (ready, visited ∖ {[GetKey current]})
  end.

Definition isNodeReady (o : MapOrder) (g : Graph) (node : Node) : result bool :=
  if decide (getNodeOrigin node = FromSB) then
    (* for SB values dependencies are not checked *)
    Ok true
  else
    let* (ready, _) := isNodeReadyRec o (S (size g)) g node node ∅ in
    Ok ready.


(** *** The key set of the scheduler, continued *)

(** [subtract] deletes the keys of [ks2] from the receiver, one by one in
    the order of the map, and returns the receiver.  A nil key set reads
    as the empty set: ranging over it makes no iteration and [delete] on
    it does nothing. *)
Definition subtract (o : MapOrder) (ks ks2 : KeySet) : KeySet :=
  foldl (λ ks key, ks ∖ {[key]}) ks (range o (elements ks2)).

(** *** dependsOn *)

(** The scheduler's own [dependsOn], over its own key set. *)
Fixpoint dependsOn_range (rec : string → KeySet → result (bool * KeySet))
    (k1Deps : list string) (visited : KeySet) : result (bool * KeySet) :=
  match k1Deps with
  | [] => Ok (false, visited)
  | dep :: rest =>
      if bool_decide (dep ∈ visited) then dependsOn_range rec rest visited
      else
        let* (found, visited) := rec dep visited in
        if found then Ok (true, visited)
        else dependsOn_range rec rest visited
  end.

Fixpoint dependsOn_rec (o : MapOrder) (fuel : nat) (k1 k2 : string)
    (deps : DepMap) (visited : KeySet) : result (bool * KeySet) :=
  match fuel with
  | O => OutOfFuel
  | S fuel =>
      (* check direct dependencies *)
      let k1Deps := default ∅ (deps !! k1) in
      if bool_decide (k2 ∈ k1Deps) then Ok (true, visited)
      else
        (* continue transitively *)
        let visited := add visited k1 in
        dependsOn_range (λ dep v, dependsOn_rec o fuel dep k2 deps v)
          (range o (elements k1Deps)) visited
  end.

Definition dependsOn (o : MapOrder) (k1 k2 : string) (deps : DepMap)
    (visited : option KeySet) : result (bool * KeySet) :=
  let visited := match visited with None => ∅ | Some v => v end in
  dependsOn_rec o (S (size deps)) k1 k2 deps visited.

(** *** Base and derived nodes *)

Definition canNodeHaveMetadata (node : Node) : bool := negb (isNodeDerived node).

(** The recursion of [getNodeBase], which follows the first source of
    each node, to a given depth. *)
Fixpoint getNodeBase_rec (fuel : nat) (g : Graph) (node : Node) : result Node :=
  match fuel with
  | O => OutOfFuel
  | S fuel =>
      match GetSources g node DerivesRelation with
      | [] => Ok node
      | derivedFrom0 :: _ => getNodeBase_rec fuel g derivedFrom0
      end
  end.

(** [getNodeBase].  A walk along the sources that has not ended after as
    many steps as the graph has nodes is in a cycle of sources and never
    ends.  Go does not reuse the frame of a call in tail position: each
    step of the recursion takes stack, and the run-time system stops the
    program with the fatal error "stack overflow" once the stack limit is
    reached.  That end of the call is recorded as a panic with this
    message; unlike a panic of the program it cannot be recovered. *)
Definition getNodeBase (g : Graph) (node : Node) : result Node :=
  match getNodeBase_rec (S (size g)) g node with
  | OutOfFuel => Panic "fatal error: stack overflow"
  | outcome => outcome
  end.

(** The targets are kept by label in a map, whose order the outer loop
    follows. *)
Definition getDerivedNodes (o : MapOrder) (g : Graph) (node : Node) : list Node :=
  foldl (λ derived (group : string * list Node),
           foldl (λ derived derivedNode, derived ++ [derivedNode]) derived group.2)
        [] (range o (GetTargets g node DerivesRelation)).

Definition getDerivedKeys (o : MapOrder) (g : Graph) (node : Node) : KeySet :=
  foldl (λ set derived, add set (GetKey derived)) ∅ (getDerivedNodes o g node).

(** *** The descriptor handler *)

(** Modelled from the spec: the error values of the API package.  The
    spec names the kind "Unimplemented (descriptor lacks
    Add/Modify/Delete)"; the handler returns one error value for each of the
    three operations.  [nil_error] is Go's nil, [errors_New] any other
    error. *)
Inductive error : Type :=
| nil_error
| ErrUnimplementedAdd
| ErrUnimplementedModify
| ErrUnimplementedDelete
| errors_New (text : string).

#[global] Instance error_eq_dec : EqDecision error.
Proof. solve_decision. Defined.

(** Modelled from the spec: [NonRetriableIfInTheList] of the API package
    ("assume retriable except for unimplemented"): the callback it returns
    answers false for the errors of the list and true for every other
    error. *)
Definition NonRetriableIfInTheList (nonRetriableErrs : list error) (err : error) : bool :=
  negb (existsb (λ nonRetriableErr, bool_decide (err = nonRetriableErr)) nonRetriableErrs).

(** The callbacks a descriptor can define. *)
Inductive Callback : Type :=
| CbKeyLabel | CbValueComparator | CbAdd | CbModify | CbModifyWithRecreate
| CbDelete | CbUpdate | CbRetriableFailure | CbDependencies | CbDerivedValues
| CbDump.

Module handler.

Section descriptor.

(** Values, metadata and the records passed to and from the callbacks are
    opaque to the handler; [World] is whatever the callbacks of a
    descriptor act on.  [proto.Equal] belongs to the protobuf library. *)
Context {Message Metadata Dependency KeyValuePair KVWithMetadata World : Type}.
Context (proto_Equal : Message → Message → bool).

(** A handler operation runs on the world of the callbacks and on the log
    of the callbacks called so far. *)
Definition Action (A : Type) : Type :=
  World * list Callback → A * (World * list Callback).

Definition ret {A : Type} (a : A) : Action A := λ s, (a, s).

(** Calling a callback of the descriptor: it acts on the world and the
    call is logged. *)
Definition call {A : Type} (name : Callback) (f : World → A * World) : Action A :=
  λ s, let (a, w) := f s.1 in (a, (w, s.2 ++ [name])).

(** [KVDescriptor]: every callback is a function-valued field that may be
    nil. *)
Record KVDescriptor : Type := {
  KeyLabel : option (string → World → string * World);
  ValueComparator : option (string → Message → Message → World → bool * World);
  Add : option (string → Message → World → (option Metadata * error) * World);
  Modify : option (string → Message → Message → option Metadata → World →
                   (option Metadata * error) * World);
  ModifyWithRecreate : option (string → Message → Message → option Metadata → World →
                               bool * World);
  Delete : option (string → Message → option Metadata → World → error * World);
  Update : option (string → Message → option Metadata → World → error * World);
  RetriableFailure : option (error → World → bool * World);
  Dependencies : option (string → Message → World → list Dependency * World);
  DerivedValues : option (string → Message → World → list KeyValuePair * World);
  Dump : option (list KVWithMetadata → World →
                 (list KVWithMetadata * error) * World)
}.

Record descriptorHandler : Type := { descriptor : option KVDescriptor }.

(** keyLabel by default returns the key itself. *)
Definition keyLabel (h : descriptorHandler) (key : string) : Action string :=
  match descriptor h with
  | None => ret key
  | Some d =>
      match KeyLabel d with
      | None => ret key
      | Some f => call CbKeyLabel (f key)
      end
  end.

(** equivalentValues by default uses proto.Equal(). *)
Definition equivalentValues (h : descriptorHandler) (key : string) (v1 v2 : Message)
    : Action bool :=
  match descriptor h with
  | None => ret (proto_Equal v1 v2)
  | Some d =>
      match ValueComparator d with
      | None => ret (proto_Equal v1 v2)
      | Some f => call CbValueComparator (f key v1 v2)
      end
  end.

(** add returns ErrUnimplementedAdd if Add is not provided. *)
Definition add (h : descriptorHandler) (key : string) (value : Message)
    : Action (option Metadata * error) :=
  match descriptor h with
  | None => ret (None, nil_error)
  | Some d =>
      match Add d with
      | None => ret (None, ErrUnimplementedAdd)
      | Some f => call CbAdd (f key value)
      end
  end.

(** modify returns ErrUnimplementedModify if Modify is not provided. *)
Definition modify (h : descriptorHandler) (key : string) (oldValue newValue : Message)
    (oldMetadata : option Metadata) : Action (option Metadata * error) :=
  match descriptor h with
  | None => ret (oldMetadata, nil_error)
  | Some d =>
      match Modify d with
      | None => ret (oldMetadata, ErrUnimplementedModify)
      | Some f => call CbModify (f key oldValue newValue oldMetadata)
      end
  end.

(** modifyWithRecreate by default assumes any change can be applied using
    Modify without re-creation. *)
Definition modifyWithRecreate (h : descriptorHandler) (key : string)
    (oldValue newValue : Message) (metadata : option Metadata) : Action bool :=
  match descriptor h with
  | None => ret false
  | Some d =>
      match ModifyWithRecreate d with
      | None => ret false
      | Some f => call CbModifyWithRecreate (f key oldValue newValue metadata)
      end
  end.

(** delete returns ErrUnimplementedDelete if Delete is not provided. *)
Definition delete (h : descriptorHandler) (key : string) (value : Message)
    (metadata : option Metadata) : Action error :=
  match descriptor h with
  | None => ret nil_error
  | Some d =>
      match Delete d with
      | None => ret ErrUnimplementedDelete
      | Some f => call CbDelete (f key value metadata)
      end
  end.

(** update does nothing if Update is not provided. *)
Definition update (h : descriptorHandler) (key : string) (value : Message)
    (metadata : option Metadata) : Action error :=
  match descriptor h with
  | None => ret nil_error
  | Some d =>
      match Update d with
      | None => ret nil_error
      | Some f => call CbUpdate (f key value metadata)
      end
  end.

(** retriableFailure first checks for errors returned by the handler
    itself.  If the descriptor does not define RetriableFailure, it is
    assumed any failure can be potentially fixed by retry. *)
Definition retriableFailure (h : descriptorHandler) (err : error) : Action bool :=
  let handlerErrs := [ErrUnimplementedAdd; ErrUnimplementedModify; ErrUnimplementedDelete] in
  let retriableFailure := NonRetriableIfInTheList handlerErrs in
  if negb (retriableFailure err) then ret false
  else
    match descriptor h with
    | None => ret true
    | Some d =>
        match RetriableFailure d with
        | None => ret true
        | Some f => call CbRetriableFailure (f err)
        end
    end.

(** dependencies returns empty list if descriptor does not define any. *)
Definition dependencies (h : descriptorHandler) (key : string) (value : Message)
    : Action (list Dependency) :=
  match descriptor h with
  | None => ret []
  | Some d =>
      match Dependencies d with
      | None => ret []
      | Some f => call CbDependencies (f key value)
      end
  end.

(** derivedValues returns empty list if descriptor does not define any. *)
Definition derivedValues (h : descriptorHandler) (key : string) (value : Message)
    : Action (list KeyValuePair) :=
  match descriptor h with
  | None => ret []
  | Some d =>
      match DerivedValues d with
      | None => ret []
      | Some f => call CbDerivedValues (f key value)
      end
  end.

(** dump returns <ableToDump> as false if descriptor does not implement
    Dump. *)
Definition dump (h : descriptorHandler) (correlate : list KVWithMetadata)
    : Action (list KVWithMetadata * bool * error) :=
  match descriptor h with
  | None => ret ([], false, nil_error)
  | Some d =>
      match Dump d with
      | None => ret ([], false, nil_error)
      | Some f =>
          λ s, let (r, s) := call CbDump (f correlate) s in
               ((r.1, true, r.2), s)
      end
  end.

End descriptor.

End handler.

End kvscheduler.

(** ** Notions about the graph *)

Section graph_notions.

Import kvscheduler.

(** [b] is a target of one of the dependencies of [a]. *)
Definition dependency_edge (g : Graph) (a b : Node) : Prop :=
  ∃ group, group ∈ GetTargets g a DependencyRelation ∧ b ∈ group.2.


(** One turn of the loop of [isNodeBeingRemoved]: the node the loop goes
    on with, if it does. *)
Definition next_base (g : Graph) (base : Node) : option Node :=
  match GetSources g base DerivesRelation with
  | [] => None
  | derivedFrom0 :: _ =>
      if isNodePending derivedFrom0 then None else Some derivedFrom0
  end.

(** The node the loop is at after [i] turns, if it makes that many. *)
Fixpoint turns (g : Graph) (i : nat) (base : Node) : option Node :=
  match i with
  | O => Some base
  | S i =>
      match next_base g base with
      | None => None
      | Some b => turns g i b
      end
  end.

(** The target is not about to be removed. *)
Definition stays (g : Graph) (target : Node) : bool :=
  match isNodeBeingRemoved g target with
  | Ok false => true
  | _ => false
  end.

(** The test [target.GetKey() == src.GetKey() || (!wasVisited &&
    isNodeReadyRec(src, target, visited))] with [rec] for the call. *)
Definition leads_back (rec : Node → KeySet → result (bool * KeySet))
    (src : Node) (visited : KeySet) (target : Node) : bool :=
  String.eqb (GetKey target) (GetKey src)
  || (negb (bool_decide (GetKey target ∈ visited))
      && match rec target visited with Ok (b, _) => b | _ => false end).

(** One dependency is satisfied: a target that stays is realized or leads
    back to [src]. *)
Definition satisfied_by (g : Graph) (rec : Node → KeySet → result (bool * KeySet))
    (src : Node) (visited : KeySet) (group : string * list Node) : bool :=
  existsb (λ t, stays g t && (negb (isNodePending t) || leads_back rec src visited t))
          group.2.

(** One dependency closes a cycle: a target that stays leads back to
    [src]. *)
Definition cycle_through (g : Graph) (rec : Node → KeySet → result (bool * KeySet))
    (src : Node) (visited : KeySet) (group : string * list Node) : bool :=
  existsb (λ t, stays g t && leads_back rec src visited t) group.2.

(** The check for removal returns on every node of the graph. *)
Definition removal_decided (g : Graph) : Prop :=
  ∀ k d, g !! k = Some d → ∃ b, isNodeBeingRemoved g (k, d) = Ok b.

(** The handle is the graph's node for its key. *)
Definition node_of (g : Graph) (node : Node) : Prop :=
  g !! GetKey node = Some node.2.

(** Readiness inside a cycle, read off the graph alone.  [current] is a
    node reached from [src] along dependencies, [path] holds the keys of
    the nodes passed on the way.  [current] closes a cycle through [src]
    when

    - every dependency of [current] has a target that is not being
      removed and is realized, or is [src], or lies off the path and
      closes a cycle through [src] itself, and
    - one of these targets is [src] or closes a cycle through [src].

    The path grows with every step, so the definition is well founded on
    a finite graph. *)
#[warnings="-register-all"]
Inductive closes_cycle (g : Graph) (src : Node) : KeySet → Node → Prop :=
| closes_cycle_intro (path : KeySet) (current : Node) :
    (∀ group, group ∈ GetTargets g current DependencyRelation →
       ∃ target, target ∈ group.2
         ∧ isNodeBeingRemoved g target = Ok false
         ∧ (isNodePending target = false
            ∨ GetKey target = GetKey src
            ∨ ((GetKey target ∉ path ∪ {[GetKey current]})
               ∧ closes_cycle g src (path ∪ {[GetKey current]}) target))) →
    (∃ group target, group ∈ GetTargets g current DependencyRelation
       ∧ target ∈ group.2
       ∧ isNodeBeingRemoved g target = Ok false
       ∧ (GetKey target = GetKey src
          ∨ ((GetKey target ∉ path ∪ {[GetKey current]})
             ∧ closes_cycle g src (path ∪ {[GetKey current]}) target))) →
    closes_cycle g src path current.


End graph_notions.

(** ** Inputs used in examples *)

(** [a] depends on [b]. *)
Definition keys_chain : KeySet := {[ "a"; "b" ]}.
Definition deps_chain : DepMap := {[ "a" := {[ "b" ]} ]}.

(** Two cycles, [a ⇄ b] and [c ⇄ d], and [a] depends on [c]. *)
Definition keys_two_cycles : KeySet := {[ "a"; "b"; "c"; "d" ]}.
Definition deps_two_cycles : DepMap :=
  {[ "a" := {[ "b"; "c" ]}; "b" := {[ "a" ]}; "c" := {[ "d" ]}; "d" := {[ "c" ]} ]}.

(** The state in which [TopologicalOrder] enters its loop on the two
    cycles. *)
Definition state_two_cycles : utils.state :=
  utils.initial order_id keys_two_cycles deps_two_cycles.

(** A caller's store: cell 1 holds the key set [{a, b}], cell 2 the
    dependencies [{b}] of [a]. *)
Definition store_chain : Store := {[ 1%positive := {[ "a"; "b" ]}; 2%positive := {[ "b" ]} ]}.
Definition keys_ref_chain : KeySetRef := Some 1%positive.
Definition deps_refs_chain : DepRefs := {[ "a" := Some 2%positive ]}.

(** A node set by NB, with the given [Pending] flag and dependencies. *)
Definition nb_node (pending : bool) (deps : list (string * list string))
    : kvscheduler.NodeData :=
  {| kvscheduler.originFlag := Some kvscheduler.FromNB;
     kvscheduler.derivedFlag := false;
     kvscheduler.pendingFlag := pending;
     kvscheduler.lastChangeFlag := None;
     kvscheduler.targets := λ r,
       match r with
       | kvscheduler.DependencyRelation => deps
       | kvscheduler.DerivesRelation => []
       end;
     kvscheduler.sources := λ _, [] |}.

(** The same obtained from SB. *)
Definition sb_node (pending : bool) (deps : list (string * list string))
    : kvscheduler.NodeData :=
  {| kvscheduler.originFlag := Some kvscheduler.FromSB;
     kvscheduler.derivedFlag := false;
     kvscheduler.pendingFlag := pending;
     kvscheduler.lastChangeFlag := None;
     kvscheduler.targets := λ r,
       match r with
       | kvscheduler.DependencyRelation => deps
       | kvscheduler.DerivesRelation => []
       end;
     kvscheduler.sources := λ _, [] |}.

(** [n] and [t] depend on each other, and [t] also on [u]; all three are
    pending. *)
Definition node_n : kvscheduler.NodeData := nb_node true [("t", ["t"])].
Definition node_t : kvscheduler.NodeData := nb_node true [("n", ["n"]); ("u", ["u"])].
Definition node_u : kvscheduler.NodeData := nb_node true [].
Definition graph_unmet : gmap string kvscheduler.NodeData :=
  {[ "n" := node_n; "t" := node_t; "u" := node_u ]}.

(** The same with [u] realized. *)
Definition graph_met : gmap string kvscheduler.NodeData :=
  {[ "n" := node_n; "t" := node_t; "u" := nb_node false [] ]}.

(** A value from SB that depends on [x]; in [graph_sb] there is no [x]. *)
Definition node_sb : kvscheduler.NodeData := sb_node false [("needs-x", ["x"])].
Definition graph_sb : gmap string kvscheduler.NodeData := {[ "s" := node_sb ]}.

(** A target whose chain of sources never ends: [x] is derived from
    itself.  The check for removal does not return on it. *)
Definition node_x_derived : kvscheduler.NodeData :=
  {| kvscheduler.originFlag := Some kvscheduler.FromNB;
     kvscheduler.derivedFlag := true;
     kvscheduler.pendingFlag := false;
     kvscheduler.lastChangeFlag := None;
     kvscheduler.targets := λ _, [];
     kvscheduler.sources := λ r,
       match r with
       | kvscheduler.DependencyRelation => []
       | kvscheduler.DerivesRelation => ["x"]
       end |}.
Definition graph_sb_loop : gmap string kvscheduler.NodeData :=
  {[ "s" := node_sb; "x" := node_x_derived ]}.

(** Descriptors over string values, numbers as metadata and a counter of
    calls as the world.  The first defines no callback at all; the second
    claims every failure can be retried and compares all values as
    equal. *)
Definition descriptor_bare
    : @kvscheduler.handler.KVDescriptor string nat unit unit unit nat :=
  {| kvscheduler.handler.KeyLabel := None;
     kvscheduler.handler.ValueComparator := None;
     kvscheduler.handler.Add := None;
     kvscheduler.handler.Modify := None;
     kvscheduler.handler.ModifyWithRecreate := None;
     kvscheduler.handler.Delete := None;
     kvscheduler.handler.Update := None;
     kvscheduler.handler.RetriableFailure := None;
     kvscheduler.handler.Dependencies := None;
     kvscheduler.handler.DerivedValues := None;
     kvscheduler.handler.Dump := None |}.

Definition descriptor_retry_all
    : @kvscheduler.handler.KVDescriptor string nat unit unit unit nat :=
  {| kvscheduler.handler.KeyLabel := None;
     kvscheduler.handler.ValueComparator := Some (λ _ _ _ w, (true, S w));
     kvscheduler.handler.Add := Some (λ _ _ w, ((Some 1, kvscheduler.nil_error), S w));
     kvscheduler.handler.Modify := None;
     kvscheduler.handler.ModifyWithRecreate := None;
     kvscheduler.handler.Delete := None;
     kvscheduler.handler.Update := None;
     kvscheduler.handler.RetriableFailure := Some (λ _ w, (true, S w));
     kvscheduler.handler.Dependencies := None;
     kvscheduler.handler.DerivedValues := None;
     kvscheduler.handler.Dump := None |}.

Definition handler_bare := {| kvscheduler.handler.descriptor := Some descriptor_bare |}.
Definition handler_retry_all :=
  {| kvscheduler.handler.descriptor := Some descriptor_retry_all |}.

(** The cycle [a/1 → a/2 → a/3 → a/1] with [a/3] also depending on
    [a/4]: first without [a/4], then with [a/4] realized. *)
Definition node_a1 : kvscheduler.NodeData := nb_node true [("a/2", ["a/2"])].
Definition node_a2 : kvscheduler.NodeData := nb_node true [("a/3", ["a/3"])].
Definition node_a3 : kvscheduler.NodeData :=
  nb_node true [("a/1", ["a/1"]); ("a/4", ["a/4"])].
Definition graph_cycle_pending : gmap string kvscheduler.NodeData :=
  {[ "a/1" := node_a1; "a/2" := node_a2; "a/3" := node_a3 ]}.
Definition graph_cycle_realizable : gmap string kvscheduler.NodeData :=
  {[ "a/1" := node_a1; "a/2" := node_a2; "a/3" := node_a3; "a/4" := nb_node false [] ]}.

(** ** Further notions *)

(** A direct dependency on a key that is not marked. *)
Definition edge_avoiding (deps : DepMap) (V : KeySet) (a b : string) : Prop :=
  edge deps a b ∧ b ∉ V.

(** [k2] is reachable from [k1] by a non-empty path whose inner keys are
    not marked; the two ends may be. *)
Definition depends_avoiding (deps : DepMap) (V : KeySet) (k1 k2 : string) : Prop :=
  ∃ x, rtc (edge_avoiding deps V) k1 x ∧ edge deps x k2.

(** A direct dependency between two keys of [keys]. *)
Definition edge_within (keys : KeySet) (deps : DepMap) (a b : string) : Prop :=
  a ∈ keys ∧ b ∈ keys ∧ edge deps a b.

#[global] Instance edge_within_dec (keys : KeySet) (deps : DepMap) :
  RelDecision (edge_within keys deps).
Proof. intros a b. unfold edge_within. apply _. Defined.

(** The dependencies among the keys of [keys] have a cycle. *)
Definition cyclic_within (keys : KeySet) (deps : DepMap) : Prop :=
  ∃ k, tc (edge_within keys deps) k k.

(** Every direct dependency among [keys] is in the order asked for: the
    dependency first when [depFirst], the dependent key first otherwise. *)
Definition respects_edges (keys : KeySet) (deps : DepMap) (depFirst : bool)
    (l : list string) : Prop :=
  ∀ a b, a ∈ keys → b ∈ keys → edge deps a b →
         if depFirst then precedes b a l else precedes a b l.

(** [deps'] has the dependencies of [deps] reversed. *)
Definition transposed (deps deps' : DepMap) : Prop :=
  ∀ a b, edge deps a b ↔ edge deps' b a.

(** No key of [keys] depends directly on a key of [keys]. *)
Definition independent (keys : KeySet) (deps : DepMap) : Prop :=
  ∀ a b, a ∈ keys → b ∈ keys → ¬ edge deps a b.

(** Two dependency maps have the same direct dependencies among [keys]. *)
Definition agree_within (keys : KeySet) (deps deps' : DepMap) : Prop :=
  ∀ a b, a ∈ keys → b ∈ keys → (edge deps a b ↔ edge deps' a b).

(** They have the same self-dependent keys in [keys]. *)
Definition agree_on_cycles (keys : KeySet) (deps deps' : DepMap) : Prop :=
  ∀ k, k ∈ keys → (depends deps k k ↔ depends deps' k k).

(** ** Walks along the first sources *)

Section source_walks.

Import kvscheduler.

(** [i] steps of [next] from [n], if that many can be made. *)
Fixpoint follow (next : Node → option Node) (i : nat) (n : Node) : option Node :=
  match i with
  | O => Some n
  | S i =>
      match next n with
      | None => None
      | Some b => follow next i b
      end
  end.

(** The node [getNodeBase] goes on with. *)
Definition first_source (g : Graph) (n : Node) : option Node :=
  head (GetSources g n DerivesRelation).

(** The first source of [b] is pending. *)
Definition pending_source (g : Graph) (b : Node) : Prop :=
  ∃ s, first_source g b = Some s ∧ isNodePending s = true.

End source_walks.

(** ** Calls made by a handler operation *)

(** What an operation does with the callback it wraps.  [callback] is the
    field of the descriptor applied to the arguments of the operation.
    When the field is defined, the operation returns what one call of it
    returns (through [wrap]), in the world that call leaves, and the call
    is the only one added to the log; when it is nil, the world and the
    log stay as they are. *)
Definition runs_callback {World A B : Type}
    (callback : option (World → B * World)) (name : kvscheduler.Callback)
    (wrap : B → A)
    (act : World * list kvscheduler.Callback → A * (World * list kvscheduler.Callback))
    : Prop :=
  ∀ w log,
    match callback with
    | Some f => act (w, log) = (wrap (f w).1, ((f w).2, log ++ [name]))
    | None => (act (w, log)).2 = (w, log)
    end.

(** ** The order of slices of keys *)

(** [l1] comes before or equals [l2] in the lexicographic order built on
    the byte-wise order of strings. *)
Fixpoint lex_le (l1 l2 : list string) : Prop :=
  match l1, l2 with
  | [], _ => True
  | _ :: _, [] => False
  | x :: l1, y :: l2 => (x ≠ y ∧ string_le x y) ∨ (x = y ∧ lex_le l1 l2)
  end.

(** [l] lists the keys of [keys], each once, with every direct dependency
    among them in the order asked for. *)
Definition topological (keys : KeySet) (deps : DepMap) (depFirst : bool)
    (l : list string) : Prop :=
  NoDup l ∧ (∀ k, k ∈ l ↔ k ∈ keys) ∧ respects_edges keys deps depFirst l.

(** ** Further inputs *)

(** A value [v] with two levels of derived values: [v/d] is derived from
    [v] and [v/d/e] from [v/d]. *)
Definition derived_node (source : string) (derives : list (string * list string))
    : kvscheduler.NodeData :=
  {| kvscheduler.originFlag := Some kvscheduler.FromNB;
     kvscheduler.derivedFlag := true;
     kvscheduler.pendingFlag := false;
     kvscheduler.lastChangeFlag := None;
     kvscheduler.targets := λ r,
       match r with
       | kvscheduler.DependencyRelation => []
       | kvscheduler.DerivesRelation => derives
       end;
     kvscheduler.sources := λ r,
       match r with
       | kvscheduler.DependencyRelation => []
       | kvscheduler.DerivesRelation => [source]
       end |}.

Definition node_v : kvscheduler.NodeData :=
  {| kvscheduler.originFlag := Some kvscheduler.FromNB;
     kvscheduler.derivedFlag := false;
     kvscheduler.pendingFlag := false;
     kvscheduler.lastChangeFlag := Some (Some "value");
     kvscheduler.targets := λ r,
       match r with
       | kvscheduler.DependencyRelation => []
       | kvscheduler.DerivesRelation => [("d", ["v/d"]); ("gone", ["v/gone"])]
       end;
     kvscheduler.sources := λ _, [] |}.
Definition node_vd : kvscheduler.NodeData := derived_node "v" [("e", ["v/d/e"])].
Definition node_vde : kvscheduler.NodeData := derived_node "v/d" [].
Definition graph_derived : gmap string kvscheduler.NodeData :=
  {[ "v" := node_v; "v/d" := node_vd; "v/d/e" := node_vde ]}.

(** A handler without a descriptor, over the same types as the
    descriptors above. *)
Definition handler_none
    : @kvscheduler.handler.descriptorHandler string nat unit unit unit nat :=
  {| kvscheduler.handler.descriptor := None |}.

(** Three keys of which [a] depends on [c]; [b] is free. *)
Definition keys_fork : KeySet := {[ "a"; "b"; "c" ]}.
Definition deps_fork : DepMap := {[ "a" := {[ "c" ]} ]}.

(** ** The order on strings *)

Section string_order.

Lemma ascii_compare_refl (a : ascii) : Ascii.compare a a = Eq.
Proof. unfold Ascii.compare. apply N.compare_refl. Qed.

Lemma ascii_compare_lt_trans (a b c : ascii) :
  Ascii.compare a b = Lt → Ascii.compare b c = Lt → Ascii.compare a c = Lt.
Proof.
  unfold Ascii.compare. rewrite !N.compare_lt_iff. apply N.lt_trans.
Qed.

Lemma string_compare_refl (s : string) : String.compare s s = Eq.
Proof. induction s as [|a s IH]; simpl; [done|]. by rewrite ascii_compare_refl. Qed.

Lemma string_compare_lt_trans (s1 s2 s3 : string) :
  String.compare s1 s2 = Lt → String.compare s2 s3 = Lt → String.compare s1 s3 = Lt.
Proof.
  revert s2 s3. induction s1 as [|a s1 IH]; intros [|b s2] [|c s3]; simpl; try done.
  destruct (Ascii.compare a b) eqn:Hab; try done;
    destruct (Ascii.compare b c) eqn:Hbc; try done; intros H12 H23.
  - apply Ascii.compare_eq_iff in Hab as ->. rewrite Hbc. by eapply IH.
  - apply Ascii.compare_eq_iff in Hab as ->. by rewrite Hbc.
  - apply Ascii.compare_eq_iff in Hbc as <-. by rewrite Hab.
  - by rewrite (ascii_compare_lt_trans a b c).
Qed.

Lemma string_le_cases (a b : string) :
  string_le a b ↔ String.compare a b = Lt ∨ a = b.
Proof.
  unfold string_le, String.leb. split.
  - destruct (String.compare a b) eqn:Hc; try done.
    + right. by apply String.compare_eq_iff.
    + by left.
  - intros [-> | ->]; [done|]. by rewrite string_compare_refl.
Qed.

#[global] Instance string_le_refl : Reflexive string_le.
Proof. intros a. apply string_le_cases. by right. Qed.

#[global] Instance string_le_trans : Transitive string_le.
Proof.
  intros a b c. rewrite !string_le_cases.
  intros [Hab | ->] [Hbc | ->]; eauto using string_compare_lt_trans.
Qed.

#[global] Instance string_le_total : Total string_le.
Proof. intros a b. apply String.leb_total. Qed.

#[global] Instance string_le_antisym : AntiSymm (=) string_le.
Proof. intros a b. apply String.leb_antisym. Qed.

End string_order.

(** ** Sorting *)

Section sorting.

Lemma sort_Strings_perm (l : list string) : sort_Strings l ≡ₚ l.
Proof. apply merge_sort_Permutation. Qed.

Lemma sort_Strings_sorted (l : list string) : StronglySorted string_le (sort_Strings l).
Proof. apply StronglySorted_merge_sort; apply _. Qed.

(** Sorting forgets the arrangement of its argument. *)
Lemma sort_Strings_proper (l1 l2 : list string) :
  l1 ≡ₚ l2 → sort_Strings l1 = sort_Strings l2.
Proof.
  intros Hp. apply (StronglySorted_unique string_le);
    auto using sort_Strings_sorted.
  by rewrite !sort_Strings_perm.
Qed.

(** The first element of the sorted slice is a least element of the slice. *)
Lemma sort_Strings_head (l : list string) (key : string) (rest : list string) :
  sort_Strings l = key :: rest →
  key ∈ l ∧ ∀ c, c ∈ l → string_le key c.
Proof.
  intros Hs. pose proof (sort_Strings_sorted l) as Hsorted.
  pose proof (sort_Strings_perm l) as Hp. rewrite Hs in Hsorted, Hp.
  split.
  - rewrite <- Hp. apply list_elem_of_here.
  - intros c Hc. rewrite <- Hp in Hc.
    apply StronglySorted_inv in Hsorted as [_ Hall].
    apply elem_of_cons in Hc as [-> | Hc]; [reflexivity|].
    by eapply Forall_forall in Hall.
Qed.

Lemma sort_Strings_nil (l : list string) : sort_Strings l = [] → l = [].
Proof.
  intros Hs. apply Permutation_nil_r. by rewrite <- Hs, sort_Strings_perm.
Qed.

End sorting.

(** ** DependsOn is reachability *)

Section depends_on.

Context (o : MapOrder) (deps : DepMap) (k2 : string).

Lemma Has_true (ks : KeySet) (key : string) : utils.Has ks key = true ↔ key ∈ ks.
Proof. unfold utils.Has. apply bool_decide_eq_true. Qed.

Lemma Has_false (ks : KeySet) (key : string) : utils.Has ks key = false ↔ key ∉ ks.
Proof. unfold utils.Has. apply bool_decide_eq_false. Qed.

Lemma range_elem_of {A : Type} (l : list A) (x : A) : x ∈ range o l ↔ x ∈ l.
Proof. by rewrite (range_perm o). Qed.

(** *** A positive answer comes with a path *)

Lemma DependsOn_range_true (f : string → KeySet → result (bool * KeySet))
    (P : string → Prop) (l : list string) (V V' : KeySet) :
  (∀ dep v v', dep ∈ l → f dep v = Ok (true, v') → P dep) →
  utils.DependsOn_range f l V = Ok (true, V') →
  ∃ dep, dep ∈ l ∧ P dep.
Proof.
  revert V. induction l as [|dep l IH]; intros V Hf; simpl; [done|].
  destruct (utils.Has V dep).
  - intros Hr. destruct (IH V) as (d & Hd & HP); [|done|].
    + intros d v v' Hd. apply Hf. by right.
    + exists d. split; [by right|done].
  - destruct (f dep V) as [[[] V1]| |] eqn:Hcall; simpl; try done.
    + intros _. exists dep. split; [by left|]. eapply Hf; [by left|done].
    + intros Hr. destruct (IH V1) as (d & Hd & HP); [|done|].
      * intros d v v' Hd. apply Hf. by right.
      * exists d. split; [by right|done].
Qed.

Lemma DependsOn_rec_sound (fuel : nat) (k1 : string) (V V' : KeySet) :
  utils.DependsOn_rec o fuel k1 k2 deps V = Ok (true, V') → depends deps k1 k2.
Proof.
  revert k1 V V'. induction fuel as [|fuel IH]; intros k1 V V'; simpl; [done|].
  destruct (utils.Has (utils.index deps k1) k2) eqn:Hdirect.
  - intros _. apply tc_once. by apply Has_true.
  - intros Hr.
    apply (DependsOn_range_true _ (λ dep, depends deps dep k2)) in Hr
      as (dep & Hdep & Hpath).
    + eapply tc_l; [|done]. unfold edge.
      rewrite range_elem_of, elem_of_elements in Hdep. done.
    + intros d v v' _. apply IH.
Qed.

(** *** A negative answer leaves a closed set of marked keys *)

Lemma explored_refl (V : KeySet) : explored deps k2 V V.
Proof. split; [done|]. intros x Hx Hnx. done. Qed.

Lemma explored_trans (V1 V2 V3 : KeySet) :
  explored deps k2 V1 V2 → explored deps k2 V2 V3 → explored deps k2 V1 V3.
Proof.
  intros [Hs12 H12] [Hs23 H23]. split; [set_solver|].
  intros x Hx3 Hx1. destruct (decide (x ∈ V2)) as [Hx2|Hx2].
  - destruct (H12 x Hx2 Hx1) as [Hk Hsub]. split; [done|set_solver].
  - by apply H23.
Qed.

Lemma DependsOn_range_false (f : string → KeySet → result (bool * KeySet))
    (l : list string) (V V' : KeySet) :
  (∀ dep v v', f dep v = Ok (false, v') → dep ∈ v' ∧ explored deps k2 v v') →
  utils.DependsOn_range f l V = Ok (false, V') →
  explored deps k2 V V' ∧ ∀ dep, dep ∈ l → dep ∈ V'.
Proof.
  intros Hf. revert V. induction l as [|dep l IH]; intros V; simpl.
  - intros [= <-]. split; [apply explored_refl|]. intros dep Hdep. by apply elem_of_nil in Hdep.
  - destruct (utils.Has V dep) eqn:Hvis.
    + intros Hr. destruct (IH V Hr) as [Hex Hall]. split; [done|].
      intros d [-> | Hd]%elem_of_cons; [|by apply Hall].
      apply Has_true in Hvis. destruct Hex as [Hsub _]. set_solver.
    + destruct (f dep V) as [[[] V1]| |] eqn:Hcall; simpl; try done.
      intros Hr. destruct (Hf _ _ _ Hcall) as [Hin Hex1].
      destruct (IH V1 Hr) as [Hex Hall]. split.
      * by eapply explored_trans.
      * intros d [-> | Hd]%elem_of_cons; [|by apply Hall].
        destruct Hex as [Hsub _]. set_solver.
Qed.

Lemma DependsOn_rec_false (fuel : nat) (k1 : string) (V V' : KeySet) :
  utils.DependsOn_rec o fuel k1 k2 deps V = Ok (false, V') →
  k1 ∈ V' ∧ explored deps k2 V V'.
Proof.
  revert k1 V V'. induction fuel as [|fuel IH]; intros k1 V V'; simpl; [done|].
  destruct (utils.Has (utils.index deps k1) k2) eqn:Hdirect; [done|].
  intros Hr. apply DependsOn_range_false in Hr as [[Hsub Hex] Hall]; [|apply IH].
  unfold utils.Add in *. split; [set_solver|]. split; [set_solver|].
  intros x Hx' Hx. destruct (decide (x = k1)) as [->|Hne].
  - split; [by apply Has_false|].
    intros d Hd. apply Hall. by rewrite range_elem_of, elem_of_elements.
  - apply Hex; [done|set_solver].
Qed.

(** A set of marked keys that is closed under the dependencies and holds
    no key with [k2] as a direct dependency cannot reach [k2]. *)
Lemma closed_not_depends (V : KeySet) (k1 : string) :
  (∀ x, x ∈ V → (k2 ∉ utils.index deps x) ∧ utils.index deps x ⊆ V) →
  k1 ∈ V → ¬ depends deps k1 k2.
Proof.
  intros Hclosed Hk1 Hpath. unfold depends in Hpath.
  induction Hpath as [x y Hxy | x y z Hxy Hyz IH].
  - by destruct (Hclosed x Hk1).
  - apply IH; [done|]. destruct (Hclosed x Hk1) as [_ Hsub]. by apply Hsub.
Qed.

Lemma DependsOn_rec_complete (fuel : nat) (k1 : string) (V' : KeySet) :
  utils.DependsOn_rec o fuel k1 k2 deps ∅ = Ok (false, V') → ¬ depends deps k1 k2.
Proof.
  intros Hr. apply DependsOn_rec_false in Hr as (Hk1 & _ & Hex).
  apply (closed_not_depends V'); [|done].
  intros x Hx. apply Hex; [done|set_solver].
Qed.

(** *** The recursion bound is never reached *)

Lemma unmarked_mono (V V' : KeySet) : V ⊆ V' → unmarked deps V' ≤ unmarked deps V.
Proof. intros Hsub. unfold unmarked. apply subseteq_size. set_solver. Qed.

Lemma unmarked_add (V : KeySet) (k : string) :
  k ∈ dom deps → k ∉ V → unmarked deps (utils.Add V k) < unmarked deps V.
Proof.
  intros Hdom Hk. unfold unmarked, utils.Add. apply subset_size.
  split; [set_solver|]. intros Hsub. specialize (Hsub k). set_solver.
Qed.

Lemma DependsOn_range_total (f : string → KeySet → result (bool * KeySet))
    (n : nat) (l : list string) (V : KeySet) :
  (∀ dep v, dep ∉ v → unmarked deps v ≤ n →
     ∃ b v', f dep v = Ok (b, v') ∧ v ⊆ v') →
  unmarked deps V ≤ n →
  ∃ b V', utils.DependsOn_range f l V = Ok (b, V') ∧ V ⊆ V'.
Proof.
  intros Hf. revert V. induction l as [|dep l IH]; intros V Hn; simpl.
  - by exists false, V.
  - destruct (utils.Has V dep) eqn:Hvis; [by apply IH|].
    apply Has_false in Hvis.
    destruct (Hf dep V Hvis Hn) as (b & V1 & -> & Hsub). simpl.
    destruct b; [by exists true, V1|].
    destruct (IH V1) as (b & V2 & -> & Hsub2).
    + pose proof (unmarked_mono V V1 Hsub). lia.
    + exists b, V2. split; [done|set_solver].
Qed.

Lemma index_not_dom (k : string) : k ∉ dom deps → utils.index deps k = ∅.
Proof. intros Hk. apply not_elem_of_dom in Hk. unfold utils.index. by rewrite Hk. Qed.

Lemma range_nil {A : Type} : range o (@nil A) = [].
Proof. apply Permutation_nil_r, (range_perm o). Qed.

Lemma DependsOn_rec_total (fuel : nat) (k1 : string) (V : KeySet) :
  k1 ∉ V → unmarked deps V < fuel →
  ∃ b V', utils.DependsOn_rec o fuel k1 k2 deps V = Ok (b, V') ∧ V ⊆ V'.
Proof.
  revert k1 V. induction fuel as [|fuel IH]; intros k1 V Hk1 Hfuel; [lia|]. simpl.
  destruct (utils.Has (utils.index deps k1) k2); [by exists true, V|].
  destruct (decide (k1 ∈ dom deps)) as [Hdom|Hdom].
  - pose proof (unmarked_add V k1 Hdom Hk1) as Hlt.
    destruct (DependsOn_range_total (λ dep v, utils.DependsOn_rec o fuel dep k2 deps v) (fuel - 1)
                (range o (elements (utils.index deps k1))) (utils.Add V k1))
      as (b & V' & -> & Hsub).
    + intros dep v Hdep Hv. apply IH; [done|lia].
    + lia.
    + exists b, V'. split; [done|]. unfold utils.Add in Hsub. set_solver.
  - rewrite (index_not_dom k1 Hdom), elements_empty, range_nil. simpl.
    exists false, (utils.Add V k1). split; [done|]. unfold utils.Add. set_solver.
Qed.

End depends_on.

(** *** The result of DependsOn *)

Lemma DependsOn_total (o : MapOrder) (k1 k2 : string) (deps : DepMap) :
  ∃ b V', utils.DependsOn o k1 k2 deps None = Ok (b, V').
Proof.
  unfold utils.DependsOn, utils.NewKeySet.
  destruct (DependsOn_rec_total o deps k2 (S (size deps)) k1 ∅) as (b & V' & Hr & _).
  - set_solver.
  - unfold unmarked. rewrite difference_empty_L, size_dom. lia.
  - by exists b, V'.
Qed.

Lemma DependsOn_true_iff (o : MapOrder) (k1 k2 : string) (deps : DepMap) :
  (∃ V', utils.DependsOn o k1 k2 deps None = Ok (true, V')) ↔ depends deps k1 k2.
Proof.
  split.
  - intros [V' Hr]. by eapply DependsOn_rec_sound.
  - intros Hpath. destruct (DependsOn_total o k1 k2 deps) as ([] & V' & Hr); [by exists V'|].
    exfalso. by eapply DependsOn_rec_complete.
Qed.

Lemma DependsOn_false_iff (o : MapOrder) (k1 k2 : string) (deps : DepMap) :
  (∃ V', utils.DependsOn o k1 k2 deps None = Ok (false, V')) ↔ ¬ depends deps k1 k2.
Proof.
  split.
  - intros [V' Hr]. by eapply DependsOn_rec_complete.
  - intros Hpath. destruct (DependsOn_total o k1 k2 deps) as ([] & V' & Hr); [|by exists V'].
    exfalso. apply Hpath. by eapply DependsOn_rec_sound.
Qed.

(** ** Finite graphs without sinks have cycles *)

Section cycles.

Lemma tc_flip {A : Type} (R : relation A) (x y : A) : tc (flip R) x y → tc R y x.
Proof.
  induction 1 as [x y Hxy | x y z Hxy _ IH].
  - by apply tc_once.
  - eapply tc_r; [apply IH|done].
Qed.

(** If every key of a non-empty finite set has a successor in the set,
    some key of the set lies on a cycle.  The proof removes one key and
    lets the remaining keys step over it. *)
Lemma exists_cycle_bounded (n : nat) :
  ∀ (R : relation string) (X : KeySet),
    (∀ x y, Decision (R x y)) →
    size X ≤ n → X ≠ ∅ →
    (∀ x, x ∈ X → ∃ y, y ∈ X ∧ R x y) →
    ∃ x, x ∈ X ∧ tc R x x.
Proof.
  induction n as [|n IH]; intros R X Hdec Hsize Hne Hsucc.
  - exfalso. apply Hne, leibniz_equiv, size_empty_inv. lia.
  - apply set_choose_L in Hne as [x0 Hx0].
    destruct (decide (R x0 x0)) as [Hloop|Hnoloop].
    { exists x0. split; [done|]. by apply tc_once. }
    set (R' := λ x y, R x y ∨ (R x x0 ∧ R x0 y)).
    assert (HR' : ∀ x y, tc R' x y → tc R x y).
    { intros x y. induction 1 as [x y [Hxy|[Hx Hy]] | x y z [Hxy|[Hx Hy]] _ IH'].
      - by apply tc_once.
      - eapply tc_l; [done|]. by apply tc_once.
      - by eapply tc_l.
      - eapply tc_l; [done|]. by eapply tc_l. }
    destruct (IH R' (X ∖ {[x0]})) as (x & Hx & Hcycle).
    + intros x y. unfold R'. apply _.
    + assert (size (X ∖ {[x0]}) = size X - 1) as Heq; [|lia].
      rewrite size_difference, size_singleton; [done|set_solver].
    + intros Hempty. destruct (Hsucc x0 Hx0) as (y & Hy & Hxy).
      destruct (decide (y = x0)) as [->|Hyne]; [done|].
      assert (y ∈ X ∖ {[x0]}) as Hin by set_solver.
      rewrite Hempty in Hin. set_solver.
    + intros x Hx. assert (x ∈ X) as HxX by set_solver.
      destruct (Hsucc x HxX) as (y & Hy & Hxy).
      destruct (decide (y = x0)) as [->|Hyne].
      * destruct (Hsucc x0 Hx0) as (z & Hz & Hx0z).
        assert (z ≠ x0) by (intros ->; done).
        exists z. split; [set_solver|]. right. done.
      * exists y. split; [set_solver|]. by left.
    + exists x. split; [set_solver|]. by apply HR'.
Qed.

Lemma exists_cycle (R : relation string) (X : KeySet) :
  (∀ x y, Decision (R x y)) →
  X ≠ ∅ →
  (∀ x, x ∈ X → ∃ y, y ∈ X ∧ R x y) →
  ∃ x, x ∈ X ∧ tc R x x.
Proof. intros Hdec. by apply (exists_cycle_bounded (size X)). Qed.

End cycles.

(** ** The main loop of TopologicalOrder *)

Section topological_order.

Context (o : MapOrder) (keys : KeySet) (deps : DepMap).

(** *** The restricted dependency map *)

Lemma restrict_fold_lookup (l : list (string * KeySet)) (m0 : DepMap) (k : string) :
  NoDup l.*1 →
  foldl (utils.restrict_deps_body keys) m0 l !! k =
    match (list_to_map l : DepMap) !! k with
    | Some s => if decide (k ∈ keys) then Some (s ∩ keys) else m0 !! k
    | None => m0 !! k
    end.
Proof.
  revert m0. induction l as [|[k' s'] l IH]; intros m0 Hnd; simpl; [done|].
  apply NoDup_cons in Hnd as [Hk' Hnd]. rewrite IH by done.
  unfold utils.restrict_deps_body, utils.Has, utils.Intersect.
  destruct (decide (k = k')) as [->|Hne].
  - rewrite lookup_insert_eq.
    rewrite (not_elem_of_list_to_map_1 l k') by done.
    destruct (decide (k' ∈ keys)) as [Hin|Hin].
    + rewrite bool_decide_eq_true_2 by done. simpl. by rewrite lookup_insert_eq.
    + rewrite bool_decide_eq_false_2 by done. done.
  - rewrite lookup_insert_ne by done.
    destruct (bool_decide (k' ∈ keys)); simpl; [|done].
    rewrite lookup_insert_ne by done. done.
Qed.

Lemma restrict_deps_lookup (k : string) :
  utils.restrict_deps o keys deps !! k =
    if decide (k ∈ keys) then (λ s, s ∩ keys) <$> deps !! k else None.
Proof.
  unfold utils.restrict_deps.
  assert (NoDup (range o (map_to_list deps)).*1) as Hnd.
  { rewrite (range_perm o). apply NoDup_fst_map_to_list. }
  rewrite restrict_fold_lookup by done.
  assert ((list_to_map (range o (map_to_list deps)) : DepMap) = deps) as ->.
  { rewrite <- (list_to_map_to_list deps) at 2.
    apply list_to_map_proper; [done|apply (range_perm o)]. }
  rewrite lookup_empty. destruct (deps !! k); destruct (decide (k ∈ keys)); done.
Qed.

Lemma initial_invariant : loop_invariant keys deps (utils.initial o keys deps).
Proof.
  split; simpl; unfold utils.DeepCopy.
  - done.
  - apply restrict_deps_lookup.
  - apply NoDup_nil_2.
  - intros k. split; [by intros ?%elem_of_nil|]. by intros [? ?].
Qed.

(** *** Removing the selected key *)

Lemma remove_key_invariant (st : utils.state) (key : string) :
  loop_invariant keys deps st → key ∈ utils.remains st →
  loop_invariant keys deps (utils.remove_key key st).
Proof.
  intros [Hrem Hdeps Hnd Hsorted] Hkey. split; simpl; unfold utils.Del.
  - set_solver.
  - intros k. rewrite lookup_fmap. destruct (decide (k = key)) as [->|Hne].
    + rewrite lookup_delete_eq. simpl. rewrite decide_False by set_solver. done.
    + rewrite lookup_delete_ne by done. rewrite Hdeps.
      destruct (decide (k ∈ utils.remains st)) as [Hin|Hin].
      * rewrite decide_True by set_solver.
        destruct (deps !! k) as [s|]; simpl; [|done]. f_equal. set_solver.
      * rewrite decide_False by set_solver. done.
  - apply NoDup_app. split; [done|]. split; [|apply NoDup_singleton].
    intros k Hk [= ->]%list_elem_of_singleton. apply Hsorted in Hk. tauto.
  - intros k. rewrite elem_of_app, list_elem_of_singleton, Hsorted.
    destruct (decide (k = key)) as [->|Hne]; set_solver.
Qed.

Lemma invariant_index (st : utils.state) (k : string) :
  loop_invariant keys deps st → k ∈ utils.remains st →
  utils.index (utils.remainsDeps st) k = utils.index deps k ∩ utils.remains st.
Proof.
  intros Hinv Hk. unfold utils.index. rewrite (inv_deps _ _ _ Hinv).
  rewrite decide_True by done. destruct (deps !! k); simpl; [done|set_solver].
Qed.

(** *** The candidates *)

Lemma find_candidates_elem (depFirst : bool) (R : KeySet) (RD : DepMap) (k : string) :
  k ∈ utils.find_candidates o depFirst R RD ↔
  k ∈ R ∧ utils.candidate o depFirst RD k = true.
Proof.
  unfold utils.find_candidates.
  rewrite list_elem_of_In, filter_In, <- list_elem_of_In, range_elem_of, elem_of_elements.
  done.
Qed.

Lemma candidate_depFirst (RD : DepMap) (k : string) :
  utils.candidate o true RD k = true ↔ utils.index RD k = ∅.
Proof.
  unfold utils.candidate, utils.len. rewrite Nat.eqb_eq. split.
  - intros Hs. by apply leibniz_equiv, size_empty_inv.
  - intros ->. apply size_empty.
Qed.

Lemma depended_on_true (RD : DepMap) (k : string) :
  utils.depended_on o RD k = true ↔ ∃ k2 s, RD !! k2 = Some s ∧ k ∈ s.
Proof.
  unfold utils.depended_on. rewrite existsb_exists. split.
  - intros ([k2 s] & Hin & Hhas). exists k2, s.
    rewrite <- list_elem_of_In, range_elem_of, elem_of_map_to_list in Hin.
    split; [done|]. by apply Has_true.
  - intros (k2 & s & Hlook & Hk). exists (k2, s). split; [|by apply Has_true].
    by rewrite <- list_elem_of_In, range_elem_of, elem_of_map_to_list.
Qed.

Lemma candidate_depLast (RD : DepMap) (k : string) :
  utils.candidate o false RD k = true ↔ ∀ k2 s, RD !! k2 = Some s → k ∉ s.
Proof.
  unfold utils.candidate. rewrite negb_true_iff, <- not_true_iff_false, depended_on_true.
  split.
  - intros Hno k2 s Hlook Hk. apply Hno. by exists k2, s.
  - intros Hall (k2 & s & Hlook & Hk). by eapply Hall.
Qed.

Lemma self_dependent_true (k : string) :
  self_dependent o deps k = true ↔ depends deps k k.
Proof.
  rewrite <- (DependsOn_true_iff o). unfold self_dependent. split.
  - destruct (utils.DependsOn o k k deps None) as [[b V]| |]; try done.
    intros ->. by exists V.
  - intros [V ->]. done.
Qed.

Lemma cycle_candidates_eq (l : list string) :
  utils.cycle_candidates o deps l = Ok (List.filter (self_dependent o deps) l).
Proof.
  induction l as [|k l IH]; simpl; [done|].
  unfold self_dependent at 1.
  destruct (DependsOn_total o k k deps) as (b & V & ->). simpl.
  rewrite IH. simpl. done.
Qed.

Lemma cycle_candidates_elem (R : KeySet) (k : string) :
  k ∈ List.filter (self_dependent o deps) (range o (elements R)) ↔
  k ∈ R ∧ depends deps k k.
Proof.
  rewrite list_elem_of_In, filter_In, <- list_elem_of_In, range_elem_of, elem_of_elements.
  by rewrite self_dependent_true.
Qed.

(** With no ordinary candidate, some remaining key lies on a cycle. *)
Lemma no_candidate_cycle (depFirst : bool) (st : utils.state) :
  loop_invariant keys deps st → utils.remains st ≠ ∅ →
  utils.find_candidates o depFirst (utils.remains st) (utils.remainsDeps st) = [] →
  ∃ k, k ∈ utils.remains st ∧ depends deps k k.
Proof.
  intros Hinv Hne Hnone.
  assert (∀ k, k ∈ utils.remains st →
            utils.candidate o depFirst (utils.remainsDeps st) k = false) as Hno.
  { intros k Hk. apply not_true_iff_false. intros Hc.
    assert (k ∈ utils.find_candidates o depFirst (utils.remains st) (utils.remainsDeps st))
      as Hin by by apply find_candidates_elem.
    rewrite Hnone in Hin. by apply elem_of_nil in Hin. }
  destruct depFirst.
  - apply (exists_cycle (edge deps)); [apply _|done|].
    intros k Hk. specialize (Hno k Hk).
    apply not_true_iff_false in Hno. rewrite candidate_depFirst in Hno.
    apply set_choose_L in Hno as [y Hy].
    rewrite (invariant_index st k Hinv Hk) in Hy.
    exists y. unfold edge. set_solver.
  - destruct (exists_cycle (flip (edge deps)) (utils.remains st)) as (k & Hk & Hcycle);
      [intros x y; unfold flip; apply _|done| |].
    + intros k Hk. specialize (Hno k Hk).
      unfold utils.candidate in Hno. rewrite negb_false_iff, depended_on_true in Hno.
      destruct Hno as (k2 & s & Hlook & Hks).
      rewrite (inv_deps _ _ _ Hinv) in Hlook.
      destruct (decide (k2 ∈ utils.remains st)) as [Hk2|]; [|done].
      destruct (deps !! k2) as [s0|] eqn:Hd; simpl in Hlook; [|done].
      injection Hlook as <-. exists k2. split; [done|].
      unfold flip, edge, utils.index. rewrite Hd. simpl. set_solver.
    + exists k. split; [done|]. by apply tc_flip.
Qed.

Lemma candidates_of_ok (depFirst : bool) (st : utils.state) :
  loop_invariant keys deps st → utils.remains st ≠ ∅ →
  ∃ cs, utils.candidates_of o deps depFirst true (utils.remains st) (utils.remainsDeps st)
          = Ok cs
        ∧ cs ≠ [] ∧ ∀ k, k ∈ cs → k ∈ utils.remains st.
Proof.
  intros Hinv Hne. unfold utils.candidates_of.
  destruct (utils.find_candidates o depFirst (utils.remains st) (utils.remainsDeps st))
    as [|c cs] eqn:Hfind; simpl.
  - rewrite cycle_candidates_eq. eexists. split; [done|].
    destruct (no_candidate_cycle depFirst st Hinv Hne Hfind) as (k & Hk & Hcycle).
    split.
    + intros Hnil.
      assert (k ∈ List.filter (self_dependent o deps) (range o (elements (utils.remains st))))
        as Hin by by apply cycle_candidates_elem.
      rewrite Hnil in Hin. by apply elem_of_nil in Hin.
    + intros k' Hk'. by apply cycle_candidates_elem in Hk' as [? _].
  - exists (c :: cs). split; [done|]. split; [done|].
    intros k Hk. rewrite <- Hfind in Hk. by apply find_candidates_elem in Hk as [? _].
Qed.

Lemma first_sorted_ok (cs : list string) (key : string) :
  utils.first_sorted cs = Ok key → key ∈ cs ∧ ∀ c, c ∈ cs → string_le key c.
Proof.
  unfold utils.first_sorted. destruct (sort_Strings cs) as [|k rest] eqn:Hs; [done|].
  intros [= <-]. by eapply sort_Strings_head.
Qed.

Lemma first_sorted_total (cs : list string) :
  cs ≠ [] → ∃ key, utils.first_sorted cs = Ok key.
Proof.
  intros Hne. unfold utils.first_sorted.
  destruct (sort_Strings cs) as [|k rest] eqn:Hs; [|by exists k].
  by apply sort_Strings_nil in Hs.
Qed.

(** *** One iteration *)

Lemma step_inv (depFirst handleCycle : bool) (st st' : utils.state) :
  utils.step o deps depFirst handleCycle st = Ok st' →
  ∃ cs key,
    utils.candidates_of o deps depFirst handleCycle (utils.remains st) (utils.remainsDeps st)
      = Ok cs
    ∧ utils.first_sorted cs = Ok key
    ∧ st' = utils.remove_key key st.
Proof.
  unfold utils.step.
  destruct (utils.candidates_of _ _ _ _ _ _) as [cs| |]; simpl; try done.
  destruct (utils.first_sorted cs) as [key| |] eqn:Hkey; simpl; try done.
  intros [= <-]. by exists cs, key.
Qed.

Lemma candidates_of_remains (depFirst handleCycle : bool) (R : KeySet) (RD : DepMap)
    (cs : list string) (k : string) :
  utils.candidates_of o deps depFirst handleCycle R RD = Ok cs → k ∈ cs → k ∈ R.
Proof.
  unfold utils.candidates_of.
  destruct (utils.find_candidates o depFirst R RD) as [|c cs'] eqn:Hfind; simpl.
  - destruct handleCycle; simpl; [|done]. rewrite cycle_candidates_eq.
    intros [= <-] Hk. by apply cycle_candidates_elem in Hk as [? _].
  - intros [= <-] Hk. rewrite <- Hfind in Hk. by apply find_candidates_elem in Hk as [? _].
Qed.

Lemma step_invariant (depFirst handleCycle : bool) (st st' : utils.state) :
  loop_invariant keys deps st →
  utils.step o deps depFirst handleCycle st = Ok st' →
  loop_invariant keys deps st'.
Proof.
  intros Hinv (cs & key & Hcs & Hkey & ->)%step_inv.
  apply remove_key_invariant; [done|].
  apply first_sorted_ok in Hkey as [Hkey _].
  by eapply candidates_of_remains.
Qed.

Lemma step_total (depFirst : bool) (st : utils.state) :
  loop_invariant keys deps st → utils.remains st ≠ ∅ →
  ∃ key, utils.step o deps depFirst true st = Ok (utils.remove_key key st)
         ∧ key ∈ utils.remains st.
Proof.
  intros Hinv Hne. unfold utils.step.
  destruct (candidates_of_ok depFirst st Hinv Hne) as (cs & -> & Hcs & Hsub). simpl.
  destruct (first_sorted_total cs Hcs) as [key Hkey]. rewrite Hkey. simpl.
  exists key. split; [done|]. apply Hsub. by apply first_sorted_ok in Hkey as [? _].
Qed.

(** *** The whole loop *)

Lemma len_zero (R : KeySet) : Nat.eqb (utils.len R) 0 = true ↔ R = ∅.
Proof.
  unfold utils.len. rewrite Nat.eqb_eq. split.
  - intros Hs. by apply leibniz_equiv, size_empty_inv.
  - intros ->. apply size_empty.
Qed.

Lemma remove_key_size (st : utils.state) (key : string) :
  key ∈ utils.remains st →
  size (utils.remains (utils.remove_key key st)) = size (utils.remains st) - 1.
Proof.
  intros Hkey. simpl. unfold utils.Del.
  rewrite size_difference, size_singleton; [done|set_solver].
Qed.

(** A property kept by every iteration holds when the loop returns. *)
Lemma loop_invariant_rule (I : utils.state → Prop) (depFirst handleCycle : bool) :
  (∀ st st', I st → utils.remains st ≠ ∅ →
     utils.step o deps depFirst handleCycle st = Ok st' → I st') →
  ∀ fuel st l,
    I st → utils.loop o deps depFirst handleCycle fuel st = Ok l →
    ∃ st', I st' ∧ utils.remains st' = ∅ ∧ utils.sorted st' = l.
Proof.
  intros Hstep. induction fuel as [|fuel IH]; intros st l HI; simpl.
  - destruct (Nat.eqb (utils.len (utils.remains st)) 0) eqn:Hlen; [|done].
    intros [= <-]. exists st. by apply len_zero in Hlen.
  - destruct (Nat.eqb (utils.len (utils.remains st)) 0) eqn:Hlen.
    + intros [= <-]. exists st. by apply len_zero in Hlen.
    + destruct (utils.step o deps depFirst handleCycle st) as [st1| |] eqn:Hst;
        simpl; try done.
      apply IH. eapply Hstep; [done| |done].
      intros Hempty. apply len_zero in Hempty. congruence.
Qed.

Lemma loop_total (depFirst : bool) (fuel : nat) (st : utils.state) :
  loop_invariant keys deps st → size (utils.remains st) ≤ fuel →
  ∃ l, utils.loop o deps depFirst true fuel st = Ok l.
Proof.
  revert st. induction fuel as [|fuel IH]; intros st Hinv Hsize; simpl.
  - rewrite (proj2 (len_zero _)); [by eexists|].
    apply leibniz_equiv, size_empty_inv. lia.
  - destruct (Nat.eqb (utils.len (utils.remains st)) 0) eqn:Hlen; [by eexists|].
    assert (utils.remains st ≠ ∅) as Hne.
    { intros Hempty. apply len_zero in Hempty. congruence. }
    destruct (step_total depFirst st Hinv Hne) as (key & -> & Hkey). simpl.
    apply IH.
    + by apply remove_key_invariant.
    + rewrite remove_key_size by done. lia.
Qed.

End topological_order.

(** ** Positions in the output *)

Section precedes.

Lemma precedes_app_l (x y : string) (l l' : list string) :
  precedes x y l → precedes x y (l ++ l').
Proof.
  intros (i & j & Hlt & Hi & Hj). exists i, j.
  split; [done|]. split; by apply lookup_app_l_Some.
Qed.

Lemma precedes_snoc (x y : string) (l : list string) :
  x ∈ l → precedes x y (l ++ [y]).
Proof.
  intros (i & Hi)%list_elem_of_lookup. exists i, (length l).
  split; [by eapply lookup_lt_Some|].
  split; [by apply lookup_app_l_Some|]. by rewrite list_lookup_middle.
Qed.

Lemma precedes_asym (x y : string) (l : list string) :
  NoDup l → precedes x y l → ¬ precedes y x l.
Proof.
  intros Hnd (i & j & Hlt & Hi & Hj) (i' & j' & Hlt' & Hi' & Hj').
  pose proof (NoDup_lookup l i j' x Hnd Hi Hj').
  pose proof (NoDup_lookup l j i' y Hnd Hj Hi'). lia.
Qed.

End precedes.

(** ** TopologicalOrder as a whole *)

Section topological_order_result.

Context (o : MapOrder) (keys : KeySet) (deps : DepMap).

Lemma TopologicalOrder_total (depFirst : bool) :
  ∃ l, utils.TopologicalOrder o keys deps depFirst true = Ok l.
Proof.
  unfold utils.TopologicalOrder. apply (loop_total o keys).
  - apply initial_invariant.
  - done.
Qed.

Lemma TopologicalOrder_keys (depFirst handleCycle : bool) (l : list string) :
  utils.TopologicalOrder o keys deps depFirst handleCycle = Ok l →
  NoDup l ∧ ∀ k, k ∈ l ↔ k ∈ keys.
Proof.
  unfold utils.TopologicalOrder. intros Hl.
  apply (loop_invariant_rule o deps (loop_invariant keys deps)) in Hl
    as (st & Hinv & Hempty & <-).
  - split; [by destruct Hinv|]. intros k. rewrite (inv_sorted _ _ _ Hinv), Hempty.
    set_solver.
  - intros st st' Hinv _. by apply step_invariant.
  - apply initial_invariant.
Qed.

(** A key off every cycle is only taken as an ordinary candidate. *)
Lemma step_key_candidate (depFirst handleCycle : bool) (st : utils.state)
    (cs : list string) (key : string) :
  utils.candidates_of o deps depFirst handleCycle (utils.remains st) (utils.remainsDeps st)
    = Ok cs →
  key ∈ cs → ¬ depends deps key key →
  utils.candidate o depFirst (utils.remainsDeps st) key = true.
Proof.
  unfold utils.candidates_of.
  destruct (utils.find_candidates o depFirst (utils.remains st) (utils.remainsDeps st))
    as [|c cs'] eqn:Hfind; simpl.
  - destruct handleCycle; simpl; [|done]. rewrite cycle_candidates_eq.
    intros [= <-] Hk Hno. by apply cycle_candidates_elem in Hk as [_ ?].
  - intros [= <-] Hk _. rewrite <- Hfind in Hk. by apply find_candidates_elem in Hk as [_ ?].
Qed.

Lemma ordered_step (depFirst handleCycle : bool) (first last : string)
    (st st' : utils.state) :
  first ∈ keys →
  loop_invariant keys deps st →
  (utils.candidate o depFirst (utils.remainsDeps st) last = true →
   last ∈ utils.remains st → first ∉ utils.remains st) →
  ¬ depends deps last last →
  ordered first last st →
  utils.step o deps depFirst handleCycle st = Ok st' →
  ordered first last st'.
Proof.
  intros Hfirst Hinv Hcand Hacyclic Hord (cs & key & Hcs & Hkey & ->)%step_inv.
  apply first_sorted_ok in Hkey as [Hkey _].
  unfold ordered. simpl. intros [Hin | ->%list_elem_of_singleton]%elem_of_app.
  - by apply precedes_app_l, Hord.
  - apply precedes_snoc. apply (inv_sorted _ _ _ Hinv). split; [done|].
    apply Hcand.
    + by eapply step_key_candidate.
    + by eapply candidates_of_remains.
Qed.

Lemma TopologicalOrder_ordered (depFirst handleCycle : bool) (a b : string)
    (l : list string) :
  a ∈ keys → b ∈ keys → edge deps a b →
  utils.TopologicalOrder o keys deps depFirst handleCycle = Ok l →
  (depFirst = true → ¬ depends deps a a → precedes b a l) ∧
  (depFirst = false → ¬ depends deps b b → precedes a b l).
Proof.
  intros Ha Hb Hedge Hl. pose proof (TopologicalOrder_keys _ _ _ Hl) as [_ Hall].
  unfold utils.TopologicalOrder in Hl. split; intros -> Hacyclic.
  - apply (loop_invariant_rule o deps
             (λ st, loop_invariant keys deps st ∧ ordered b a st)) in Hl
      as (st & [Hinv Hord] & Hempty & <-).
    + apply Hord, (inv_sorted _ _ _ Hinv). set_solver.
    + intros st st' [Hinv Hord] _ Hstep. split; [by eapply step_invariant|].
      eapply ordered_step; try done.
      intros Hcand Hin Hbin. apply candidate_depFirst in Hcand.
      rewrite (invariant_index keys deps st a Hinv Hin) in Hcand.
      unfold edge in Hedge. set_solver.
    + split; [apply initial_invariant|]. intros Hin. by apply elem_of_nil in Hin.
  - apply (loop_invariant_rule o deps
             (λ st, loop_invariant keys deps st ∧ ordered a b st)) in Hl
      as (st & [Hinv Hord] & Hempty & <-).
    + apply Hord, (inv_sorted _ _ _ Hinv). set_solver.
    + intros st st' [Hinv Hord] _ Hstep. split; [by eapply step_invariant|].
      eapply ordered_step; try done.
      intros Hcand Hin Hain. rewrite candidate_depLast in Hcand.
      pose proof (inv_deps _ _ _ Hinv a) as Hlook.
      rewrite decide_True in Hlook by done.
      unfold edge, utils.index in Hedge.
      destruct (deps !! a) as [s|] eqn:Hd; simpl in *; [|set_solver].
      apply (Hcand a _ Hlook). set_solver.
    + split; [apply initial_invariant|]. intros Hin. by apply elem_of_nil in Hin.
Qed.

End topological_order_result.

(** ** The result does not depend on the iteration order *)

Section determinism.

Context (o1 o2 : MapOrder) (deps : DepMap).

Lemma self_dependent_order (k : string) :
  self_dependent o1 deps k = self_dependent o2 deps k.
Proof.
  apply eq_true_iff_eq. by rewrite !self_dependent_true.
Qed.

Lemma depended_on_order (RD : DepMap) (k : string) :
  utils.depended_on o1 RD k = utils.depended_on o2 RD k.
Proof.
  apply eq_true_iff_eq. by rewrite !depended_on_true.
Qed.

Lemma candidate_order (depFirst : bool) (RD : DepMap) (k : string) :
  utils.candidate o1 depFirst RD k = utils.candidate o2 depFirst RD k.
Proof.
  unfold utils.candidate. destruct depFirst; [done|]. by rewrite depended_on_order.
Qed.

Lemma filter_order (f g : string → bool) (l1 l2 : list string) :
  (∀ k, f k = g k) → l1 ≡ₚ l2 → List.filter f l1 ≡ₚ List.filter g l2.
Proof.
  intros Hfg Hp. rewrite (List.filter_ext f g Hfg).
  induction Hp as [|x l l' _ IH|x y l|l l' l'' _ IH1 _ IH2]; simpl.
  - done.
  - destruct (g x); by rewrite IH.
  - destruct (g x), (g y); try done. apply perm_swap.
  - by rewrite IH1.
Qed.

Lemma range_order {A : Type} (l : list A) : range o1 l ≡ₚ range o2 l.
Proof. by rewrite !range_perm. Qed.

Lemma find_candidates_order (depFirst : bool) (R : KeySet) (RD : DepMap) :
  utils.find_candidates o1 depFirst R RD ≡ₚ utils.find_candidates o2 depFirst R RD.
Proof.
  unfold utils.find_candidates. apply filter_order; [|apply range_order].
  intros k. apply candidate_order.
Qed.

Lemma first_sorted_order (cs1 cs2 : list string) :
  cs1 ≡ₚ cs2 → utils.first_sorted cs1 = utils.first_sorted cs2.
Proof. intros Hp. unfold utils.first_sorted. by rewrite (sort_Strings_proper cs1 cs2). Qed.

Lemma step_order (depFirst handleCycle : bool) (st : utils.state) :
  utils.step o1 deps depFirst handleCycle st = utils.step o2 deps depFirst handleCycle st.
Proof.
  unfold utils.step, utils.candidates_of.
  pose proof (find_candidates_order depFirst (utils.remains st) (utils.remainsDeps st)) as Hp.
  rewrite (Permutation_length Hp).
  destruct (Nat.eqb _ 0).
  - destruct handleCycle; simpl; [|done]. rewrite !cycle_candidates_eq. simpl.
    rewrite (first_sorted_order _ (List.filter (self_dependent o2 deps)
                                     (range o2 (elements (utils.remains st))))); [done|].
    apply filter_order; [apply self_dependent_order|apply range_order].
  - simpl. by rewrite (first_sorted_order _ _ Hp).
Qed.

Lemma loop_order (depFirst handleCycle : bool) (fuel : nat) (st : utils.state) :
  utils.loop o1 deps depFirst handleCycle fuel st
  = utils.loop o2 deps depFirst handleCycle fuel st.
Proof.
  revert st. induction fuel as [|fuel IH]; intros st; simpl; [done|].
  destruct (Nat.eqb _ 0); [done|]. rewrite step_order.
  destruct (utils.step o2 deps depFirst handleCycle st); simpl; [apply IH|done|done].
Qed.

Lemma TopologicalOrder_order (keys : KeySet) (depFirst handleCycle : bool) :
  utils.TopologicalOrder o1 keys deps depFirst handleCycle
  = utils.TopologicalOrder o2 keys deps depFirst handleCycle.
Proof.
  unfold utils.TopologicalOrder. rewrite loop_order. f_equal.
  unfold utils.initial. f_equal. apply map_eq. intros k.
  by rewrite !restrict_deps_lookup.
Qed.

End determinism.

(** ** The store *)

Section store_basics.

Lemma preserved_refl (h : Store) : preserved h h.
Proof. by intros l _. Qed.

Lemma preserved_dom (h h' : Store) : preserved h h' → dom h ⊆ dom h'.
Proof.
  intros Hp l Hl. specialize (Hp l Hl).
  apply elem_of_dom in Hl. apply elem_of_dom. by rewrite Hp.
Qed.

Lemma preserved_trans (h1 h2 h3 : Store) :
  preserved h1 h2 → preserved h2 h3 → preserved h1 h3.
Proof.
  intros H12 H23 l Hl. rewrite <- (H12 l Hl). apply H23.
  by apply (preserved_dom h1 h2).
Qed.

Lemma preserved_insert (h0 h : Store) (l : positive) (s : KeySet) :
  preserved h0 h → l ∉ dom h0 → preserved h0 (<[l := s]> h).
Proof.
  intros Hp Hl l' Hl'. rewrite lookup_insert_ne; [by apply Hp|].
  intros ->. done.
Qed.

Lemma content_preserved (h h' : Store) (r : KeySetRef) :
  preserved h h' → valid_ref h r → store.content h' r = store.content h r.
Proof.
  intros Hp Hr. destruct r as [l|]; simpl in *; [|done]. by rewrite (Hp l Hr).
Qed.

Lemma content_insert (h : Store) (l : positive) (s : KeySet) :
  store.content (<[l := s]> h) (Some l) = s.
Proof. simpl. by rewrite lookup_insert_eq. Qed.

Lemma insert_content (h : Store) (l : positive) :
  l ∈ dom h → <[l := store.content h (Some l)]> h = h.
Proof.
  intros [s Hs]%elem_of_dom. apply insert_id. simpl. by rewrite Hs.
Qed.

Lemma alloc_spec (h : Store) (s : KeySet) :
  ∃ l, store.alloc h s = (Some l, <[l := s]> h) ∧ l ∉ dom h.
Proof. exists (fresh (dom h)). split; [done|]. apply is_fresh. Qed.

Lemma local_ref_valid (h0 h : Store) (r : KeySetRef) : local_ref h0 h r → valid_ref h r.
Proof. by intros (l & -> & Hl & _). Qed.

Lemma local_ref_preserved (h0 h h' : Store) (r : KeySetRef) :
  preserved h h' → local_ref h0 h r → local_ref h0 h' r.
Proof.
  intros Hp (l & -> & Hl & Hl0). exists l. repeat split; [|done].
  by apply (preserved_dom h h').
Qed.

Lemma valid_deps_index (h : Store) (deps : DepRefs) (k : string) :
  valid_deps h deps → valid_ref h (store.index deps k).
Proof.
  intros Hv. unfold store.index. destruct (deps !! k) as [r|] eqn:Hk; simpl; [|done].
  by eapply Hv.
Qed.

Lemma index_content (h : Store) (deps : DepRefs) (k : string) :
  store.content h (store.index deps k) = utils.index (deps_content h deps) k.
Proof.
  unfold store.index, utils.index, deps_content. rewrite lookup_fmap.
  by destruct (deps !! k).
Qed.

Lemma deps_content_preserved (h h' : Store) (deps : DepRefs) :
  preserved h h' → valid_deps h deps → deps_content h' deps = deps_content h deps.
Proof.
  intros Hp Hv. apply map_eq. intros k. unfold deps_content. rewrite !lookup_fmap.
  destruct (deps !! k) as [r|] eqn:Hk; simpl; [|done].
  f_equal. apply content_preserved; [done|]. by eapply Hv.
Qed.

End store_basics.

(** ** DependsOn over the store computes what DependsOn over values does *)

Section store_depends_on.

Context (o : MapOrder) (h0 : Store) (deps : DepRefs) (k2 : string) (v : positive).
Context (Hdeps : valid_deps h0 deps) (Hv : v ∉ dom h0).

Lemma write_visited_insert (h : Store) (V : KeySet) (r : result (bool * KeySet)) :
  write_visited v (<[v := V]> h) r = write_visited v h r.
Proof. destruct r as [[b V']| |]; simpl; [|done|done]. by rewrite insert_insert_eq. Qed.

Lemma DependsOn_range_refines
    (recS : string → Store → result (bool * Store))
    (recP : string → KeySet → result (bool * KeySet)) (l : list string) :
  (∀ dep h, preserved h0 h → v ∈ dom h →
     recS dep h = write_visited v h (recP dep (store.content h (Some v)))) →
  ∀ h, preserved h0 h → v ∈ dom h →
    store.DependsOn_range recS l (Some v) h
    = write_visited v h (utils.DependsOn_range recP l (store.content h (Some v))).
Proof.
  intros Hrec. induction l as [|dep l IH]; intros h Hp Hin.
  - cbn [store.DependsOn_range utils.DependsOn_range write_visited].
    by rewrite insert_content.
  - cbn [store.DependsOn_range utils.DependsOn_range].
    change (store.Has h (Some v) dep) with (utils.Has (store.content h (Some v)) dep).
    destruct (utils.Has (store.content h (Some v)) dep); [by apply IH|].
    rewrite (Hrec dep h Hp Hin).
    destruct (recP dep (store.content h (Some v))) as [[[] V1]| |]; cbn; try done.
    rewrite IH.
    + by rewrite content_insert, write_visited_insert.
    + by apply preserved_insert.
    + apply elem_of_dom. rewrite lookup_insert_eq. by eexists.
Qed.

Lemma DependsOn_rec_refines (fuel : nat) (k1 : string) (h : Store) :
  preserved h0 h → v ∈ dom h →
  store.DependsOn_rec o fuel h k1 k2 deps (Some v)
  = write_visited v h
      (utils.DependsOn_rec o fuel k1 k2 (deps_content h0 deps) (store.content h (Some v))).
Proof.
  revert k1 h. induction fuel as [|fuel IH]; intros k1 h Hp Hin; [done|].
  cbn [store.DependsOn_rec utils.DependsOn_rec].
  assert (∀ h', preserved h0 h' →
            store.content h' (store.index deps k1)
            = utils.index (deps_content h0 deps) k1) as Hidx.
  { intros h' Hp'. rewrite <- index_content.
    apply content_preserved; [done|]. by apply valid_deps_index. }
  unfold store.Has at 1. rewrite (Hidx h Hp).
  change (bool_decide (k2 ∈ utils.index (deps_content h0 deps) k1))
    with (utils.Has (utils.index (deps_content h0 deps) k1) k2).
  destruct (utils.Has (utils.index (deps_content h0 deps) k1) k2).
  { unfold write_visited. by rewrite insert_content. }
  cbn [store.Add bind].
  set (h1 := <[v := store.content h (Some v) ∪ {[k1]}]> h).
  assert (preserved h0 h1) as Hp1 by by apply preserved_insert.
  rewrite (Hidx h1 Hp1).
  rewrite (DependsOn_range_refines _
             (λ dep V, utils.DependsOn_rec o fuel dep k2 (deps_content h0 deps) V)).
  - unfold h1. by rewrite content_insert, write_visited_insert.
  - intros dep h' Hp' Hin'. by apply IH.
  - done.
  - apply elem_of_dom. unfold h1. rewrite lookup_insert_eq. by eexists.
Qed.

End store_depends_on.

Lemma DependsOn_refines (o : MapOrder) (h0 h : Store) (deps : DepRefs) (k1 k2 : string) :
  valid_deps h0 deps → preserved h0 h →
  ∃ b V h',
    utils.DependsOn o k1 k2 (deps_content h0 deps) None = Ok (b, V)
    ∧ store.DependsOn o h k1 k2 deps None = Ok (b, h')
    ∧ preserved h h'.
Proof.
  intros Hdeps Hp.
  destruct (DependsOn_total o k1 k2 (deps_content h0 deps)) as (b & V & Hpure).
  destruct (alloc_spec h ∅) as (v & Halloc & Hfresh).
  assert (v ∉ dom h0) as Hv0.
  { intros Hin. by apply Hfresh, (preserved_dom h0 h). }
  exists b, V, (<[v := V]> h). split; [done|]. split.
  - unfold store.DependsOn, store.NewKeySet. rewrite Halloc.
    rewrite (DependsOn_rec_refines o h0 deps k2 v Hdeps Hv0).
    + rewrite content_insert.
      unfold utils.DependsOn, utils.NewKeySet, deps_content in Hpure |- *.
      rewrite map_size_fmap in Hpure. rewrite Hpure.
      unfold write_visited. by rewrite insert_insert_eq.
    + by apply preserved_insert.
    + apply elem_of_dom. rewrite lookup_insert_eq. by eexists.
  - apply preserved_insert; [apply preserved_refl|done].
Qed.

(** ** TopologicalOrder over the store *)

Section store_loop.

Context (o : MapOrder) (h0 : Store) (deps : DepRefs).
Context (Hdeps : valid_deps h0 deps).

(** *** The candidates *)

Lemma cycle_candidates_refines (l : list string) (h : Store) :
  preserved h0 h →
  ∃ h', store.cycle_candidates o deps l h
          = Ok (List.filter (self_dependent o (deps_content h0 deps)) l, h')
        ∧ preserved h h'.
Proof.
  revert h. induction l as [|k l IH]; intros h Hp.
  - exists h. split; [done|apply preserved_refl].
  - cbn [store.cycle_candidates].
    destruct (DependsOn_refines o h0 h deps k k Hdeps Hp) as (b & V & h1 & Hpure & -> & Hp1).
    cbn [bind]. destruct (IH h1) as (h2 & -> & Hp2); [by eapply preserved_trans|].
    cbn [bind]. exists h2. split; [|by eapply preserved_trans].
    assert (self_dependent o (deps_content h0 deps) k = b) as Hb.
    { unfold self_dependent. by rewrite Hpure. }
    cbn [List.filter]. rewrite Hb. by destruct b.
Qed.

Lemma store_depended_on (h : Store) (RD : DepRefs) (k : string) :
  store.depended_on o h RD k = utils.depended_on o (deps_content h RD) k.
Proof.
  apply eq_true_iff_eq. rewrite depended_on_true.
  unfold store.depended_on. rewrite existsb_exists. split.
  - intros ([k2 r] & Hin & Hhas).
    rewrite <- list_elem_of_In, range_elem_of, elem_of_map_to_list in Hin.
    exists k2, (store.content h r). split.
    + unfold deps_content. by rewrite lookup_fmap, Hin.
    + by apply bool_decide_eq_true in Hhas.
  - intros (k2 & s & Hlook & Hk). unfold deps_content in Hlook.
    rewrite lookup_fmap in Hlook.
    destruct (RD !! k2) as [r|] eqn:Hr; simpl in Hlook; [|done].
    injection Hlook as <-. exists (k2, r). split.
    + by rewrite <- list_elem_of_In, range_elem_of, elem_of_map_to_list.
    + by apply bool_decide_eq_true.
Qed.

Lemma store_candidate (depFirst : bool) (h : Store) (RD : DepRefs) (k : string) :
  store.candidate o depFirst h RD k = utils.candidate o depFirst (deps_content h RD) k.
Proof.
  unfold store.candidate, utils.candidate. destruct depFirst.
  - unfold store.len, utils.len. by rewrite index_content.
  - by rewrite store_depended_on.
Qed.

Lemma store_find_candidates (depFirst : bool) (h : Store) (r : KeySetRef) (RD : DepRefs) :
  store.find_candidates o depFirst h r RD
  = utils.find_candidates o depFirst (store.content h r) (deps_content h RD).
Proof.
  unfold store.find_candidates, utils.find_candidates.
  apply List.filter_ext. intros k. apply store_candidate.
Qed.

Lemma candidates_of_refines (depFirst handleCycle : bool) (h : Store)
    (r : KeySetRef) (RD : DepRefs) :
  preserved h0 h →
  match utils.candidates_of o (deps_content h0 deps) depFirst handleCycle
          (store.content h r) (deps_content h RD) with
  | Ok cs => ∃ h', store.candidates_of o deps depFirst handleCycle h r RD = Ok (cs, h')
                   ∧ preserved h h'
  | Panic msg => store.candidates_of o deps depFirst handleCycle h r RD = Panic msg
  | OutOfFuel => store.candidates_of o deps depFirst handleCycle h r RD = OutOfFuel
  end.
Proof.
  intros Hp. unfold utils.candidates_of, store.candidates_of.
  rewrite store_find_candidates. destruct (Nat.eqb _ 0).
  - destruct handleCycle; simpl; [|done]. rewrite cycle_candidates_eq.
    by apply cycle_candidates_refines.
  - exists h. split; [done|apply preserved_refl].
Qed.

(** *** Removing the selected key *)

Lemma Del_content (h : Store) (r r' : KeySetRef) (key : string) :
  store.content (store.Del h r key) r' =
    if decide (r' = r) then store.content h r' ∖ {[key]} else store.content h r'.
Proof.
  destruct r as [l|], r' as [l'|]; simpl; repeat case_decide; simplify_eq;
    rewrite ?lookup_insert_eq, ?lookup_insert_ne by congruence;
    simpl; try done; set_solver.
Qed.

Lemma Del_dom (h : Store) (r : KeySetRef) (key : string) :
  dom h ⊆ dom (store.Del h r key).
Proof. destruct r as [l|]; simpl; [|done]. rewrite dom_insert_L. set_solver. Qed.

Lemma Del_preserved (h : Store) (r : KeySetRef) (key : string) :
  preserved h0 h → local_ref h0 h r → preserved h0 (store.Del h r key).
Proof. intros Hp (l & -> & _ & Hl0). simpl. by apply preserved_insert. Qed.

Lemma del_fold_content (key : string) (l : list (string * KeySetRef)) (h : Store)
    (r : KeySetRef) :
  (store.content (foldl (store.del_body key) h l) r = store.content h r
   ∨ store.content (foldl (store.del_body key) h l) r = store.content h r ∖ {[key]})
  ∧ (r ∈ l.*2 →
     store.content (foldl (store.del_body key) h l) r = store.content h r ∖ {[key]}).
Proof.
  revert h. induction l as [|[k r1] l IH]; intros h; simpl.
  - split; [by left|]. by intros ?%elem_of_nil.
  - destruct (IH (store.Del h r1 key)) as [Hsome Hin].
    rewrite Del_content in Hsome, Hin.
    destruct (decide (r = r1)) as [->|Hne].
    + assert (∀ X : KeySet, X ∖ {[key]} ∖ {[key]} = X ∖ {[key]}) as Hidem by set_solver.
      rewrite Hidem in Hsome, Hin.
      assert (store.content (foldl (store.del_body key) (store.Del h r1 key) l) r1
              = store.content h r1 ∖ {[key]}) as Heq by by destruct Hsome.
      split; [by right|done].
    + split; [done|]. intros [?|?]%elem_of_cons; [done|by apply Hin].
Qed.

Lemma del_fold_preserved (key : string) (l : list (string * KeySetRef)) (h : Store) :
  preserved h0 h → (∀ r, r ∈ l.*2 → local_ref h0 h r) →
  preserved h0 (foldl (store.del_body key) h l)
  ∧ dom h ⊆ dom (foldl (store.del_body key) h l).
Proof.
  revert h. induction l as [|[k r1] l IH]; intros h Hp Hlocal; simpl; [done|].
  pose proof (Del_dom h r1 key) as Hdom.
  destruct (IH (store.Del h r1 key)) as [Hp' Hdom'].
  - apply Del_preserved; [done|]. apply Hlocal. simpl. by left.
  - intros r Hr. destruct (Hlocal r) as (l1 & -> & Hl1 & Hl0); [simpl; by right|].
    exists l1. repeat split; [|done]. by apply Hdom.
  - split; [done|]. set_solver.
Qed.

Lemma remove_key_refines (key : string) (h : Store) (st : store.state) :
  store_invariant h0 st → preserved (store.mem st) h →
  store_invariant h0 (store.remove_key o key h st)
  ∧ state_content (store.remove_key o key h st) = utils.remove_key key (state_content st).
Proof.
  intros [Hp0 Hrem HRD] Hp.
  assert (preserved h0 h) as Hp0h by by eapply preserved_trans.
  pose proof (local_ref_preserved h0 _ h _ Hp Hrem) as Hrem_h.
  set (h1 := store.Del h (store.remains st) key).
  set (l := range o (map_to_list (delete key (store.remainsDeps st)))).
  assert (∀ k r, delete key (store.remainsDeps st) !! k = Some r → r ∈ l.*2) as Hl.
  { intros k r Hlook. apply list_elem_of_fmap. exists (k, r). split; [done|].
    unfold l. by rewrite range_elem_of, elem_of_map_to_list. }
  assert (∀ r, r ∈ l.*2 → local_ref h0 h1 r) as Hlocal.
  { intros r ((k & r') & -> & Hin)%list_elem_of_fmap. simpl.
    unfold l in Hin. rewrite range_elem_of, elem_of_map_to_list in Hin.
    apply lookup_delete_Some in Hin as [_ Hin].
    destruct (local_ref_preserved h0 _ h _ Hp (HRD _ _ Hin)) as (l1 & -> & Hl1 & Hl0).
    exists l1. repeat split; [|done]. by apply Del_dom. }
  destruct (del_fold_preserved key l h1) as [Hp2 Hdom2]; [by apply Del_preserved|done|].
  assert (∀ r, local_ref h0 h r → local_ref h0 (foldl (store.del_body key) h1 l) r)
    as Hkeep.
  { intros r (l1 & -> & Hl1 & Hl0). exists l1. repeat split; [|done].
    by apply Hdom2, Del_dom. }
  split.
  - split; simpl; fold h1 l.
    + done.
    + by apply Hkeep.
    + intros k r Hlook. apply Hkeep. apply lookup_delete_Some in Hlook as [_ Hlook].
      by eapply local_ref_preserved, HRD.
  - assert (∀ r, local_ref h0 (store.mem st) r →
              store.content h1 r = store.content (store.mem st) r
              ∨ store.content h1 r = store.content (store.mem st) r ∖ {[key]}) as Hh1.
    { intros r Hr. unfold h1. rewrite Del_content.
      rewrite (content_preserved (store.mem st) h); [|done|by eapply local_ref_valid].
      destruct (decide _); [by right|by left]. }
    assert (∀ X : KeySet, X ∖ {[key]} ∖ {[key]} = X ∖ {[key]}) as Hidem by set_solver.
    unfold state_content, utils.remove_key. simpl. fold h1 l. f_equal.
    + assert (store.content h1 (store.remains st)
              = store.content (store.mem st) (store.remains st) ∖ {[key]}) as Hrem1.
      { unfold h1. rewrite Del_content, decide_True by done.
        rewrite (content_preserved (store.mem st) h); [done|done|by eapply local_ref_valid]. }
      unfold utils.Del.
      destruct (del_fold_content key l h1 (store.remains st)) as [[-> | ->] _];
        rewrite Hrem1; by rewrite ?Hidem.
    + apply map_eq. intros k. unfold deps_content. rewrite !lookup_fmap.
      destruct (decide (k = key)) as [->|Hne]; [by rewrite !lookup_delete_eq|].
      rewrite !lookup_delete_ne by done. rewrite lookup_fmap.
      destruct (store.remainsDeps st !! k) as [r|] eqn:Hr; simpl; [|done].
      f_equal. destruct (del_fold_content key l h1 r) as [_ ->].
      * unfold utils.Del. destruct (Hh1 r (HRD _ _ Hr)) as [-> | ->]; by rewrite ?Hidem.
      * apply (Hl k). by rewrite lookup_delete_ne.
Qed.

(** *** One iteration and the loop *)

Lemma step_refines (depFirst handleCycle : bool) (st : store.state) :
  store_invariant h0 st →
  match utils.step o (deps_content h0 deps) depFirst handleCycle (state_content st) with
  | Ok stP => ∃ st', store.step o deps depFirst handleCycle st = Ok st'
                     ∧ store_invariant h0 st' ∧ state_content st' = stP
  | Panic msg => store.step o deps depFirst handleCycle st = Panic msg
  | OutOfFuel => store.step o deps depFirst handleCycle st = OutOfFuel
  end.
Proof.
  intros Hinv. unfold utils.step, store.step. simpl.
  pose proof (candidates_of_refines depFirst handleCycle (store.mem st)
                (store.remains st) (store.remainsDeps st) (sinv_preserved _ _ Hinv)) as Hc.
  destruct (utils.candidates_of _ _ _ _ _ _) as [cs| |]; cbn [bind].
  - destruct Hc as (h' & -> & Hp'). cbn [bind].
    destruct (utils.first_sorted cs) as [key| |]; cbn [bind]; [|done|done].
    destruct (remove_key_refines key h' st Hinv Hp') as [Hinv' Heq].
    by eexists.
  - by rewrite Hc.
  - by rewrite Hc.
Qed.

Lemma loop_refines (depFirst handleCycle : bool) (fuel : nat) (st : store.state) :
  store_invariant h0 st →
  match utils.loop o (deps_content h0 deps) depFirst handleCycle fuel (state_content st) with
  | Ok l => ∃ h', store.loop o deps depFirst handleCycle fuel st = Ok (l, h')
                  ∧ preserved h0 h'
  | Panic msg => store.loop o deps depFirst handleCycle fuel st = Panic msg
  | OutOfFuel => store.loop o deps depFirst handleCycle fuel st = OutOfFuel
  end.
Proof.
  revert st. induction fuel as [|fuel IH]; intros st Hinv.
  - cbn [utils.loop store.loop].
    change (store.len (store.mem st) (store.remains st))
      with (utils.len (utils.remains (state_content st))).
    destruct (Nat.eqb _ 0); [|done]. eexists. split; [done|]. by destruct Hinv.
  - cbn [utils.loop store.loop].
    change (store.len (store.mem st) (store.remains st))
      with (utils.len (utils.remains (state_content st))).
    destruct (Nat.eqb _ 0).
    { eexists. split; [done|]. by destruct Hinv. }
    pose proof (step_refines depFirst handleCycle st Hinv) as Hs.
    destruct (utils.step _ _ _ _ _) as [stP| |]; cbn [bind].
    + destruct Hs as (st' & -> & Hinv' & <-). cbn [bind]. by apply IH.
    + by rewrite Hs.
    + by rewrite Hs.
Qed.

End store_loop.

(** *** The copies made before the loop *)

Section store_initial.

Context (o : MapOrder) (h0 : Store) (keys : KeySetRef) (deps : DepRefs).
Context (Hkeys : valid_ref h0 keys) (Hdeps : valid_deps h0 deps).

Lemma restrict_fold_refines (l : list (string * KeySetRef)) :
  (∀ k r, (k, r) ∈ l → valid_ref h0 r) → NoDup l.*1 →
  ∀ RD h, preserved h0 h → (∀ k r, RD !! k = Some r → local_ref h0 h r) →
    preserved h (foldl (store.restrict_deps_body keys) (RD, h) l).2
    ∧ (∀ k r, (foldl (store.restrict_deps_body keys) (RD, h) l).1 !! k = Some r →
              local_ref h0 (foldl (store.restrict_deps_body keys) (RD, h) l).2 r)
    ∧ ∀ k,
        store.content (foldl (store.restrict_deps_body keys) (RD, h) l).2
          <$> ((foldl (store.restrict_deps_body keys) (RD, h) l).1 !! k) =
        match (list_to_map l : DepRefs) !! k with
        | Some r => if decide (k ∈ store.content h0 keys)
                    then Some (store.content h0 r ∩ store.content h0 keys)
                    else store.content h <$> (RD !! k)
        | None => store.content h <$> (RD !! k)
        end.
Proof.
  induction l as [|[k' r'] l IH]; intros Hvalid Hnd RD h Hp Hlocal.
  - simpl. split; [apply preserved_refl|]. split; [done|]. intros k.
    by rewrite lookup_empty.
  - apply NoDup_cons in Hnd as [Hk' Hnd].
    assert (∀ k r, (k, r) ∈ l → valid_ref h0 r) as Hvalid'.
    { intros k r Hin. apply (Hvalid k). by right. }
    assert (valid_ref h0 r') as Hr' by (apply (Hvalid k'); by left).
    pose proof (not_elem_of_list_to_map_1 (M := gmap string) l k' Hk') as Hnone.
    cbn [foldl].
    destruct (decide (k' ∈ store.content h0 keys)) as [Hin|Hin].
    + destruct (alloc_spec h (store.content h r' ∩ store.content h keys))
        as (l1 & Halloc & Hfresh).
      set (h1 := <[l1 := store.content h r' ∩ store.content h keys]> h).
      assert (store.restrict_deps_body keys (RD, h) (k', r')
              = (<[k' := Some l1]> RD, h1)) as ->.
      { unfold store.restrict_deps_body, store.Has, store.Intersect.
        rewrite bool_decide_eq_true_2
          by by rewrite (content_preserved h0 h keys Hp Hkeys).
        cbn [negb]. by rewrite Halloc. }
      assert (preserved h h1) as Hp1.
      { apply preserved_insert; [apply preserved_refl|done]. }
      assert (l1 ∉ dom h0) as Hl10.
      { intros Hl. by apply Hfresh, (preserved_dom h0 h). }
      destruct (IH Hvalid' Hnd (<[k' := Some l1]> RD) h1) as (Hpres & Hloc & Hlook).
      * by eapply preserved_trans.
      * intros k r. rewrite lookup_insert. destruct (decide (k' = k)) as [->|Hne].
        -- intros [= <-]. exists l1. repeat split; [|done].
           unfold h1. rewrite dom_insert_L. set_solver.
        -- intros Hr. by eapply local_ref_preserved, Hlocal.
      * split; [by eapply preserved_trans|]. split; [done|].
        intros k. rewrite Hlook. cbn [list_to_map foldr uncurry fst snd].
        destruct (decide (k = k')) as [->|Hne].
        -- rewrite Hnone, !lookup_insert_eq. rewrite decide_True by done. simpl.
           unfold h1. rewrite lookup_insert_eq. simpl.
           by rewrite (content_preserved h0 h r' Hp Hr'),
                      (content_preserved h0 h keys Hp Hkeys).
        -- rewrite !lookup_insert_ne by done.
           assert (store.content h1 <$> RD !! k = store.content h <$> RD !! k) as ->; [|done].
           destruct (RD !! k) as [r|] eqn:Hr; simpl; [|done]. f_equal.
           apply content_preserved; [done|]. by eapply local_ref_valid, Hlocal.
    + assert (store.restrict_deps_body keys (RD, h) (k', r') = (RD, h)) as ->.
      { unfold store.restrict_deps_body, store.Has.
        by rewrite bool_decide_eq_false_2
          by by rewrite (content_preserved h0 h keys Hp Hkeys). }
      destruct (IH Hvalid' Hnd RD h Hp Hlocal) as (Hpres & Hloc & Hlook).
      split; [done|]. split; [done|].
      intros k. rewrite Hlook. cbn [list_to_map foldr uncurry fst snd].
      destruct (decide (k = k')) as [->|Hne].
      * rewrite Hnone, lookup_insert_eq. by rewrite decide_False.
      * by rewrite lookup_insert_ne.
Qed.

Lemma initial_refines :
  store_invariant h0 (store.initial o h0 keys deps)
  ∧ state_content (store.initial o h0 keys deps)
    = utils.initial o (store.content h0 keys) (deps_content h0 deps).
Proof.
  unfold store.initial, store.DeepCopy.
  destruct (alloc_spec h0 (store.content h0 keys)) as (l0 & -> & Hfresh).
  set (h1 := <[l0 := store.content h0 keys]> h0).
  assert (preserved h0 h1) as Hp1.
  { apply preserved_insert; [apply preserved_refl|done]. }
  unfold store.restrict_deps.
  destruct (restrict_fold_refines (range o (map_to_list deps))) with (RD := (∅ : DepRefs)) (h := h1)
    as (Hp' & Hloc & Hlook).
  { intros k r Hin. rewrite range_elem_of, elem_of_map_to_list in Hin. by eapply Hdeps. }
  { rewrite (range_perm o). apply NoDup_fst_map_to_list. }
  { done. }
  { intros k r. by rewrite lookup_empty. }
  destruct (foldl (store.restrict_deps_body keys) (∅, h1) (range o (map_to_list deps)))
    as [RD' h'] eqn:Hfold.
  simpl in Hp', Hloc, Hlook.
  assert (l0 ∈ dom h1) as Hl0.
  { unfold h1. rewrite dom_insert_L. set_solver. }
  split.
  - split; simpl.
    + by eapply preserved_trans.
    + exists l0. repeat split; [|done]. by apply (preserved_dom h1 h').
    + done.
  - unfold state_content, utils.initial, utils.DeepCopy. simpl. f_equal.
    + rewrite (Hp' l0 Hl0). unfold h1. by rewrite lookup_insert_eq.
    + apply map_eq. intros k. unfold deps_content at 1.
      rewrite lookup_fmap, Hlook, restrict_deps_lookup.
      assert ((list_to_map (range o (map_to_list deps)) : DepRefs) = deps) as ->.
      { rewrite <- (list_to_map_to_list deps) at 2.
        apply list_to_map_proper; [|apply (range_perm o)].
        rewrite (range_perm o). apply NoDup_fst_map_to_list. }
      unfold deps_content. rewrite lookup_fmap, lookup_empty.
      destruct (deps !! k); destruct (decide _); done.
Qed.

End store_initial.

(** *** The whole call *)

Lemma store_TopologicalOrder_refines (o : MapOrder) (h : Store) (keys : KeySetRef)
    (deps : DepRefs) (depFirst handleCycle : bool) :
  valid_ref h keys → valid_deps h deps →
  match utils.TopologicalOrder o (store.content h keys) (deps_content h deps)
          depFirst handleCycle with
  | Ok l => ∃ h', store.TopologicalOrder o h keys deps depFirst handleCycle = Ok (l, h')
                  ∧ preserved h h'
  | Panic msg => store.TopologicalOrder o h keys deps depFirst handleCycle = Panic msg
  | OutOfFuel => store.TopologicalOrder o h keys deps depFirst handleCycle = OutOfFuel
  end.
Proof.
  intros Hkeys Hdeps. unfold utils.TopologicalOrder, store.TopologicalOrder.
  destruct (initial_refines o h keys deps Hkeys Hdeps) as [Hinv <-].
  by apply loop_refines.
Qed.

(** ** The bound of isNodeBeingRemoved

    The loop of [isNodeBeingRemoved] walks from a node to its first
    source.  When the walk is longer than the graph has nodes it has come
    back to a node it left, and goes round for ever: the bound of the
    model is reached only where the Go loop does not end. *)

Section removal_bound.

Import kvscheduler.

Context (g : Graph).

Lemma find_base_OutOfFuel (fuel : nat) (n : Node) :
  find_base fuel g n = OutOfFuel ↔ is_Some (turns g fuel n).
Proof.
  revert n. induction fuel as [|fuel IH]; intros n; simpl.
  - split; [by eexists|done].
  - unfold next_base. destruct (GetSources g n DerivesRelation) as [|b rest].
    { split; [done|]. by intros [? [=]]. }
    destruct (isNodePending b); [|apply IH].
    split; [done|]. by intros [? [=]].
Qed.

Lemma turns_add (i j : nat) (n : Node) :
  turns g (i + j) n = turns g i n ≫= turns g j.
Proof.
  revert n. induction i as [|i IH]; intros n; simpl; [done|].
  destruct (next_base g n) as [b|]; [apply IH|done].
Qed.

Lemma turns_prefix (i j : nat) (n : Node) :
  i ≤ j → is_Some (turns g j n) → is_Some (turns g i n).
Proof.
  intros Hle. replace j with (i + (j - i)) by lia. rewrite turns_add.
  destruct (turns g i n); [by eexists|]. by intros [? [=]].
Qed.

Lemma next_base_node (n b : Node) : next_base g n = Some b → g !! GetKey b = Some b.2.
Proof.
  unfold next_base, GetSources.
  destruct (omap (GetNode g) (sources n.2 DerivesRelation)) as [|b0 rest] eqn:Hs; [done|].
  destruct (isNodePending b0); [done|]. intros [= <-].
  assert (b0 ∈ omap (GetNode g) (sources n.2 DerivesRelation)) as Hin.
  { rewrite Hs. by left. }
  apply list_elem_of_omap in Hin as (k & _ & Hk).
  unfold GetNode in Hk. destruct (g !! k) as [d|] eqn:Hd; simpl in Hk; [|done].
  by injection Hk as <-.
Qed.

Lemma turns_node (i : nat) (n b : Node) :
  turns g (S i) n = Some b → g !! GetKey b = Some b.2.
Proof.
  revert n. induction i as [|i IH]; intros n; simpl.
  - destruct (next_base g n) as [b0|] eqn:Hn; [|done]. intros [= <-].
    by eapply next_base_node.
  - destruct (next_base g n) as [b0|]; [|done]. apply IH.
Qed.

(** More keys in a list than in the set they come from: one occurs twice. *)
Lemma pigeonhole_keys (l : list string) :
  ∀ X : KeySet, (∀ x, x ∈ l → x ∈ X) → size X < length l →
    ∃ i j x, i < j ∧ l !! i = Some x ∧ l !! j = Some x.
Proof.
  induction l as [|x l IH]; intros X Hsub Hsize; simpl in Hsize; [lia|].
  destruct (decide (x ∈ l)) as [Hin|Hnotin].
  - apply list_elem_of_lookup in Hin as [j Hj]. exists 0, (S j), x.
    repeat split; [lia|done].
  - destruct (IH (X ∖ {[x]})) as (i & j & y & Hlt & Hi & Hj).
    + intros y Hy. assert (y ≠ x) by (intros ->; done).
      assert (y ∈ X) by (apply Hsub; by right). set_solver.
    + assert (x ∈ X) as HxX by (apply Hsub; by left).
      rewrite size_difference, size_singleton by set_solver.
      assert (size X ≠ 0); [|lia].
      intros Hz. apply size_empty_inv in Hz. set_solver.
    + exists (S i), (S j), y. repeat split; [lia|done|done].
Qed.

Lemma turns_repeat (n : Node) :
  is_Some (turns g (S (size g)) n) →
  ∃ i j b, i < j ∧ turns g i n = Some b ∧ turns g j n = Some b.
Proof.
  intros Hlong.
  assert (∀ i, i ≤ size g → ∃ b, turns g (S i) n = Some b ∧ g !! GetKey b = Some b.2)
    as Hnodes.
  { intros i Hi. destruct (turns_prefix (S i) (S (size g)) n) as [b Hb]; [lia|done|].
    exists b. split; [done|]. by eapply turns_node. }
  set (key_at := λ i, from_option GetKey "" (turns g (S i) n)).
  destruct (pigeonhole_keys (key_at <$> seq 0 (S (size g))) (dom g))
    as (i & j & k & Hlt & Hi & Hj).
  - intros k (i & -> & Hi)%list_elem_of_fmap. apply elem_of_seq in Hi.
    destruct (Hnodes i) as (b & Hb & Hnode); [lia|].
    unfold key_at. rewrite Hb. simpl. apply elem_of_dom. by eexists.
  - rewrite length_fmap, length_seq, size_dom. lia.
  - apply list_lookup_fmap_Some in Hi as (i' & -> & Hi').
    apply list_lookup_fmap_Some in Hj as (j' & Hkey & Hj').
    apply lookup_seq in Hi' as [-> Hi'], Hj' as [-> Hj']. cbn [Nat.add] in *.
    destruct (Hnodes i) as (bi & Hbi & Hnodei); [lia|].
    destruct (Hnodes j) as (bj & Hbj & Hnodej); [lia|].
    unfold key_at in Hkey. rewrite Hbi, Hbj in Hkey. cbn [from_option] in Hkey.
    exists (S i), (S j), bi. split; [lia|]. split; [done|].
    rewrite Hbj. f_equal. destruct bi as [ki di], bj as [kj dj].
    unfold GetKey in *. cbn [fst snd] in *. subst kj. congruence.
Qed.

Lemma turns_forever (n : Node) :
  is_Some (turns g (S (size g)) n) → ∀ k, is_Some (turns g k n).
Proof.
  intros (i & j & b & Hlt & Hi & Hj)%turns_repeat k.
  induction (lt_wf k) as [k _ IH].
  destruct (decide (k ≤ j)) as [Hle|Hgt].
  - apply (turns_prefix k j); [done|by eexists].
  - replace k with (j + (k - j)) by lia. rewrite turns_add, Hj. simpl.
    assert (is_Some (turns g (i + (k - j)) n)) as Hsome by (apply IH; lia).
    by rewrite turns_add, Hi in Hsome.
Qed.

(** Where the model of [isNodeBeingRemoved] gives up, no bound would have
    been enough. *)
Lemma isNodeBeingRemoved_OutOfFuel (n : Node) :
  isNodeBeingRemoved g n = OutOfFuel → ∀ fuel, find_base fuel g n = OutOfFuel.
Proof.
  unfold isNodeBeingRemoved. intros Hout fuel.
  destruct (isNodeDerived n); [|done].
  destruct (find_base (S (size g)) g n) as [[|base]| |] eqn:Hfind; simpl in Hout; try done.
  - by destruct (isNodeDerived base).
  - apply find_base_OutOfFuel. apply turns_forever. by apply find_base_OutOfFuel.
Qed.

Lemma isNodeBeingRemoved_no_panic (n : Node) (msg : string) :
  isNodeBeingRemoved g n ≠ Panic msg.
Proof.
  unfold isNodeBeingRemoved. destruct (isNodeDerived n); [|done].
  assert (∀ fuel b, find_base fuel g b ≠ Panic msg) as Hfind.
  { induction fuel as [|fuel IH]; intros b; simpl; [done|].
    destruct (GetSources g b DerivesRelation) as [|b0 rest]; [done|].
    destruct (isNodePending b0); [done|apply IH]. }
  destruct (find_base (S (size g)) g n) as [[|base]| |] eqn:Hf; simpl; try done.
  - by destruct (isNodeDerived base).
  - intros [= ->]. by eapply Hfind.
Qed.

End removal_bound.

(** ** isNodeReady *)

Section node_ready.

Import kvscheduler.

Context (o : MapOrder) (g : Graph) (src : Node).

Lemma GetNode_Some (k : string) (n : Node) :
  GetNode g k = Some n ↔ GetKey n = k ∧ g !! k = Some n.2.
Proof.
  unfold GetNode, GetKey. destruct n as [k' d]. simpl.
  destruct (g !! k) as [d'|]; simpl; split; try naive_solver.
Qed.

Lemma GetTargets_graph (cur : Node) (group : string * list Node) (t : Node) :
  group ∈ GetTargets g cur DependencyRelation → t ∈ group.2 → node_of g t.
Proof.
  unfold GetTargets. intros (grp & -> & _)%list_elem_of_fmap. simpl.
  intros (k & _ & Hk)%list_elem_of_omap. apply GetNode_Some in Hk as [<- Hk]. done.
Qed.

(** *** The loop over the targets of a dependency *)

Lemma leads_back_step (rec : Node → KeySet → result (bool * KeySet))
    (V : KeySet) (t : Node) :
  (GetKey t ∉ V → ∃ b, rec t V = Ok (b, V)) →
  (if String.eqb (GetKey t) (GetKey src) then Ok (true, V)
   else if negb (bool_decide (GetKey t ∈ V)) then rec t V
   else Ok (false, V))
  = Ok (leads_back rec src V t, V).
Proof.
  intros Hrec. unfold leads_back.
  destruct (String.eqb (GetKey t) (GetKey src)); [done|].
  destruct (bool_decide (GetKey t ∈ V)) eqn:Hvis; cbn [negb andb orb]; [done|].
  apply bool_decide_eq_false in Hvis. by destruct (Hrec Hvis) as [b ->].
Qed.

Lemma targets_loop_spec (rec : Node → KeySet → result (bool * KeySet))
    (cur : Node) (V : KeySet) (ts : list Node) :
  (∀ t, t ∈ ts → ∃ b, isNodeBeingRemoved g t = Ok b) →
  (∀ t, t ∈ ts → GetKey t ∉ V → ∃ b, rec t V = Ok (b, V)) →
  ∀ sat0 cyc0, ∃ sat cyc,
    targets_loop g rec src cur ts sat0 cyc0 V = Ok (sat, cyc, V)
    ∧ sat = sat0 || existsb (λ t, stays g t
                                  && (negb (isNodePending t) || leads_back rec src V t)) ts
    ∧ (GetKey cur ≠ GetKey src →
       cyc = cyc0 || existsb (λ t, stays g t && leads_back rec src V t) ts).
Proof.
  induction ts as [|t ts IH]; intros Hrem Hrec sat0 cyc0.
  - exists sat0, cyc0. simpl. by rewrite !orb_false_r.
  - destruct (Hrem t) as [removed Hremoved]; [by left|].
    assert (∀ t', t' ∈ ts → ∃ b, isNodeBeingRemoved g t' = Ok b) as Hrem'.
    { intros t' Ht'. apply Hrem. by right. }
    assert (∀ t', t' ∈ ts → GetKey t' ∉ V → ∃ b, rec t' V = Ok (b, V)) as Hrec'.
    { intros t' Ht'. apply Hrec. by right. }
    assert (stays g t = negb removed) as Hstays.
    { unfold stays. rewrite Hremoved. by destruct removed. }
    cbn [targets_loop existsb]. rewrite Hremoved, Hstays. cbn [bind].
    destruct removed; cbn [negb andb orb]; [by apply IH|].
    destruct (isNodePending t) eqn:Hpend; cbn [negb andb orb].
    + (* a pending target only counts when it leads back *)
      rewrite leads_back_step by (apply Hrec; by left). cbn [bind].
      destruct (leads_back rec src V t); cbn [orb]; [|by apply IH].
      exists true, true. by rewrite !orb_true_r.
    + destruct (String.eqb (GetKey cur) (GetKey src)) eqn:Hcur.
      { (* break: for [src] one realized target is enough *)
        exists true, cyc0. split; [done|]. split; [by rewrite orb_true_r|].
        intros Hne. apply String.eqb_neq in Hne. congruence. }
      rewrite leads_back_step by (apply Hrec; by left). cbn [bind].
      destruct (leads_back rec src V t); cbn [orb].
      { exists true, true. by rewrite !orb_true_r. }
      destruct (IH Hrem' Hrec' true cyc0) as (sat & cyc & -> & Hsat & Hcyc).
      exists sat, cyc. split; [done|]. rewrite Hsat. by rewrite !orb_true_r.
Qed.

(** *** The loop over the dependencies *)

Lemma dependencies_loop_spec (rec : Node → KeySet → result (bool * KeySet))
    (cur : Node) (V : KeySet) (groups : list (string * list Node)) :
  (∀ group t, group ∈ groups → t ∈ group.2 → ∃ b, isNodeBeingRemoved g t = Ok b) →
  (∀ group t, group ∈ groups → t ∈ group.2 → GetKey t ∉ V →
     ∃ b, rec t V = Ok (b, V)) →
  ∀ cyc0, ∃ allsat cyc,
    dependencies_loop g rec src cur groups cyc0 V = Ok (allsat, cyc, V)
    ∧ allsat = forallb (satisfied_by g rec src V) groups
    ∧ (GetKey cur ≠ GetKey src → allsat = true →
       cyc = cyc0 || existsb (cycle_through g rec src V) groups).
Proof.
  induction groups as [|[label ts] groups IH]; intros Hrem Hrec cyc0.
  - exists true, cyc0. simpl. by rewrite orb_false_r.
  - cbn [dependencies_loop forallb existsb].
    destruct (targets_loop_spec rec cur V ts) with (sat0 := false) (cyc0 := cyc0)
      as (sat & cyc1 & -> & Hsat & Hcyc1).
    { intros t Ht. apply (Hrem (label, ts)); [by left|done]. }
    { intros t Ht. apply (Hrec (label, ts)); [by left|done]. }
    cbn [bind]. cbn [orb] in Hsat.
    change (satisfied_by g rec src V (label, ts)) with
      (existsb (λ t, stays g t && (negb (isNodePending t) || leads_back rec src V t)) ts).
    change (cycle_through g rec src V (label, ts)) with
      (existsb (λ t, stays g t && leads_back rec src V t) ts).
    rewrite <- Hsat. destruct sat; cbn [negb andb].
    + destruct (IH) with (cyc0 := cyc1) as (allsat & cyc & -> & Hall & Hcyc).
      { intros group t Hgroup. apply Hrem. by right. }
      { intros group t Hgroup. apply Hrec. by right. }
      exists allsat, cyc. split; [done|]. split; [done|].
      intros Hne Htrue. rewrite (Hcyc Hne Htrue), (Hcyc1 Hne). by rewrite orb_assoc.
    + exists false, cyc1. split; [done|]. split; [done|]. by intros _ [=].
Qed.

(** *** isNodeReadyRec *)


Lemma range_targets (cur : Node) (group : string * list Node) (t : Node) :
  group ∈ range o (GetTargets g cur DependencyRelation) → t ∈ group.2 →
  dependency_edge g cur t ∧ node_of g t.
Proof.
  rewrite range_elem_of. intros Hgroup Ht. split.
  - by exists group.
  - by eapply GetTargets_graph.
Qed.

(** One call, given that the nested calls return and leave [visited] as
    they found it. *)
Lemma isNodeReadyRec_step (fuel : nat) (cur : Node) (V : KeySet) :
  removal_decided g → GetKey cur ∉ V →
  (∀ t, node_of g t → GetKey t ∉ add V (GetKey cur) →
     ∃ b, isNodeReadyRec o fuel g src t (add V (GetKey cur))
          = Ok (b, add V (GetKey cur))) →
  isNodeReadyRec o (S fuel) g src cur V =
    Ok (forallb (satisfied_by g (isNodeReadyRec o fuel g src) src (add V (GetKey cur)))
          (range o (GetTargets g cur DependencyRelation))
        && (String.eqb (GetKey cur) (GetKey src)
            || existsb (cycle_through g (isNodeReadyRec o fuel g src) src
                          (add V (GetKey cur)))
                 (range o (GetTargets g cur DependencyRelation))),
        V).
Proof.
  intros Hrem Hcur Hrec. cbn [isNodeReadyRec].
  destruct (dependencies_loop_spec (isNodeReadyRec o fuel g src) cur
              (add V (GetKey cur)) (range o (GetTargets g cur DependencyRelation)))
    with (cyc0 := false) as (allsat & cyc & -> & Hall & Hcyc).
  { intros group [k d] Hgroup Ht.
    destruct (range_targets cur group (k, d) Hgroup Ht) as [_ Hnode]. by apply Hrem. }
  { intros group t Hgroup Ht Hvis. apply Hrec; [|done]. by eapply range_targets. }
  cbn [bind]. rewrite <- Hall.
  assert (add V (GetKey cur) ∖ {[GetKey cur]} = V) as -> by (unfold add; set_solver).
  f_equal. f_equal. destruct allsat; cbn [negb andb]; [|done].
  destruct (String.eqb (GetKey cur) (GetKey src)) eqn:Heq; [done|].
  apply String.eqb_neq in Heq. by rewrite (Hcyc Heq eq_refl).
Qed.

Lemma unvisited_add (cur : Node) (V : KeySet) :
  node_of g cur → GetKey cur ∉ V →
  size (dom g ∖ add V (GetKey cur)) < size (dom g ∖ V).
Proof.
  intros Hnode Hcur. apply subset_size. unfold add.
  assert (GetKey cur ∈ dom g) as Hdom by (apply elem_of_dom; by eexists).
  split; [set_solver|]. intros Hsub. specialize (Hsub (GetKey cur)). set_solver.
Qed.

Lemma isNodeReadyRec_total (fuel : nat) (cur : Node) (V : KeySet) :
  removal_decided g → node_of g cur → GetKey cur ∉ V →
  size (dom g ∖ V) ≤ fuel →
  ∃ b, isNodeReadyRec o fuel g src cur V = Ok (b, V).
Proof.
  intros Hrem. revert cur V. induction fuel as [|fuel IH]; intros cur V Hnode Hcur Hsize.
  - pose proof (unvisited_add cur V Hnode Hcur). lia.
  - rewrite isNodeReadyRec_step; [by eexists|done|done|].
    intros t Ht Hvis. apply IH; [done|done|].
    pose proof (unvisited_add cur V Hnode Hcur). lia.
Qed.

Lemma isNodeReadyRec_unfold (fuel : nat) (cur : Node) (V : KeySet) :
  removal_decided g → node_of g cur → GetKey cur ∉ V →
  size (dom g ∖ V) ≤ S fuel →
  isNodeReadyRec o (S fuel) g src cur V =
    Ok (forallb (satisfied_by g (isNodeReadyRec o fuel g src) src (add V (GetKey cur)))
          (range o (GetTargets g cur DependencyRelation))
        && (String.eqb (GetKey cur) (GetKey src)
            || existsb (cycle_through g (isNodeReadyRec o fuel g src) src
                          (add V (GetKey cur)))
                 (range o (GetTargets g cur DependencyRelation))),
        V).
Proof.
  intros Hrem Hnode Hcur Hsize. apply isNodeReadyRec_step; [done|done|].
  intros t Ht Hvis. apply isNodeReadyRec_total; [done|done|done|].
  pose proof (unvisited_add cur V Hnode Hcur). lia.
Qed.




End node_ready.

(** ** Runs of TopologicalOrder *)

Example run_chain_depFirst :
  utils.TopologicalOrder order_id keys_chain deps_chain true true = Ok ["b"; "a"].
Proof. vm_compute. reflexivity. Qed.

Example run_chain_depLast :
  utils.TopologicalOrder order_rev keys_chain deps_chain false true = Ok ["a"; "b"].
Proof. vm_compute. reflexivity. Qed.

Example run_two_cycles_depFirst :
  utils.TopologicalOrder order_id keys_two_cycles deps_two_cycles true true
  = Ok ["a"; "b"; "c"; "d"].
Proof. vm_compute. reflexivity. Qed.

Example run_two_cycles_depLast :
  utils.TopologicalOrder order_rev keys_two_cycles deps_two_cycles false true
  = Ok ["a"; "b"; "c"; "d"].
Proof. vm_compute. reflexivity. Qed.

Example run_cycle_not_handled :
  utils.TopologicalOrder order_id keys_two_cycles deps_two_cycles true false
  = Panic "Dependency cycle!".
Proof. vm_compute. reflexivity. Qed.

(** ** The properties of TopologicalOrder *)

(** C3: for every key set and every dependency map, cyclic ones included,
    [TopologicalOrder] with [handleCycle = true] returns (it neither
    panics nor exceeds [len(keys)] iterations), and each input key occurs
    in the returned list exactly once.  No iteration fails: in every state
    of the loop with keys remaining the candidates, those of the cycle
    fallback included, are not empty, and the iteration takes one of the
    remaining keys. *)
Theorem TopologicalOrder_returns_each_key_once
    (o : MapOrder) (keys : KeySet) (deps : DepMap) (depFirst : bool) :
  (∃ l, utils.TopologicalOrder o keys deps depFirst true = Ok l
        ∧ NoDup l ∧ (∀ k, k ∈ l ↔ k ∈ keys) ∧ length l = size keys)
  ∧ ∀ st, loop_invariant keys deps st → utils.remains st ≠ ∅ →
      ∃ cs key,
        utils.candidates_of o deps depFirst true (utils.remains st) (utils.remainsDeps st)
          = Ok cs
        ∧ cs ≠ []
        ∧ utils.step o deps depFirst true st = Ok (utils.remove_key key st)
        ∧ key ∈ utils.remains st
        ∧ loop_invariant keys deps (utils.remove_key key st).
Proof.
  split.
  - destruct (TopologicalOrder_total o keys deps depFirst) as [l Hl].
    destruct (TopologicalOrder_keys o keys deps depFirst true l Hl) as [Hnd Hall].
    exists l. repeat split; try done; try apply Hall.
    unfold size, set_size. simpl. apply Permutation_length.
    apply NoDup_Permutation; [done|apply NoDup_elements|].
    intros k. by rewrite Hall, elem_of_elements.
  - intros st Hinv Hne.
    destruct (candidates_of_ok o keys deps depFirst st Hinv Hne) as (cs & Hcs & Hnil & _).
    destruct (step_total o keys deps depFirst st Hinv Hne) as (key & Hstep & Hkey).
    exists cs, key. split; [done|]. split; [done|]. split; [done|]. split; [done|].
    by apply remove_key_invariant.
Qed.

Lemma TopologicalOrder_returns_each_key_once_witness :
  (∃ l, utils.TopologicalOrder order_id keys_two_cycles deps_two_cycles true true = Ok l
        ∧ NoDup l ∧ (∀ k, k ∈ l ↔ k ∈ keys_two_cycles)
        ∧ length l = size keys_two_cycles)
  ∧ ∃ cs key,
      utils.candidates_of order_id deps_two_cycles true true
        (utils.remains state_two_cycles) (utils.remainsDeps state_two_cycles) = Ok cs
      ∧ cs ≠ []
      ∧ utils.step order_id deps_two_cycles true true state_two_cycles
        = Ok (utils.remove_key key state_two_cycles)
      ∧ key ∈ utils.remains state_two_cycles
      ∧ loop_invariant keys_two_cycles deps_two_cycles
          (utils.remove_key key state_two_cycles).
Proof.
  destruct (TopologicalOrder_returns_each_key_once order_id keys_two_cycles
              deps_two_cycles true) as [Hrun Hstep].
  split; [exact Hrun|]. apply Hstep.
  - apply initial_invariant.
  - intros Hempty. vm_compute in Hempty. discriminate Hempty.
Defined.

(** C5: when an iteration with [handleCycle = true] finds no ordinary
    candidate, the key it selects makes [DependsOn(key, key, deps, nil)]
    true, and it is reachable from itself by a non-empty path of [deps];
    in a state of the loop with keys remaining such an iteration does
    select a key. *)
Theorem cycle_fallback_selects_self_dependent
    (o : MapOrder) (keys : KeySet) (deps : DepMap) (depFirst : bool) (st : utils.state) :
  utils.find_candidates o depFirst (utils.remains st) (utils.remainsDeps st) = [] →
  (∀ st', utils.step o deps depFirst true st = Ok st' →
     ∃ key V,
       st' = utils.remove_key key st
       ∧ utils.DependsOn o key key deps None = Ok (true, V)
       ∧ depends deps key key)
  ∧ (loop_invariant keys deps st → utils.remains st ≠ ∅ →
     ∃ st', utils.step o deps depFirst true st = Ok st').
Proof.
  intros Hnone. split.
  - intros st' (cs & key & Hcs & Hkey & ->)%step_inv.
    unfold utils.candidates_of in Hcs. rewrite Hnone in Hcs. simpl in Hcs.
    rewrite cycle_candidates_eq in Hcs. injection Hcs as <-.
    apply first_sorted_ok in Hkey as [Hkey _].
    apply cycle_candidates_elem in Hkey as [_ Hcycle].
    pose proof Hcycle as [V HV]%(DependsOn_true_iff o).
    by exists key, V.
  - intros Hinv Hne.
    destruct (step_total o keys deps depFirst st Hinv Hne) as (key & Hstep & _).
    by eexists.
Qed.

Lemma cycle_fallback_selects_self_dependent_witness :
  (∃ key V,
     utils.remove_key "a" state_two_cycles = utils.remove_key key state_two_cycles
     ∧ utils.DependsOn order_id key key deps_two_cycles None = Ok (true, V)
     ∧ depends deps_two_cycles key key)
  ∧ ∃ st', utils.step order_id deps_two_cycles true true state_two_cycles = Ok st'.
Proof.
  destruct (cycle_fallback_selects_self_dependent order_id keys_two_cycles
              deps_two_cycles true state_two_cycles) as [Hkey Hstep].
  { vm_compute. reflexivity. }
  split.
  - apply Hkey. vm_compute. reflexivity.
  - apply Hstep.
    + apply initial_invariant.
    + intros Hempty. vm_compute in Hempty. discriminate Hempty.
Defined.

(** C4: an iteration with more than one candidate appends the
    lexicographically smallest of them to the output; and neither one
    iteration nor the returned list depends on the order in which the maps
    are iterated, so the output is a function of the key set, the
    dependency map, [depFirst] and [handleCycle] alone. *)
Theorem smallest_candidate_is_appended :
  (∀ (o : MapOrder) (deps : DepMap) (depFirst handleCycle : bool)
     (st : utils.state) (cs : list string),
     utils.candidates_of o deps depFirst handleCycle
       (utils.remains st) (utils.remainsDeps st) = Ok cs →
     1 < length cs →
     ∃ key st',
       utils.step o deps depFirst handleCycle st = Ok st'
       ∧ utils.sorted st' = utils.sorted st ++ [key]
       ∧ key ∈ cs ∧ ∀ c, c ∈ cs → string_le key c)
  ∧ (∀ (o1 o2 : MapOrder) (deps : DepMap) (depFirst handleCycle : bool)
       (st : utils.state),
       utils.step o1 deps depFirst handleCycle st
       = utils.step o2 deps depFirst handleCycle st)
  ∧ (∀ (o1 o2 : MapOrder) (keys : KeySet) (deps : DepMap) (depFirst handleCycle : bool),
       utils.TopologicalOrder o1 keys deps depFirst handleCycle
       = utils.TopologicalOrder o2 keys deps depFirst handleCycle).
Proof.
  split; [|split].
  - intros o deps depFirst handleCycle st cs Hcs Hlen.
    destruct (first_sorted_total cs) as [key Hkey].
    { intros ->. simpl in Hlen. lia. }
    exists key, (utils.remove_key key st). unfold utils.step.
    rewrite Hcs. simpl. rewrite Hkey. simpl.
    apply first_sorted_ok in Hkey as [Hin Hleast]. done.
  - intros o1 o2 deps depFirst handleCycle st. apply step_order.
  - intros o1 o2 keys deps depFirst handleCycle. apply TopologicalOrder_order.
Qed.

Lemma smallest_candidate_is_appended_witness :
  ∃ key st',
    utils.step order_rev deps_two_cycles true true state_two_cycles = Ok st'
    ∧ utils.sorted st' = utils.sorted state_two_cycles ++ [key]
    ∧ key ∈ ["d"; "b"; "a"; "c"] ∧ ∀ c, c ∈ ["d"; "b"; "a"; "c"] → string_le key c.
Proof.
  apply (proj1 smallest_candidate_is_appended order_rev deps_two_cycles true true
           state_two_cycles ["d"; "b"; "a"; "c"]).
  - vm_compute. reflexivity.
  - simpl. lia.
Defined.

(** C1, as the specification words it, fails on a chain of two keys: [a]
    depends on [b], the two are not in one component, and the output has
    [b] before [a] when [depFirst] and [a] before [b] otherwise. *)
Lemma edge_order_as_specified_fails :
  edge deps_chain "a" "b" ∧ ¬ same_scc deps_chain "a" "b"
  ∧ utils.TopologicalOrder order_id keys_chain deps_chain true true = Ok ["b"; "a"]
  ∧ ¬ precedes "a" "b" ["b"; "a"]
  ∧ ¬ edge_order_as_specified keys_chain deps_chain true ["b"; "a"]
  ∧ utils.TopologicalOrder order_id keys_chain deps_chain false true = Ok ["a"; "b"]
  ∧ ¬ precedes "b" "a" ["a"; "b"]
  ∧ ¬ edge_order_as_specified keys_chain deps_chain false ["a"; "b"].
Proof.
  assert (edge deps_chain "a" "b") as Hedge.
  { unfold edge. vm_compute. set_solver. }
  assert (¬ same_scc deps_chain "a" "b") as Hscc.
  { intros [Heq | [_ Hba]]; [done|].
    apply (DependsOn_false_iff order_id "b" "a" deps_chain); [|done].
    eexists. vm_compute. reflexivity. }
  assert (¬ precedes "a" "b" ["b"; "a"]) as Hab.
  { apply precedes_asym.
    - repeat constructor; set_solver.
    - exists 0, 1. repeat split. lia. }
  assert (¬ precedes "b" "a" ["a"; "b"]) as Hba.
  { apply precedes_asym.
    - repeat constructor; set_solver.
    - exists 0, 1. repeat split. lia. }
  repeat split; try done.
  - intros Hspec. apply Hab. apply (Hspec "a" "b"); try done; set_solver.
  - intros Hspec. apply Hba. apply (Hspec "a" "b"); try done; set_solver.
Qed.

(** Exchanging the two directions is not enough: with the two cycles the
    fallback takes [a], a key of the first cycle, while [c], on which [a]
    depends and which is not in [a]'s component, is still to come. *)
Lemma edge_order_exchanged_fails :
  edge deps_two_cycles "a" "c" ∧ ¬ same_scc deps_two_cycles "a" "c"
  ∧ utils.TopologicalOrder order_id keys_two_cycles deps_two_cycles true true
    = Ok ["a"; "b"; "c"; "d"]
  ∧ ¬ edge_order_exchanged keys_two_cycles deps_two_cycles true ["a"; "b"; "c"; "d"]
  ∧ utils.TopologicalOrder order_id keys_two_cycles deps_two_cycles false true
    = Ok ["a"; "b"; "c"; "d"]
  ∧ ¬ edge_order_as_specified keys_two_cycles deps_two_cycles false ["a"; "b"; "c"; "d"].
Proof.
  assert (edge deps_two_cycles "a" "c") as Hedge.
  { unfold edge. vm_compute. set_solver. }
  assert (¬ same_scc deps_two_cycles "a" "c") as Hscc.
  { intros [Heq | [_ Hca]]; [done|].
    apply (DependsOn_false_iff order_id "c" "a" deps_two_cycles); [|done].
    eexists. vm_compute. reflexivity. }
  assert (¬ precedes "c" "a" ["a"; "b"; "c"; "d"]) as Hca.
  { apply precedes_asym.
    - repeat constructor; set_solver.
    - exists 0, 2. repeat split. lia. }
  repeat split; try done.
  - intros Hspec. apply Hca. apply (Hspec "a" "c"); try done; set_solver.
  - intros Hspec. apply Hca. apply (Hspec "a" "c"); try done; set_solver.
Qed.

(** C1, amended: for an edge [a → b] ([a] depends on [b]) between two
    input keys, the output of [TopologicalOrder] with [handleCycle = true]
    has [b] before [a] when [depFirst] and [a] before [b] otherwise,
    provided the key that comes second ([a] when [depFirst], [b]
    otherwise) does not depend on itself. *)
Theorem TopologicalOrder_respects_edges
    (o : MapOrder) (keys : KeySet) (deps : DepMap) (depFirst : bool) (a b : string) :
  a ∈ keys → b ∈ keys → edge deps a b →
  ¬ depends deps (if depFirst then a else b) (if depFirst then a else b) →
  ∃ l, utils.TopologicalOrder o keys deps depFirst true = Ok l
       ∧ if depFirst then precedes b a l else precedes a b l.
Proof.
  intros Ha Hb Hedge Hacyclic.
  destruct (TopologicalOrder_total o keys deps depFirst) as [l Hl].
  exists l. split; [done|].
  destruct (TopologicalOrder_ordered o keys deps depFirst true a b l Ha Hb Hedge Hl)
    as [Hfirst Hlast].
  destruct depFirst; [by apply Hfirst|by apply Hlast].
Qed.

Lemma TopologicalOrder_respects_edges_witness :
  ∃ l, utils.TopologicalOrder order_id keys_chain deps_chain true true = Ok l
       ∧ precedes "b" "a" l.
Proof.
  apply (TopologicalOrder_respects_edges order_id keys_chain deps_chain true "a" "b").
  - vm_compute. set_solver.
  - vm_compute. set_solver.
  - unfold edge. vm_compute. set_solver.
  - apply (DependsOn_false_iff order_id "a" "a" deps_chain).
    eexists. vm_compute. reflexivity.
Defined.

(** ** What TopologicalOrder leaves untouched *)

(** On the chain the call works in the cells 3 and 4 it makes for itself:
    cell 3, the copy of the key set, ends empty, cell 4, the restricted
    dependencies of [a], is emptied when [b] is taken. *)
Example run_store_chain :
  store.TopologicalOrder order_id store_chain keys_ref_chain deps_refs_chain true true
  = Ok (["b"; "a"],
        {[ 1%positive := {[ "a"; "b" ]}; 2%positive := {[ "b" ]};
           3%positive := ∅; 4%positive := ∅ ]}).
Proof. vm_compute. reflexivity. Qed.

Lemma store_chain_valid :
  valid_ref store_chain keys_ref_chain ∧ valid_deps store_chain deps_refs_chain.
Proof.
  split.
  - unfold valid_ref, keys_ref_chain, store_chain. rewrite !dom_insert_L. set_solver.
  - intros k r Hlook. unfold deps_refs_chain in Hlook.
    apply lookup_singleton_Some in Hlook as [_ <-].
    unfold valid_ref, store_chain. rewrite !dom_insert_L. set_solver.
Defined.

(** C10: [TopologicalOrder] does not change its arguments.  The call
    returns when cycles are handled, and whenever it returns the caller's
    key set and every dependency set of the caller's map hold the keys
    they held before, as does every other key set the store had. *)
Theorem TopologicalOrder_leaves_arguments
    (o : MapOrder) (h : Store) (keys : KeySetRef) (deps : DepRefs)
    (depFirst handleCycle : bool) :
  valid_ref h keys → valid_deps h deps →
  (∃ l h', store.TopologicalOrder o h keys deps depFirst true = Ok (l, h'))
  ∧ ∀ l h',
      store.TopologicalOrder o h keys deps depFirst handleCycle = Ok (l, h') →
      store.content h' keys = store.content h keys
      ∧ (∀ k r, deps !! k = Some r → store.content h' r = store.content h r)
      ∧ preserved h h'
      ∧ utils.TopologicalOrder o (store.content h keys) (deps_content h deps)
          depFirst handleCycle = Ok l.
Proof.
  intros Hkeys Hdeps. split.
  - pose proof (store_TopologicalOrder_refines o h keys deps depFirst true Hkeys Hdeps) as Hr.
    destruct (TopologicalOrder_total o (store.content h keys) (deps_content h deps) depFirst)
      as [l Hl].
    rewrite Hl in Hr. destruct Hr as (h' & Hrun & _). by exists l, h'.
  - intros l h' Hrun.
    pose proof (store_TopologicalOrder_refines o h keys deps depFirst handleCycle Hkeys Hdeps)
      as Hr.
    destruct (utils.TopologicalOrder _ _ _ _ _) as [l1| |]; [|congruence|congruence].
    destruct Hr as (h1 & Hrun1 & Hp). rewrite Hrun in Hrun1. injection Hrun1 as -> ->.
    split; [by apply content_preserved|]. split; [|done].
    intros k r Hk. apply content_preserved; [done|]. by eapply Hdeps.
Qed.

Lemma TopologicalOrder_leaves_arguments_witness :
  (∃ l h', store.TopologicalOrder order_id store_chain keys_ref_chain deps_refs_chain
             true true = Ok (l, h'))
  ∧ ∀ l h',
      store.TopologicalOrder order_id store_chain keys_ref_chain deps_refs_chain
        true true = Ok (l, h') →
      store.content h' keys_ref_chain = store.content store_chain keys_ref_chain
      ∧ (∀ k r, deps_refs_chain !! k = Some r →
                store.content h' r = store.content store_chain r)
      ∧ preserved store_chain h'
      ∧ utils.TopologicalOrder order_id (store.content store_chain keys_ref_chain)
          (deps_content store_chain deps_refs_chain) true true = Ok l.
Proof.
  apply (TopologicalOrder_leaves_arguments order_id store_chain keys_ref_chain
           deps_refs_chain true true).
  - apply store_chain_valid.
  - apply store_chain_valid.
Defined.

(** ** Readiness of a node *)

Section node_ready_properties.

Import kvscheduler.

Example run_unmet : isNodeReady order_id graph_unmet ("n", node_n) = Ok false.
Proof. vm_compute. reflexivity. Qed.

Example run_met : isNodeReady order_id graph_met ("n", node_n) = Ok true.
Proof. vm_compute. reflexivity. Qed.

(** The cycle of three keys is ready as a whole once [a/4] is there. *)
Example run_cycle_pending :
  isNodeReady order_id graph_cycle_pending ("a/1", node_a1) = Ok false
  ∧ isNodeReady order_id graph_cycle_pending ("a/3", node_a3) = Ok false.
Proof. split; vm_compute; reflexivity. Qed.

Example run_cycle_realizable :
  isNodeReady order_id graph_cycle_realizable ("a/1", node_a1) = Ok true
  ∧ isNodeReady order_rev graph_cycle_realizable ("a/2", node_a2) = Ok true
  ∧ isNodeReady order_id graph_cycle_realizable ("a/3", node_a3) = Ok true.
Proof. repeat split; vm_compute; reflexivity. Qed.

(** The dependency on [x] makes a value from NB not ready when [x] is
    missing, and the check does not return when the sources of [x] form a
    cycle. *)
Example run_from_nb_unmet :
  isNodeReady order_id graph_sb ("s", nb_node false [("needs-x", ["x"])]) = Ok false.
Proof. vm_compute. reflexivity. Qed.

Example run_from_nb_loop :
  isNodeReady order_id graph_sb_loop ("s", nb_node false [("needs-x", ["x"])]) = OutOfFuel.
Proof. vm_compute. reflexivity. Qed.

Lemma graph_unmet_removal_decided : removal_decided graph_unmet.
Proof.
  intros k d Hk. unfold graph_unmet in Hk.
  apply lookup_insert_Some in Hk as [[<- <-]|[_ Hk]]; [by eexists|].
  apply lookup_insert_Some in Hk as [[<- <-]|[_ Hk]]; [by eexists|].
  apply lookup_singleton_Some in Hk as [<- <-]. by eexists.
Defined.



Lemma graph_met_closes_cycle :
  closes_cycle graph_met ("n", node_n) {[ "n" ]} ("t", node_t).
Proof.
  constructor.
  - intros group Hgroup. vm_compute in Hgroup.
    apply elem_of_cons in Hgroup as [->|Hgroup].
    + exists ("n", node_n). split; [vm_compute; apply list_elem_of_here|].
      split; [vm_compute; reflexivity|]. right. by left.
    + apply list_elem_of_singleton in Hgroup as ->.
      exists ("u", nb_node false []). split; [vm_compute; apply list_elem_of_here|].
      split; [vm_compute; reflexivity|]. by left.
  - exists ("n", [("n", node_n)]), ("n", node_n).
    split; [vm_compute; apply list_elem_of_here|].
    split; [vm_compute; apply list_elem_of_here|].
    split; [vm_compute; reflexivity|]. by left.
Qed.

Lemma graph_unmet_closes_no_cycle :
  ¬ closes_cycle graph_unmet ("n", node_n) {[ "n" ]} ("t", node_t).
Proof.
  intros Hcc. inversion Hcc as [path current Hall _]; subst path current.
  destruct (Hall ("u", [("u", node_u)])) as (t & Ht & _ & Hsat).
  { vm_compute. right. apply list_elem_of_here. }
  apply list_elem_of_singleton in Ht as ->.
  destruct Hsat as [Hpend|[Hkey|[_ Hu]]]; [done|done|].
  inversion Hu as [path current _ Hex]; subst path current.
  destruct Hex as (group & t & Hgroup & _). vm_compute in Hgroup.
  by apply elem_of_nil in Hgroup.
Qed.



(** C6: a node whose [Origin] flag holds [FromSB] is ready, whatever its
    dependencies are and whatever the graph holds: the answer is given
    before any dependency is looked at. *)
Theorem isNodeReady_FromSB (o : MapOrder) (g : Graph) (n : Node) :
  getNodeOrigin n = FromSB → isNodeReady o g n = Ok true.
Proof. intros Horigin. unfold isNodeReady. by rewrite decide_True. Qed.

Lemma isNodeReady_FromSB_witness :
  isNodeReady order_id graph_sb_loop ("s", node_sb) = Ok true.
Proof.
  apply (isNodeReady_FromSB order_id graph_sb_loop ("s", node_sb)).
  vm_compute. reflexivity.
Defined.

End node_ready_properties.

(** ** The defaults of the descriptor handler *)

Section handler_defaults.

Import kvscheduler.

Context {Message Metadata Dependency KeyValuePair KVWithMetadata World : Type}.
Context (proto_Equal : Message → Message → bool).

Local Abbreviation Handler :=
  (@handler.descriptorHandler Message Metadata Dependency KeyValuePair KVWithMetadata World).
Local Abbreviation Descriptor :=
  (@handler.KVDescriptor Message Metadata Dependency KeyValuePair KVWithMetadata World).

Lemma NonRetriableIfInTheList_spec (errs : list error) (err : error) :
  NonRetriableIfInTheList errs err = false ↔ err ∈ errs.
Proof.
  unfold NonRetriableIfInTheList. rewrite negb_false_iff, existsb_exists. split.
  - intros (e & He%list_elem_of_In & Heq%bool_decide_eq_true). by subst.
  - intros Hin. exists err. split; [by apply list_elem_of_In|by apply bool_decide_eq_true].
Qed.

(** A callback that is defined is called, and the call is logged. *)
Lemma add_calls_Add (h : Handler) (d : Descriptor) (key : string) (value : Message)
    (f : string → Message → World → (option Metadata * error) * World)
    (w : World) (log : list Callback) :
  handler.descriptor h = Some d → handler.Add d = Some f →
  handler.add h key value (w, log) = ((f key value w).1, ((f key value w).2, log ++ [CbAdd])).
Proof.
  intros Hd Hf. unfold handler.add, handler.call. rewrite Hd, Hf. simpl.
  by destruct (f key value w).
Qed.

(** C7: [retriableFailure] answers false for the three errors of the
    handler itself, whatever the descriptor defines and without calling
    it; for every other error it answers true when the descriptor does not
    define [RetriableFailure]. *)
Theorem retriableFailure_default
    (h : Handler) (err : error) (s : World * list Callback) :
  (err ∈ [ErrUnimplementedAdd; ErrUnimplementedModify; ErrUnimplementedDelete] →
   handler.retriableFailure h err s = (false, s))
  ∧ (err ∉ [ErrUnimplementedAdd; ErrUnimplementedModify; ErrUnimplementedDelete] →
     (∀ d, handler.descriptor h = Some d → handler.RetriableFailure d = None) →
     handler.retriableFailure h err s = (true, s)).
Proof.
  unfold handler.retriableFailure. split.
  - intros Hin. apply NonRetriableIfInTheList_spec in Hin. by rewrite Hin.
  - intros Hnotin Hnone.
    destruct (NonRetriableIfInTheList _ err) eqn:Hlist.
    + simpl. destruct (handler.descriptor h) as [d|]; [|done].
      by rewrite (Hnone d eq_refl).
    + by apply NonRetriableIfInTheList_spec in Hlist.
Qed.

(** C8: when the descriptor lacks [Add] (respectively [Modify],
    [Delete]), the handler's operation returns the matching
    "unimplemented" error, [modify] together with the old metadata, and
    no callback is called: the world and the log of calls are as
    before. *)
Theorem unimplemented_operations
    (h : Handler) (d : Descriptor) (key : string) (value oldValue newValue : Message)
    (metadata : option Metadata) (s : World * list Callback) :
  handler.descriptor h = Some d →
  (handler.Add d = None →
   handler.add h key value s = ((None, ErrUnimplementedAdd), s))
  ∧ (handler.Modify d = None →
     handler.modify h key oldValue newValue metadata s
     = ((metadata, ErrUnimplementedModify), s))
  ∧ (handler.Delete d = None →
     handler.delete h key value metadata s = (ErrUnimplementedDelete, s)).
Proof.
  intros Hd. unfold handler.add, handler.modify, handler.delete. rewrite Hd.
  repeat split; by intros ->.
Qed.

(** C9: when the descriptor does not define [ValueComparator],
    [equivalentValues] returns [proto.Equal(v1, v2)], and no callback is
    called. *)
Theorem equivalentValues_default
    (h : Handler) (key : string) (v1 v2 : Message) (s : World * list Callback) :
  (∀ d, handler.descriptor h = Some d → handler.ValueComparator d = None) →
  handler.equivalentValues proto_Equal h key v1 v2 s = (proto_Equal v1 v2, s).
Proof.
  intros Hnone. unfold handler.equivalentValues.
  destruct (handler.descriptor h) as [d|]; [|done]. by rewrite (Hnone d eq_refl).
Qed.

End handler_defaults.

Example run_add_defined :
  kvscheduler.handler.add handler_retry_all "k" "v" (0, [])
  = ((Some 1, kvscheduler.nil_error), (1, [kvscheduler.CbAdd])).
Proof. reflexivity. Qed.

Example run_comparator_defined :
  kvscheduler.handler.equivalentValues String.eqb handler_retry_all "k" "v1" "v2" (0, [])
  = (true, (1, [kvscheduler.CbValueComparator])).
Proof. reflexivity. Qed.

Example run_retriable_defined :
  kvscheduler.handler.retriableFailure handler_retry_all (kvscheduler.errors_New "busy") (0, [])
  = (true, (1, [kvscheduler.CbRetriableFailure])).
Proof. reflexivity. Qed.

Lemma retriableFailure_default_witness :
  kvscheduler.handler.retriableFailure handler_retry_all kvscheduler.ErrUnimplementedModify (0, [])
  = (false, (0, []))
  ∧ kvscheduler.handler.retriableFailure handler_bare (kvscheduler.errors_New "busy") (0, [])
    = (true, (0, [])).
Proof.
  split.
  - apply (retriableFailure_default handler_retry_all kvscheduler.ErrUnimplementedModify).
    set_solver.
  - apply (retriableFailure_default handler_bare (kvscheduler.errors_New "busy")).
    + set_solver.
    + intros d [= <-]. reflexivity.
Defined.

Lemma unimplemented_operations_witness :
  kvscheduler.handler.add handler_bare "k" "v" (0, [])
  = ((None, kvscheduler.ErrUnimplementedAdd), (0, []))
  ∧ kvscheduler.handler.modify handler_bare "k" "old" "new" (Some 7) (0, [])
    = ((Some 7, kvscheduler.ErrUnimplementedModify), (0, []))
  ∧ kvscheduler.handler.delete handler_bare "k" "v" (Some 7) (0, [])
    = (kvscheduler.ErrUnimplementedDelete, (0, [])).
Proof.
  destruct (unimplemented_operations handler_bare descriptor_bare "k" "v" "old" "new"
              (Some 7) (0, []) eq_refl) as (Hadd & Hmodify & Hdelete).
  split; [by apply Hadd|]. split; [by apply Hmodify|by apply Hdelete].
Defined.

Lemma equivalentValues_default_witness :
  kvscheduler.handler.equivalentValues String.eqb handler_bare "k" "v1" "v2" (0, [])
  = (String.eqb "v1" "v2", (0, [])).
Proof.
  apply (equivalentValues_default String.eqb handler_bare "k" "v1" "v2" (0, [])).
  intros d [= <-]. reflexivity.
Defined.

(** ** DependsOn with marks given by the caller *)

Section depends_on_visited.

Context (o : MapOrder) (deps : DepMap) (k2 : string).

Lemma edge_avoiding_mono (V0 V : KeySet) (a b : string) :
  V0 ⊆ V → rtc (edge_avoiding deps V) a b → rtc (edge_avoiding deps V0) a b.
Proof.
  intros Hsub. apply rtc_subrel. intros x y [Hedge Hy]. split; [done|set_solver].
Qed.

Lemma depends_avoiding_mono (V0 V : KeySet) (a : string) :
  V0 ⊆ V → depends_avoiding deps V a k2 → depends_avoiding deps V0 a k2.
Proof.
  intros Hsub (x & Hpath & Hedge). exists x. split; [|done].
  by eapply edge_avoiding_mono.
Qed.

Lemma depends_avoiding_empty (a : string) :
  depends_avoiding deps ∅ a k2 ↔ depends deps a k2.
Proof.
  unfold depends. split.
  - intros (x & Hpath & Hedge).
    induction Hpath as [x|x y z [Hxy _] _ IH]; [by apply tc_once|].
    eapply tc_l; [done|by apply IH].
  - induction 1 as [x y Hxy|x y z Hxy _ (w & Hpath & Hedge)].
    + exists x. split; [done|done].
    + exists w. split; [|done]. eapply rtc_l; [|done]. split; [done|set_solver].
Qed.

(** What the marks say after any answer: none is removed, and every new
    one is reachable from [k1] along keys that were not marked. *)
Definition marks_reachable (V : KeySet) (k1 : string) (V' : KeySet) : Prop :=
  V ⊆ V' ∧ ∀ x, x ∈ V' → x ∉ V → rtc (edge_avoiding deps V) k1 x.

Lemma DependsOn_range_marks (f : string → KeySet → result (bool * KeySet))
    (k1 : string) (V0 : KeySet) (l : list string) :
  (∀ dep, dep ∈ l → edge deps k1 dep) →
  (∀ dep v b v', f dep v = Ok (b, v') →
     marks_reachable v dep v' ∧ (b = true → depends_avoiding deps v dep k2)) →
  ∀ V b V', V0 ⊆ V →
    (∀ x, x ∈ V → x ∉ V0 → rtc (edge_avoiding deps V0) k1 x) →
    utils.DependsOn_range f l V = Ok (b, V') →
    V ⊆ V'
    ∧ (∀ x, x ∈ V' → x ∉ V0 → rtc (edge_avoiding deps V0) k1 x)
    ∧ (b = true → depends_avoiding deps V0 k1 k2).
Proof.
  intros Hl Hf. induction l as [|dep l IH]; intros V b V' Hsub Hmarks; simpl.
  - intros [= <- <-]. done.
  - assert (∀ d, d ∈ l → edge deps k1 d) as Hl' by (intros d Hd; apply Hl; by right).
    specialize (IH Hl').
    destruct (utils.Has V dep) eqn:Hvis; [by apply IH|].
    apply Has_false in Hvis.
    destruct (f dep V) as [[found V1]| |] eqn:Hcall; simpl; try done.
    destruct (Hf _ _ _ _ Hcall) as [[Hsub1 Hreach1] Htrue1].
    assert (dep ∉ V0) as Hdep0 by set_solver.
    assert (rtc (edge_avoiding deps V0) k1 dep) as Hk1dep.
    { apply rtc_once. split; [apply Hl; by left|done]. }
    assert (∀ x, x ∈ V1 → x ∉ V0 → rtc (edge_avoiding deps V0) k1 x) as Hmarks1.
    { intros x Hx Hx0. destruct (decide (x ∈ V)) as [HxV|HxV]; [by apply Hmarks|].
      etrans; [done|]. eapply edge_avoiding_mono; [done|]. by apply Hreach1. }
    destruct found.
    + intros [= <- <-]. split; [done|]. split; [done|]. intros _.
      destruct (depends_avoiding_mono V0 V dep Hsub (Htrue1 eq_refl)) as (x & Hpath & He).
      exists x. split; [|done]. by etrans.
    + intros Hrest. destruct (IH V1 b V') as (Hsub' & Hmarks' & Htrue'); try done.
      { set_solver. }
      split; [set_solver|done].
Qed.

Lemma DependsOn_rec_marks (fuel : nat) (k1 : string) (V : KeySet) (b : bool) (V' : KeySet) :
  utils.DependsOn_rec o fuel k1 k2 deps V = Ok (b, V') →
  marks_reachable V k1 V' ∧ (b = true → depends_avoiding deps V k1 k2).
Proof.
  revert k1 V b V'. induction fuel as [|fuel IH]; intros k1 V b V'; simpl; [done|].
  destruct (utils.Has (utils.index deps k1) k2) eqn:Hdirect.
  - intros [= <- <-]. split; [split; [done|]; by intros x ? ?|].
    intros _. exists k1. split; [done|]. by apply Has_true.
  - intros Hrange.
    apply (DependsOn_range_marks _ k1 V) in Hrange as (Hsub & Hmarks & Htrue).
    + unfold utils.Add in Hsub. split; [split; [set_solver|done]|done].
    + intros dep Hdep. rewrite range_elem_of, elem_of_elements in Hdep. done.
    + intros dep v b' v'. apply IH.
    + unfold utils.Add. set_solver.
    + unfold utils.Add. intros x Hx Hx0.
      assert (x = k1) as -> by set_solver. done.
Qed.

(** After a negative answer the direct dependencies of [k1] are marked. *)
Lemma DependsOn_rec_false_direct (fuel : nat) (k1 : string) (V V' : KeySet) :
  utils.DependsOn_rec o fuel k1 k2 deps V = Ok (false, V') →
  (k2 ∉ utils.index deps k1) ∧ utils.index deps k1 ⊆ V'.
Proof.
  destruct fuel as [|fuel]; simpl; [done|].
  destruct (utils.Has (utils.index deps k1) k2) eqn:Hdirect; [done|].
  intros Hrange. split; [by apply Has_false|].
  apply (DependsOn_range_false deps k2) in Hrange as [_ Hall].
  - intros d Hd. apply Hall. by rewrite range_elem_of, elem_of_elements.
  - intros dep v v'. apply DependsOn_rec_false.
Qed.

Lemma DependsOn_rec_false_closed (fuel : nat) (k1 : string) (V V' : KeySet) (x : string) :
  utils.DependsOn_rec o fuel k1 k2 deps V = Ok (false, V') →
  rtc (edge_avoiding deps V) k1 x →
  x ∈ V' ∧ (k2 ∉ utils.index deps x) ∧ utils.index deps x ⊆ V'.
Proof.
  intros Hrun Hpath.
  destruct (DependsOn_rec_false_direct fuel k1 V V' Hrun) as [Hk2 Hdirect].
  destruct (DependsOn_rec_false o deps k2 fuel k1 V V' Hrun) as [Hk1 [Hsub Hexplored]].
  revert x Hpath. apply rtc_ind_r; [done|].
  intros y z _ [Hedge Hz] (_ & _ & Hy).
  assert (z ∈ V') as HzV' by (apply Hy; done).
  split; [done|]. by apply Hexplored.
Qed.

(** The recursion bound of [DependsOn] is enough whatever is marked. *)
Lemma DependsOn_rec_total_marked (k1 : string) (V : KeySet) :
  ∃ b V', utils.DependsOn_rec o (S (size deps)) k1 k2 deps V = Ok (b, V').
Proof.
  destruct (decide (k1 ∈ V)) as [Hin|Hnotin].
  - simpl. destruct (utils.Has (utils.index deps k1) k2); [by eexists _, _|].
    destruct (decide (k1 ∈ dom deps)) as [Hdom|Hdom].
    + destruct (DependsOn_range_total deps
                  (λ dep v, utils.DependsOn_rec o (size deps) dep k2 deps v)
                  (size deps - 1) (range o (elements (utils.index deps k1)))
                  (utils.Add V k1)) as (b & V' & -> & _); [| |by eexists _, _].
      * intros dep v Hdep Hv.
        assert (unmarked deps v < size deps) as Hlt; [|by apply DependsOn_rec_total].
        assert (size deps ≠ 0); [|lia].
        rewrite <- size_dom. intros Hz. apply size_empty_inv in Hz. set_solver.
      * unfold unmarked, utils.Add.
        assert (size (dom deps ∖ (V ∪ {[k1]})) < size (dom deps)); [|rewrite size_dom in *; lia].
        apply subset_size. split; [set_solver|].
        intros Hsub. specialize (Hsub k1). set_solver.
    + rewrite (index_not_dom deps k1 Hdom), elements_empty, (range_nil o). simpl.
      by eexists _, _.
  - destruct (DependsOn_rec_total o deps k2 (S (size deps)) k1 V) as (b & V' & Hr & _);
      [done| |by eexists _, _].
    unfold unmarked. rewrite <- size_dom.
    assert (size (dom deps ∖ V) ≤ size (dom deps)); [|lia].
    apply subseteq_size. set_solver.
Qed.

End depends_on_visited.

(** [DependsOn] returns, and answers true exactly for the keys reachable
    along keys that are not marked. *)
Lemma DependsOn_returns_avoiding
    (o : MapOrder) (k1 k2 : string) (deps : DepMap) (visited : option KeySet) :
  ∃ b V',
    utils.DependsOn o k1 k2 deps visited = Ok (b, V')
    ∧ (b = true ↔ depends_avoiding deps (default ∅ visited) k1 k2).
Proof.
  unfold utils.DependsOn, utils.NewKeySet.
  replace (match visited with Some v => v | None => ∅ end) with (default ∅ visited)
    by by destruct visited.
  destruct (DependsOn_rec_total_marked o deps k2 k1 (default ∅ visited))
    as (b & V' & Hrun).
  exists b, V'. split; [done|]. split.
  - intros ->. by eapply DependsOn_rec_marks.
  - intros Hpath. destruct b; [done|]. exfalso.
    destruct Hpath as (x & Hpath & Hedge).
    by destruct (DependsOn_rec_false_closed o deps k2 _ k1 _ V' x Hrun Hpath)
      as (_ & Hk2 & _).
Qed.

(** X1: [DependsOn] always returns, whatever [visited] the caller passes
    (a nil [visited] counts as empty).  It answers true exactly when [k2]
    is reachable from [k1] by a non-empty path of [deps] whose inner keys
    are not in [visited]; with a nil [visited] that is plain reachability.
    The answer is the same for every iteration order of the maps. *)
Theorem DependsOn_decides_reachability
    (o : MapOrder) (k1 k2 : string) (deps : DepMap) (visited : option KeySet) :
  ∃ b V',
    utils.DependsOn o k1 k2 deps visited = Ok (b, V')
    ∧ (b = true ↔ depends_avoiding deps (default ∅ visited) k1 k2)
    ∧ (visited = None → (b = true ↔ depends deps k1 k2))
    ∧ ∀ o' : MapOrder, ∃ V'', utils.DependsOn o' k1 k2 deps visited = Ok (b, V'').
Proof.
  destruct (DependsOn_returns_avoiding o k1 k2 deps visited) as (b & V' & Hrun & Hiff).
  exists b, V'. split; [done|]. split; [done|]. split.
  - intros ->. simpl in Hiff. by rewrite Hiff, depends_avoiding_empty.
  - intros o'.
    destruct (DependsOn_returns_avoiding o' k1 k2 deps visited)
      as (b' & V'' & Hrun' & Hiff').
    exists V''. rewrite Hrun'. do 2 f_equal.
    apply eq_true_iff_eq. by rewrite Hiff, Hiff'.
Qed.

(** X2: [DependsOn] never removes a key from [visited]; every key it adds
    is reachable from [k1] along keys that were not in [visited]; and when
    it answers false it has added all of these, [k1] among them, so the
    set it leaves is the same for every iteration order. *)
Theorem DependsOn_marks_what_it_reaches
    (o : MapOrder) (k1 k2 : string) (deps : DepMap) (V : KeySet) (b : bool) (V' : KeySet) :
  utils.DependsOn o k1 k2 deps (Some V) = Ok (b, V') →
  V ⊆ V'
  ∧ (∀ x, x ∈ V' → x ∉ V → rtc (edge_avoiding deps V) k1 x)
  ∧ (b = false → ∀ x, rtc (edge_avoiding deps V) k1 x → x ∈ V').
Proof.
  unfold utils.DependsOn. intros Hrun.
  destruct (DependsOn_rec_marks o deps k2 _ k1 V b V' Hrun) as [[Hsub Hmarks] _].
  split; [done|]. split; [done|]. intros -> x Hpath.
  by destruct (DependsOn_rec_false_closed o deps k2 _ k1 V V' x Hrun Hpath).
Qed.

Lemma DependsOn_marks_what_it_reaches_witness :
  ({[ "d" ]} : KeySet) ⊆ {[ "a"; "b"; "c"; "d" ]}
  ∧ (∀ x, x ∈ ({[ "a"; "b"; "c"; "d" ]} : KeySet) → x ∉ ({[ "d" ]} : KeySet) →
          rtc (edge_avoiding deps_two_cycles {[ "d" ]}) "b" x)
  ∧ (false = false →
     ∀ x, rtc (edge_avoiding deps_two_cycles {[ "d" ]}) "b" x →
          x ∈ ({[ "a"; "b"; "c"; "d" ]} : KeySet)).
Proof.
  apply (DependsOn_marks_what_it_reaches order_id "b" "z" deps_two_cycles
           {[ "d" ]} false {[ "a"; "b"; "c"; "d" ]}).
  vm_compute. reflexivity.
Defined.

(** ** TopologicalOrder without the cycle fallback *)

Section precedes_order.

Lemma precedes_trans (x y z : string) (l : list string) :
  NoDup l → precedes x y l → precedes y z l → precedes x z l.
Proof.
  intros Hnd (i & j & Hij & Hi & Hj) (j' & k & Hjk & Hj' & Hk).
  assert (j = j') as <- by by eapply NoDup_lookup.
  exists i, k. split; [lia|done].
Qed.

Lemma precedes_irrefl (x : string) (l : list string) : NoDup l → ¬ precedes x x l.
Proof. intros Hnd Hp. by apply (precedes_asym x x l). Qed.

End precedes_order.

Section strict_order.

Context (o : MapOrder) (keys : KeySet) (deps : DepMap).

Lemma candidates_of_strict (depFirst : bool) (R : KeySet) (RD : DepMap)
    (cs : list string) :
  utils.candidates_of o deps depFirst false R RD = Ok cs →
  cs = utils.find_candidates o depFirst R RD ∧ cs ≠ [].
Proof.
  unfold utils.candidates_of.
  destruct (utils.find_candidates o depFirst R RD) as [|c cs']; simpl; [done|].
  by intros [= <-].
Qed.

Lemma no_candidate_cycle_within (depFirst : bool) (st : utils.state) :
  loop_invariant keys deps st → utils.remains st ≠ ∅ →
  utils.find_candidates o depFirst (utils.remains st) (utils.remainsDeps st) = [] →
  cyclic_within keys deps.
Proof.
  intros Hinv Hne Hnone.
  pose proof (inv_remains _ _ _ Hinv) as Hsub.
  assert (∀ k, k ∈ utils.remains st →
            utils.candidate o depFirst (utils.remainsDeps st) k = false) as Hno.
  { intros k Hk. apply not_true_iff_false. intros Hc.
    assert (k ∈ utils.find_candidates o depFirst (utils.remains st) (utils.remainsDeps st))
      as Hin by by apply find_candidates_elem.
    rewrite Hnone in Hin. by apply elem_of_nil in Hin. }
  destruct depFirst.
  - destruct (exists_cycle (edge_within keys deps) (utils.remains st)) as (k & _ & Hcycle);
      [apply _|done| |by exists k].
    intros k Hk. specialize (Hno k Hk).
    apply not_true_iff_false in Hno. rewrite candidate_depFirst in Hno.
    apply set_choose_L in Hno as [y Hy].
    rewrite (invariant_index keys deps st k Hinv Hk) in Hy.
    exists y. unfold edge_within, edge. set_solver.
  - destruct (exists_cycle (flip (edge_within keys deps)) (utils.remains st))
      as (k & Hk & Hcycle); [intros x y; unfold flip; apply _|done| |].
    + intros k Hk. specialize (Hno k Hk).
      unfold utils.candidate in Hno. rewrite negb_false_iff, depended_on_true in Hno.
      destruct Hno as (k2 & s & Hlook & Hks).
      rewrite (inv_deps _ _ _ Hinv) in Hlook.
      destruct (decide (k2 ∈ utils.remains st)) as [Hk2|]; [|done].
      destruct (deps !! k2) as [s0|] eqn:Hd; simpl in Hlook; [|done].
      injection Hlook as <-. exists k2. split; [done|].
      unfold flip, edge_within, edge, utils.index. rewrite Hd. simpl. set_solver.
    + exists k. by apply tc_flip.
Qed.

(** One iteration without the fallback either panics on a cycle or
    removes an ordinary candidate. *)
Lemma step_strict_cases (depFirst : bool) (st : utils.state) :
  loop_invariant keys deps st → utils.remains st ≠ ∅ →
  (utils.step o deps depFirst false st = Panic "Dependency cycle!"
   ∧ cyclic_within keys deps)
  ∨ ∃ key, utils.step o deps depFirst false st = Ok (utils.remove_key key st)
           ∧ key ∈ utils.remains st.
Proof.
  intros Hinv Hne. unfold utils.step, utils.candidates_of.
  destruct (utils.find_candidates o depFirst (utils.remains st) (utils.remainsDeps st))
    as [|c cs] eqn:Hfind; simpl.
  - left. split; [done|]. by eapply no_candidate_cycle_within.
  - right. destruct (first_sorted_total (c :: cs)) as [key Hkey]; [done|].
    rewrite Hkey. simpl. exists key. split; [done|].
    apply first_sorted_ok in Hkey as [Hkey _]. rewrite <- Hfind in Hkey.
    by apply find_candidates_elem in Hkey as [? _].
Qed.

Lemma loop_strict_cases (depFirst : bool) (fuel : nat) (st : utils.state) :
  loop_invariant keys deps st → size (utils.remains st) ≤ fuel →
  (∃ l, utils.loop o deps depFirst false fuel st = Ok l)
  ∨ (utils.loop o deps depFirst false fuel st = Panic "Dependency cycle!"
     ∧ cyclic_within keys deps).
Proof.
  revert st. induction fuel as [|fuel IH]; intros st Hinv Hsize; simpl.
  - left. rewrite (proj2 (len_zero _)); [by eexists|].
    apply leibniz_equiv, size_empty_inv. lia.
  - destruct (Nat.eqb (utils.len (utils.remains st)) 0) eqn:Hlen; [left; by eexists|].
    assert (utils.remains st ≠ ∅) as Hne.
    { intros Hempty. apply len_zero in Hempty. congruence. }
    destruct (step_strict_cases depFirst st Hinv Hne) as [[-> Hcycle]|(key & -> & Hkey)];
      simpl; [by right|].
    apply IH.
    + by apply remove_key_invariant.
    + rewrite remove_key_size by done. lia.
Qed.

(** What the run without the fallback returns, the run with it returns
    as well. *)
Lemma loop_handle_agrees (depFirst : bool) (fuel : nat) (st : utils.state)
    (l : list string) :
  utils.loop o deps depFirst false fuel st = Ok l →
  utils.loop o deps depFirst true fuel st = Ok l.
Proof.
  revert st. induction fuel as [|fuel IH]; intros st; simpl; [done|].
  destruct (Nat.eqb (utils.len (utils.remains st)) 0); [done|].
  assert (∀ st', utils.step o deps depFirst false st = Ok st' →
                 utils.step o deps depFirst true st = Ok st') as Hstep.
  { intros st'. unfold utils.step, utils.candidates_of.
    by destruct (utils.find_candidates o depFirst (utils.remains st) (utils.remainsDeps st)). }
  destruct (utils.step o deps depFirst false st) as [st'| |]; simpl; try done.
  rewrite (Hstep st' eq_refl). simpl. apply IH.
Qed.

Lemma ordered_step_strict (depFirst : bool) (first last : string)
    (st st' : utils.state) :
  first ∈ keys →
  loop_invariant keys deps st →
  (utils.candidate o depFirst (utils.remainsDeps st) last = true →
   last ∈ utils.remains st → first ∉ utils.remains st) →
  ordered first last st →
  utils.step o deps depFirst false st = Ok st' →
  ordered first last st'.
Proof.
  intros Hfirst Hinv Hcand Hord (cs & key & Hcs & Hkey & ->)%step_inv.
  apply first_sorted_ok in Hkey as [Hkey _].
  apply candidates_of_strict in Hcs as [-> _].
  apply find_candidates_elem in Hkey as [Hkey Hc].
  unfold ordered. simpl. intros [Hin | ->%list_elem_of_singleton]%elem_of_app.
  - by apply precedes_app_l, Hord.
  - apply precedes_snoc. apply (inv_sorted _ _ _ Hinv). split; [done|].
    by apply Hcand.
Qed.

Lemma TopologicalOrder_strict_ordered (depFirst : bool) (l : list string) :
  utils.TopologicalOrder o keys deps depFirst false = Ok l →
  respects_edges keys deps depFirst l.
Proof.
  intros Hl a b Ha Hb Hedge.
  pose proof (TopologicalOrder_keys _ _ _ _ _ _ Hl) as [_ Hall].
  unfold utils.TopologicalOrder in Hl. move Hl at bottom. destruct depFirst.
  - apply (loop_invariant_rule o deps
             (λ st, loop_invariant keys deps st ∧ ordered b a st)) in Hl
      as (st & [Hinv Hord] & Hempty & <-).
    + apply Hord, (inv_sorted _ _ _ Hinv). set_solver.
    + intros st st' [Hinv Hord] _ Hstep. split; [by eapply step_invariant|].
      eapply ordered_step_strict; try done.
      intros Hcand Hin Hbin. apply candidate_depFirst in Hcand.
      rewrite (invariant_index keys deps st a Hinv Hin) in Hcand.
      unfold edge in Hedge. set_solver.
    + split; [apply initial_invariant|]. intros Hin. by apply elem_of_nil in Hin.
  - apply (loop_invariant_rule o deps
             (λ st, loop_invariant keys deps st ∧ ordered a b st)) in Hl
      as (st & [Hinv Hord] & Hempty & <-).
    + apply Hord, (inv_sorted _ _ _ Hinv). set_solver.
    + intros st st' [Hinv Hord] _ Hstep. split; [by eapply step_invariant|].
      eapply ordered_step_strict; try done.
      intros Hcand Hin Hain. rewrite candidate_depLast in Hcand.
      pose proof (inv_deps _ _ _ Hinv a) as Hlook.
      rewrite decide_True in Hlook by done.
      unfold edge, utils.index in Hedge.
      destruct (deps !! a) as [s|] eqn:Hd; simpl in *; [|set_solver].
      apply (Hcand a _ Hlook). set_solver.
    + split; [apply initial_invariant|]. intros Hin. by apply elem_of_nil in Hin.
Qed.

Lemma respects_edges_acyclic (depFirst : bool) (l : list string) :
  NoDup l → respects_edges keys deps depFirst l → ¬ cyclic_within keys deps.
Proof.
  intros Hnd Hres [k Hcycle].
  assert (∀ x y, tc (edge_within keys deps) x y →
                 if depFirst then precedes y x l else precedes x y l) as Hall.
  { induction 1 as [x y (Hx & Hy & Hxy)|x y z (Hx & Hy & Hxy) _ IH].
    - by apply Hres.
    - specialize (Hres x y Hx Hy Hxy).
      destruct depFirst; by eapply precedes_trans. }
  specialize (Hall k k Hcycle).
  destruct depFirst; by eapply precedes_irrefl.
Qed.

End strict_order.

(** X3: with [handleCycle] false, [TopologicalOrder] returns exactly when
    the dependencies among the keys of [keys] have no cycle; otherwise it
    panics with "Dependency cycle!".  No other outcome occurs. *)
Theorem TopologicalOrder_panics_iff_cycle
    (o : MapOrder) (keys : KeySet) (deps : DepMap) (depFirst : bool) :
  ((∃ l, utils.TopologicalOrder o keys deps depFirst false = Ok l)
   ∧ ¬ cyclic_within keys deps)
  ∨ (utils.TopologicalOrder o keys deps depFirst false = Panic "Dependency cycle!"
     ∧ cyclic_within keys deps).
Proof.
  destruct (loop_strict_cases o keys deps depFirst (utils.len keys)
              (utils.initial o keys deps)) as [[l Hl]|[Hpanic Hcycle]].
  - apply initial_invariant.
  - done.
  - left. split; [by exists l|].
    pose proof (TopologicalOrder_keys o keys deps depFirst false l Hl) as [Hnd _].
    eapply respects_edges_acyclic; [done|].
    by eapply TopologicalOrder_strict_ordered.
  - by right.
Qed.

(** X4: when [TopologicalOrder] returns with [handleCycle] false, every
    direct dependency among the keys of [keys] is in the requested order
    (the dependency first when [depFirst], the dependent key first
    otherwise), and the call with [handleCycle] true returns the same
    slice. *)
Theorem TopologicalOrder_strict_result
    (o : MapOrder) (keys : KeySet) (deps : DepMap) (depFirst : bool) (l : list string) :
  utils.TopologicalOrder o keys deps depFirst false = Ok l →
  respects_edges keys deps depFirst l
  ∧ utils.TopologicalOrder o keys deps depFirst true = Ok l.
Proof.
  intros Hl. split.
  - by eapply TopologicalOrder_strict_ordered.
  - by apply loop_handle_agrees.
Qed.

Lemma TopologicalOrder_strict_result_witness :
  respects_edges keys_chain deps_chain true ["b"; "a"]
  ∧ utils.TopologicalOrder order_id keys_chain deps_chain true true = Ok ["b"; "a"].
Proof.
  apply (TopologicalOrder_strict_result order_id keys_chain deps_chain true ["b"; "a"]).
  vm_compute. reflexivity.
Defined.

(** ** Keys that do not depend on each other *)

Section independent_keys.

Context (o : MapOrder) (keys : KeySet) (deps : DepMap).

Lemma filter_all (f : string → bool) (l : list string) :
  (∀ k, k ∈ l → f k = true) → List.filter f l = l.
Proof.
  induction l as [|x l IH]; intros Hall; simpl; [done|].
  rewrite (Hall x) by apply list_elem_of_here.
  f_equal. apply IH. intros k Hk. apply Hall. by right.
Qed.

Lemma independent_candidate (depFirst : bool) (st : utils.state) (k : string) :
  independent keys deps → loop_invariant keys deps st → k ∈ utils.remains st →
  utils.candidate o depFirst (utils.remainsDeps st) k = true.
Proof.
  intros Hind Hinv Hk. pose proof (inv_remains _ _ _ Hinv) as Hsub.
  destruct depFirst.
  - apply candidate_depFirst. rewrite (invariant_index keys deps st k Hinv Hk).
    apply set_eq. intros y. split; [|set_solver].
    intros [Hy Hyr]%elem_of_intersection. destruct (Hind k y); [set_solver..|done].
  - apply candidate_depLast. intros k2 s Hlook Hks.
    rewrite (inv_deps _ _ _ Hinv) in Hlook.
    destruct (decide (k2 ∈ utils.remains st)) as [Hk2|]; [|done].
    destruct (deps !! k2) as [s0|] eqn:Hd; simpl in Hlook; [|done].
    injection Hlook as <-. destruct (Hind k2 k); [set_solver..|].
    unfold edge, utils.index. rewrite Hd. simpl. set_solver.
Qed.

Lemma step_independent (depFirst handleCycle : bool) (st : utils.state) :
  independent keys deps → loop_invariant keys deps st → utils.remains st ≠ ∅ →
  ∃ key, utils.step o deps depFirst handleCycle st = Ok (utils.remove_key key st)
         ∧ key ∈ utils.remains st
         ∧ ∀ c, c ∈ utils.remains st → string_le key c.
Proof.
  intros Hind Hinv Hne. unfold utils.step, utils.candidates_of, utils.find_candidates.
  rewrite filter_all.
  - destruct (range o (elements (utils.remains st))) as [|c cs] eqn:Hrange.
    + exfalso. apply Hne. apply leibniz_equiv, elements_empty_inv.
      apply Permutation_nil_r. by rewrite <- (range_perm o), Hrange.
    + simpl. destruct (first_sorted_total (c :: cs)) as [key Hkey]; [done|].
      rewrite Hkey. simpl. exists key. split; [done|].
      apply first_sorted_ok in Hkey as [Hkey Hleast]. rewrite <- Hrange in Hkey, Hleast.
      split.
      * by rewrite range_elem_of, elem_of_elements in Hkey.
      * intros c' Hc'. apply Hleast. by rewrite range_elem_of, elem_of_elements.
  - intros k Hk. rewrite range_elem_of, elem_of_elements in Hk.
    by apply independent_candidate.
Qed.

Lemma sort_Strings_cons_least (key : string) (l : list string) :
  (∀ c, c ∈ l → string_le key c) → sort_Strings (key :: l) = key :: sort_Strings l.
Proof.
  intros Hleast. apply (StronglySorted_unique string_le).
  - apply sort_Strings_sorted.
  - constructor; [apply sort_Strings_sorted|].
    apply Forall_forall. intros c Hc. apply Hleast. by rewrite <- (sort_Strings_perm l).
  - by rewrite !sort_Strings_perm.
Qed.

Lemma sort_Strings_remove_least (R : KeySet) (key : string) :
  key ∈ R → (∀ c, c ∈ R → string_le key c) →
  sort_Strings (elements R) = key :: sort_Strings (elements (R ∖ {[key]})).
Proof.
  intros Hkey Hleast.
  rewrite (sort_Strings_proper (elements R) (key :: elements (R ∖ {[key]}))).
  - apply sort_Strings_cons_least. intros c Hc. apply Hleast.
    apply elem_of_elements in Hc. set_solver.
  - rewrite (union_difference_singleton_L key R Hkey) at 1.
    apply elements_union_singleton. set_solver.
Qed.

Lemma loop_independent (depFirst handleCycle : bool) (fuel : nat) (st : utils.state) :
  independent keys deps → loop_invariant keys deps st →
  size (utils.remains st) ≤ fuel →
  utils.loop o deps depFirst handleCycle fuel st
  = Ok (utils.sorted st ++ sort_Strings (elements (utils.remains st))).
Proof.
  intros Hind. revert st. induction fuel as [|fuel IH]; intros st Hinv Hsize; simpl.
  - assert (utils.remains st = ∅) as Hempty by (apply leibniz_equiv, size_empty_inv; lia).
    rewrite (proj2 (len_zero _)) by done.
    rewrite Hempty, elements_empty. by rewrite app_nil_r.
  - destruct (Nat.eqb (utils.len (utils.remains st)) 0) eqn:Hlen.
    + apply len_zero in Hlen. rewrite Hlen, elements_empty. by rewrite app_nil_r.
    + assert (utils.remains st ≠ ∅) as Hne.
      { intros Hempty. apply len_zero in Hempty. congruence. }
      destruct (step_independent depFirst handleCycle st Hind Hinv Hne)
        as (key & -> & Hkey & Hleast). simpl bind.
      rewrite IH.
      * rewrite (sort_Strings_remove_least (utils.remains st) key Hkey Hleast).
        simpl. by rewrite <- app_assoc.
      * by apply remove_key_invariant.
      * rewrite remove_key_size by done. lia.
Qed.

End independent_keys.

(** X5: when no key of [keys] depends directly on a key of [keys],
    [TopologicalOrder] returns the keys in ascending (byte-wise) order,
    whatever [depFirst] and [handleCycle] are. *)
Theorem TopologicalOrder_independent_keys
    (o : MapOrder) (keys : KeySet) (deps : DepMap) (depFirst handleCycle : bool) :
  independent keys deps →
  utils.TopologicalOrder o keys deps depFirst handleCycle
  = Ok (sort_Strings (elements keys)).
Proof.
  intros Hind. unfold utils.TopologicalOrder.
  rewrite (loop_independent o keys deps); try done.
  apply initial_invariant.
Qed.

Lemma TopologicalOrder_independent_keys_witness :
  utils.TopologicalOrder order_rev {[ "d"; "b" ]} deps_two_cycles false false
  = Ok (sort_Strings (elements ({[ "d"; "b" ]} : KeySet))).
Proof.
  apply (TopologicalOrder_independent_keys order_rev {[ "d"; "b" ]} deps_two_cycles
           false false).
  intros a b Ha Hb Hedge.
  apply elem_of_union in Ha as [Ha|Ha]; apply elem_of_singleton in Ha as ->;
    apply elem_of_union in Hb as [Hb|Hb]; apply elem_of_singleton in Hb as ->;
    vm_compute in Hedge; discriminate Hedge.
Defined.

(** ** Reversing the dependencies *)

Section transposition.

Context (o : MapOrder) (keys : KeySet) (deps deps' : DepMap).
Context (Htransposed : transposed deps deps').

Lemma transposed_depends (x y : string) : depends deps x y → depends deps' y x.
Proof.
  unfold depends. induction 1 as [x y Hxy|x y z Hxy _ IH].
  - apply tc_once. by apply Htransposed.
  - eapply tc_r; [done|]. by apply Htransposed.
Qed.

Lemma candidate_transposed (st st' : utils.state) (k : string) :
  loop_invariant keys deps st → loop_invariant keys deps' st' →
  utils.remains st = utils.remains st' → k ∈ utils.remains st →
  utils.candidate o true (utils.remainsDeps st) k
  = utils.candidate o false (utils.remainsDeps st') k.
Proof.
  intros Hinv Hinv' Hrem Hk. apply eq_true_iff_eq.
  rewrite candidate_depFirst, candidate_depLast.
  rewrite (invariant_index keys deps st k Hinv Hk). split.
  - intros Hnone k2 s Hlook Hks.
    rewrite (inv_deps _ _ _ Hinv') in Hlook.
    destruct (decide (k2 ∈ utils.remains st')) as [Hk2|]; [|done].
    destruct (deps' !! k2) as [s0|] eqn:Hd; simpl in Hlook; [|done].
    injection Hlook as <-.
    assert (edge deps k k2) as Hedge.
    { apply Htransposed. unfold edge, utils.index. rewrite Hd. simpl. set_solver. }
    unfold edge in Hedge. set_solver.
  - intros Hnone. apply set_eq. intros y. split; [|set_solver].
    intros [Hy Hyr]%elem_of_intersection. exfalso.
    apply Htransposed in Hy. unfold edge, utils.index in Hy.
    destruct (deps' !! y) as [s0|] eqn:Hd; simpl in Hy; [|set_solver].
    apply (Hnone y (s0 ∩ utils.remains st')).
    + rewrite (inv_deps _ _ _ Hinv'), decide_True by by rewrite <- Hrem.
      by rewrite Hd.
    + rewrite <- Hrem. set_solver.
Qed.

Lemma candidates_of_transposed (handleCycle : bool) (st st' : utils.state) :
  (∀ x, depends deps' x x → depends deps x x) →
  loop_invariant keys deps st → loop_invariant keys deps' st' →
  utils.remains st = utils.remains st' →
  utils.candidates_of o deps true handleCycle (utils.remains st) (utils.remainsDeps st)
  = utils.candidates_of o deps' false handleCycle (utils.remains st') (utils.remainsDeps st').
Proof.
  intros Hback Hinv Hinv' Hrem. unfold utils.candidates_of, utils.find_candidates.
  rewrite <- Hrem.
  rewrite (List.filter_ext_in
             (utils.candidate o true (utils.remainsDeps st))
             (utils.candidate o false (utils.remainsDeps st'))).
  - destruct (Nat.eqb _ 0); [|done]. destruct handleCycle; simpl; [|done].
    rewrite !cycle_candidates_eq. f_equal. apply List.filter_ext.
    intros k. apply eq_true_iff_eq. rewrite !self_dependent_true.
    split; [apply transposed_depends|apply Hback].
  - intros k Hk. apply list_elem_of_In in Hk.
    rewrite range_elem_of, elem_of_elements in Hk. by apply candidate_transposed.
Qed.

Lemma loop_transposed (handleCycle : bool) (fuel : nat) (st st' : utils.state) :
  (∀ x, depends deps' x x → depends deps x x) →
  loop_invariant keys deps st → loop_invariant keys deps' st' →
  utils.remains st = utils.remains st' → utils.sorted st = utils.sorted st' →
  utils.loop o deps true handleCycle fuel st
  = utils.loop o deps' false handleCycle fuel st'.
Proof.
  intros Hback. revert st st'.
  induction fuel as [|fuel IH]; intros st st' Hinv Hinv' Hrem Hsorted; simpl.
  - rewrite <- Hrem, Hsorted. done.
  - rewrite <- Hrem, Hsorted.
    destruct (Nat.eqb (utils.len (utils.remains st)) 0); [done|].
    unfold utils.step.
    rewrite (candidates_of_transposed handleCycle st st' Hback Hinv Hinv' Hrem).
    destruct (utils.candidates_of o deps' false handleCycle _ _) as [cs| |] eqn:Hcs;
      simpl; try done.
    destruct (utils.first_sorted cs) as [key| |] eqn:Hkey; simpl; try done.
    assert (key ∈ utils.remains st') as Hin.
    { eapply candidates_of_remains; [done|]. by apply first_sorted_ok in Hkey as [? _]. }
    apply IH.
    + apply remove_key_invariant; [done|]. by rewrite Hrem.
    + by apply remove_key_invariant.
    + simpl. by rewrite Hrem.
    + simpl. by rewrite Hsorted.
Qed.

End transposition.

(** X6: ordering dependencies first is the same as ordering dependent
    keys first after every dependency is reversed: when [deps'] has the
    direct dependencies of [deps] reversed, [TopologicalOrder] with
    [depFirst] true on [deps] and with [depFirst] false on [deps'] have
    the same outcome, for either [handleCycle]. *)
Theorem TopologicalOrder_transposed
    (o : MapOrder) (keys : KeySet) (deps deps' : DepMap) (handleCycle : bool) :
  transposed deps deps' →
  utils.TopologicalOrder o keys deps true handleCycle
  = utils.TopologicalOrder o keys deps' false handleCycle.
Proof.
  intros Htransposed. unfold utils.TopologicalOrder.
  apply (loop_transposed o keys deps deps' Htransposed); try done.
  - intros x. apply (transposed_depends deps' deps).
    intros a b. symmetry. apply Htransposed.
  - apply initial_invariant.
  - apply initial_invariant.
Qed.

Lemma TopologicalOrder_transposed_witness :
  utils.TopologicalOrder order_id keys_chain deps_chain true false
  = utils.TopologicalOrder order_id keys_chain {[ "b" := {[ "a" ]} ]} false false.
Proof.
  apply (TopologicalOrder_transposed order_id keys_chain deps_chain
           {[ "b" := {[ "a" ]} ]} false).
  intros a b. unfold edge, utils.index, deps_chain.
  destruct (decide (a = "a")) as [->|Ha], (decide (b = "b")) as [->|Hb].
  - split; intros _; vm_compute; reflexivity.
  - rewrite lookup_singleton_eq, lookup_singleton_ne by done. simpl. set_solver.
  - rewrite lookup_singleton_ne, lookup_singleton_eq by done. simpl. set_solver.
  - rewrite !lookup_singleton_ne by done. simpl. set_solver.
Defined.

(** ** The candidates in terms of the remaining keys *)

Section candidates_remaining.

Context (o : MapOrder) (keys : KeySet).

Lemma candidate_depFirst_remains (d : DepMap) (st : utils.state) (k : string) :
  loop_invariant keys d st → k ∈ utils.remains st →
  utils.candidate o true (utils.remainsDeps st) k = true
  ↔ ∀ k2, k2 ∈ utils.remains st → ¬ edge d k k2.
Proof.
  intros Hinv Hk. rewrite candidate_depFirst, (invariant_index keys d st k Hinv Hk).
  unfold edge. set_solver.
Qed.

Lemma candidate_depLast_remains (d : DepMap) (st : utils.state) (k : string) :
  loop_invariant keys d st → k ∈ utils.remains st →
  utils.candidate o false (utils.remainsDeps st) k = true
  ↔ ∀ k2, k2 ∈ utils.remains st → ¬ edge d k2 k.
Proof.
  intros Hinv Hk. rewrite candidate_depLast. split.
  - intros Hnone k2 Hk2 Hedge. unfold edge, utils.index in Hedge.
    destruct (d !! k2) as [s0|] eqn:Hd; simpl in Hedge; [|set_solver].
    apply (Hnone k2 (s0 ∩ utils.remains st)); [|set_solver].
    rewrite (inv_deps _ _ _ Hinv), decide_True by done. by rewrite Hd.
  - intros Hnone k2 s Hlook Hks.
    rewrite (inv_deps _ _ _ Hinv) in Hlook.
    destruct (decide (k2 ∈ utils.remains st)) as [Hk2|]; [|done].
    destruct (d !! k2) as [s0|] eqn:Hd; simpl in Hlook; [|done].
    injection Hlook as <-. apply (Hnone k2 Hk2).
    unfold edge, utils.index. rewrite Hd. simpl. set_solver.
Qed.

End candidates_remaining.

(** ** Dependencies that leave the key set *)

Section locality.

Context (o : MapOrder) (keys : KeySet) (deps deps' : DepMap).
Context (Hagree : agree_within keys deps deps').

Lemma candidate_agree (depFirst : bool) (st st' : utils.state) (k : string) :
  loop_invariant keys deps st → loop_invariant keys deps' st' →
  utils.remains st = utils.remains st' → k ∈ utils.remains st →
  utils.candidate o depFirst (utils.remainsDeps st) k
  = utils.candidate o depFirst (utils.remainsDeps st') k.
Proof.
  intros Hinv Hinv' Hrem Hk. apply eq_true_iff_eq.
  pose proof (inv_remains _ _ _ Hinv) as Hsub.
  destruct depFirst.
  - rewrite (candidate_depFirst_remains o keys deps st k Hinv Hk).
    rewrite (candidate_depFirst_remains o keys deps' st' k Hinv') by by rewrite <- Hrem.
    rewrite <- Hrem. split; intros Hnone k2 Hk2 Hedge; apply (Hnone k2 Hk2);
      apply Hagree; try done; set_solver.
  - rewrite (candidate_depLast_remains o keys deps st k Hinv Hk).
    rewrite (candidate_depLast_remains o keys deps' st' k Hinv') by by rewrite <- Hrem.
    rewrite <- Hrem. split; intros Hnone k2 Hk2 Hedge; apply (Hnone k2 Hk2);
      apply Hagree; try done; set_solver.
Qed.

Lemma candidates_of_agree (depFirst handleCycle : bool) (st st' : utils.state) :
  (handleCycle = true → agree_on_cycles keys deps deps') →
  loop_invariant keys deps st → loop_invariant keys deps' st' →
  utils.remains st = utils.remains st' →
  utils.candidates_of o deps depFirst handleCycle (utils.remains st) (utils.remainsDeps st)
  = utils.candidates_of o deps' depFirst handleCycle
      (utils.remains st') (utils.remainsDeps st').
Proof.
  intros Hcycles Hinv Hinv' Hrem. unfold utils.candidates_of, utils.find_candidates.
  rewrite <- Hrem.
  rewrite (List.filter_ext_in
             (utils.candidate o depFirst (utils.remainsDeps st))
             (utils.candidate o depFirst (utils.remainsDeps st'))).
  - destruct (Nat.eqb _ 0); [|done]. destruct handleCycle; simpl; [|done].
    rewrite !cycle_candidates_eq. f_equal. apply List.filter_ext_in.
    intros k Hk. apply list_elem_of_In in Hk.
    rewrite range_elem_of, elem_of_elements in Hk.
    apply eq_true_iff_eq. rewrite !self_dependent_true.
    apply Hcycles; [done|]. by apply (inv_remains _ _ _ Hinv).
  - intros k Hk. apply list_elem_of_In in Hk.
    rewrite range_elem_of, elem_of_elements in Hk. by apply candidate_agree.
Qed.

Lemma loop_agree (depFirst handleCycle : bool) (fuel : nat) (st st' : utils.state) :
  (handleCycle = true → agree_on_cycles keys deps deps') →
  loop_invariant keys deps st → loop_invariant keys deps' st' →
  utils.remains st = utils.remains st' → utils.sorted st = utils.sorted st' →
  utils.loop o deps depFirst handleCycle fuel st
  = utils.loop o deps' depFirst handleCycle fuel st'.
Proof.
  intros Hcycles. revert st st'.
  induction fuel as [|fuel IH]; intros st st' Hinv Hinv' Hrem Hsorted; simpl.
  - rewrite <- Hrem, Hsorted. done.
  - rewrite <- Hrem, Hsorted.
    destruct (Nat.eqb (utils.len (utils.remains st)) 0); [done|].
    unfold utils.step.
    rewrite (candidates_of_agree depFirst handleCycle st st' Hcycles Hinv Hinv' Hrem).
    destruct (utils.candidates_of o deps' depFirst handleCycle _ _) as [cs| |] eqn:Hcs;
      simpl; try done.
    destruct (utils.first_sorted cs) as [key| |] eqn:Hkey; simpl; try done.
    assert (key ∈ utils.remains st') as Hin.
    { eapply candidates_of_remains; [done|]. by apply first_sorted_ok in Hkey as [? _]. }
    apply IH.
    + apply remove_key_invariant; [done|]. by rewrite Hrem.
    + by apply remove_key_invariant.
    + simpl. by rewrite Hrem.
    + simpl. by rewrite Hsorted.
Qed.

End locality.

(** X7: with [handleCycle] false the outcome of [TopologicalOrder] is
    decided by the direct dependencies among the keys of [keys] alone:
    entries of [deps] for other keys and dependencies on other keys do not
    matter.  With [handleCycle] true they matter only through which keys
    of [keys] depend on themselves in the whole of [deps]. *)
Theorem TopologicalOrder_dependencies_within_keys
    (o : MapOrder) (keys : KeySet) (deps deps' : DepMap) (depFirst handleCycle : bool) :
  agree_within keys deps deps' →
  (handleCycle = true → agree_on_cycles keys deps deps') →
  utils.TopologicalOrder o keys deps depFirst handleCycle
  = utils.TopologicalOrder o keys deps' depFirst handleCycle.
Proof.
  intros Hagree Hcycles. unfold utils.TopologicalOrder.
  apply (loop_agree o keys deps deps' Hagree); try done; apply initial_invariant.
Qed.

Lemma TopologicalOrder_dependencies_within_keys_witness :
  utils.TopologicalOrder order_id {[ "d"; "b" ]} deps_two_cycles true false
  = utils.TopologicalOrder order_id {[ "d"; "b" ]} ∅ true false.
Proof.
  apply (TopologicalOrder_dependencies_within_keys order_id {[ "d"; "b" ]}
           deps_two_cycles ∅ true false).
  - intros a b Ha Hb.
    apply elem_of_union in Ha as [Ha|Ha]; apply elem_of_singleton in Ha as ->;
      apply elem_of_union in Hb as [Hb|Hb]; apply elem_of_singleton in Hb as ->;
      split; intros Hedge; vm_compute in Hedge; discriminate Hedge.
  - intros Hhandle. discriminate Hhandle.
Defined.

(** ** The least topological order *)

Section least_order.

Context (o : MapOrder) (keys : KeySet) (deps : DepMap).

Lemma not_precedes_head (x y : string) (r : list string) :
  NoDup (x :: r) → ¬ precedes y x (x :: r).
Proof.
  intros Hnd (i & j & Hlt & Hi & Hj).
  destruct j as [|j]; [lia|]. simpl in Hj.
  apply NoDup_cons in Hnd as [Hx _]. apply Hx. by eapply list_elem_of_lookup_2.
Qed.

Lemma precedes_tail (a b x : string) (r : list string) :
  a ≠ x → precedes a b (x :: r) → precedes a b r.
Proof.
  intros Hne (i & j & Hlt & Hi & Hj).
  destruct i as [|i]; simpl in Hi; [congruence|].
  destruct j as [|j]; [lia|]. simpl in Hj.
  exists i, j. split; [lia|done].
Qed.

(** A topological order of the remaining keys starts with a candidate. *)
Lemma head_candidate (depFirst : bool) (st : utils.state) (x : string) (r : list string) :
  loop_invariant keys deps st →
  topological (utils.remains st) deps depFirst (x :: r) →
  utils.candidate o depFirst (utils.remainsDeps st) x = true.
Proof.
  intros Hinv (Hnd & Hall & Hres).
  assert (x ∈ utils.remains st) as Hx by (apply Hall; by left).
  destruct depFirst.
  - apply (candidate_depFirst_remains o keys deps st x Hinv Hx).
    intros k2 Hk2 Hedge. apply (not_precedes_head x k2 r Hnd).
    by apply (Hres x k2).
  - apply (candidate_depLast_remains o keys deps st x Hinv Hx).
    intros k2 Hk2 Hedge. apply (not_precedes_head x k2 r Hnd).
    by apply (Hres k2 x).
Qed.

Lemma topological_tail (depFirst : bool) (R : KeySet) (x : string) (r : list string) :
  topological R deps depFirst (x :: r) →
  topological (R ∖ {[x]}) deps depFirst r.
Proof.
  intros (Hnd & Hall & Hres). apply NoDup_cons in Hnd as [Hx Hnd].
  split; [done|]. split.
  - intros k. rewrite elem_of_difference, <- Hall, elem_of_cons, elem_of_singleton.
    split; [|naive_solver]. intros Hk. split; [by right|]. by intros ->.
  - intros a b [Ha Hax]%elem_of_difference [Hb Hbx]%elem_of_difference Hedge.
    apply not_elem_of_singleton in Hax, Hbx.
    specialize (Hres a b Ha Hb Hedge).
    destruct depFirst; by eapply precedes_tail.
Qed.

Lemma loop_extends (depFirst handleCycle : bool) (fuel : nat) (st : utils.state)
    (l : list string) :
  utils.loop o deps depFirst handleCycle fuel st = Ok l →
  ∃ r, l = utils.sorted st ++ r.
Proof.
  revert st. induction fuel as [|fuel IH]; intros st; simpl.
  - destruct (Nat.eqb (utils.len (utils.remains st)) 0); [|done].
    intros [= <-]. exists []. by rewrite app_nil_r.
  - destruct (Nat.eqb (utils.len (utils.remains st)) 0).
    + intros [= <-]. exists []. by rewrite app_nil_r.
    + destruct (utils.step o deps depFirst handleCycle st) as [st'| |] eqn:Hstep;
        simpl; try done.
      apply step_inv in Hstep as (cs & key & _ & _ & ->).
      intros [r ->]%IH. simpl. exists (key :: r). by rewrite <- app_assoc.
Qed.

Lemma loop_least (depFirst : bool) (fuel : nat) (st : utils.state) (l r' : list string) :
  loop_invariant keys deps st →
  utils.loop o deps depFirst false fuel st = Ok l →
  topological (utils.remains st) deps depFirst r' →
  ∃ r, l = utils.sorted st ++ r ∧ lex_le r r'.
Proof.
  revert st r'. induction fuel as [|fuel IH]; intros st r' Hinv; simpl.
  - destruct (Nat.eqb (utils.len (utils.remains st)) 0); [|done].
    intros [= <-] _. exists []. by rewrite app_nil_r.
  - destruct (Nat.eqb (utils.len (utils.remains st)) 0) eqn:Hlen.
    { intros [= <-] _. exists []. by rewrite app_nil_r. }
    assert (utils.remains st ≠ ∅) as Hne.
    { intros Hempty. apply len_zero in Hempty. congruence. }
    destruct (utils.step o deps depFirst false st) as [st'| |] eqn:Hstep;
      simpl; try done.
    intros Hloop Htopo.
    apply step_inv in Hstep as (cs & key & Hcs & Hkey & ->).
    apply candidates_of_strict in Hcs as [-> _].
    apply first_sorted_ok in Hkey as [Hkey Hleast].
    apply find_candidates_elem in Hkey as [Hkey _].
    destruct r' as [|x r''].
    { destruct Htopo as (_ & Hall & _). apply Hall in Hkey. by apply elem_of_nil in Hkey. }
    assert (string_le key x) as Hle.
    { apply Hleast, find_candidates_elem. split.
      - destruct Htopo as (_ & Hall & _). apply Hall. by left.
      - by eapply head_candidate. }
    destruct (decide (key = x)) as [->|Hneq].
    + destruct (IH (utils.remove_key x st) r'') as (r & -> & Hlex); [| done | |].
      * by apply remove_key_invariant.
      * simpl. unfold utils.Del. by apply topological_tail.
      * simpl. exists (x :: r). split; [by rewrite <- app_assoc|]. by right.
    + apply loop_extends in Hloop as [r ->]. simpl.
      exists (key :: r). split; [by rewrite <- app_assoc|]. by left.
Qed.

End least_order.

(** X18: when [TopologicalOrder] returns with [handleCycle] false, its
    output is a topological order of [keys] (each key once, every direct
    dependency among them in the requested order), and it comes first in
    the lexicographic order among all topological orders of [keys]. *)
Theorem TopologicalOrder_least
    (o : MapOrder) (keys : KeySet) (deps : DepMap) (depFirst : bool) (l : list string) :
  utils.TopologicalOrder o keys deps depFirst false = Ok l →
  topological keys deps depFirst l
  ∧ ∀ l', topological keys deps depFirst l' → lex_le l l'.
Proof.
  intros Hl. split.
  - destruct (TopologicalOrder_keys o keys deps depFirst false l Hl) as [Hnd Hall].
    split; [done|]. split; [done|]. by eapply TopologicalOrder_strict_ordered.
  - intros l' Htopo. unfold utils.TopologicalOrder in Hl.
    destruct (loop_least o keys deps depFirst _ _ l l' (initial_invariant o keys deps) Hl)
      as (r & -> & Hlex); done.
Qed.

(** The three topological orders of [keys_fork] with dependencies first
    are [b c a], [c a b] and [c b a]; the output is the first of them. *)
Lemma topological_fork (l : list string) :
  l ∈ [["b"; "c"; "a"]; ["c"; "a"; "b"]; ["c"; "b"; "a"]] →
  topological keys_fork deps_fork true l.
Proof.
  intros Hl. split; [|split].
  - repeat (apply elem_of_cons in Hl as [->|Hl]);
      [..|by apply elem_of_nil in Hl];
      repeat (apply NoDup_cons; split; [set_solver|]); apply NoDup_nil_2.
  - intros k. unfold keys_fork. rewrite !elem_of_union, !elem_of_singleton.
    repeat (apply elem_of_cons in Hl as [->|Hl]);
      [..|by apply elem_of_nil in Hl];
      rewrite !elem_of_cons, elem_of_nil; naive_solver.
  - intros a b Ha Hb Hedge. unfold keys_fork in Ha, Hb.
    rewrite !elem_of_union, !elem_of_singleton in Ha, Hb.
    destruct Ha as [[->| ->]| ->]; destruct Hb as [[->| ->]| ->];
      try (vm_compute in Hedge; discriminate Hedge).
    repeat (apply elem_of_cons in Hl as [->|Hl]); [..|by apply elem_of_nil in Hl].
    + exists 1, 2. split; [lia|]. split; reflexivity.
    + exists 0, 1. split; [lia|]. split; reflexivity.
    + exists 0, 2. split; [lia|]. split; reflexivity.
Qed.

Lemma TopologicalOrder_least_witness :
  topological keys_fork deps_fork true ["b"; "c"; "a"]
  ∧ lex_le ["b"; "c"; "a"] ["c"; "a"; "b"]
  ∧ lex_le ["b"; "c"; "a"] ["c"; "b"; "a"].
Proof.
  destruct (TopologicalOrder_least order_id keys_fork deps_fork true ["b"; "c"; "a"])
    as [Htopo Hleast].
  - vm_compute. reflexivity.
  - split; [exact Htopo|]. split; apply Hleast, topological_fork.
    + right. left.
    + right. right. left.
Defined.

(** ** Walks along the sources of derived nodes *)

Section follow_bound.

Import kvscheduler.

Context (g : Graph) (next : Node → option Node).
Context (Hnext : ∀ n b, next n = Some b → g !! GetKey b = Some b.2).

Lemma follow_add (i j : nat) (n : Node) :
  follow next (i + j) n = follow next i n ≫= follow next j.
Proof.
  revert n. induction i as [|i IH]; intros n; simpl; [done|].
  destruct (next n) as [b|]; [apply IH|done].
Qed.

Lemma follow_prefix (i j : nat) (n : Node) :
  i ≤ j → is_Some (follow next j n) → is_Some (follow next i n).
Proof.
  intros Hle. replace j with (i + (j - i)) by lia. rewrite follow_add.
  destruct (follow next i n); [by eexists|]. by intros [? [=]].
Qed.

Lemma follow_node (i : nat) (n b : Node) :
  follow next (S i) n = Some b → g !! GetKey b = Some b.2.
Proof.
  revert n. induction i as [|i IH]; intros n; simpl.
  - destruct (next n) as [b0|] eqn:Hn; [|done]. intros [= <-]. by eapply Hnext.
  - destruct (next n) as [b0|]; [|done]. apply IH.
Qed.

Lemma follow_repeat (n : Node) :
  is_Some (follow next (S (size g)) n) →
  ∃ i j b, i < j ∧ follow next i n = Some b ∧ follow next j n = Some b.
Proof.
  intros Hlong.
  assert (∀ i, i ≤ size g → ∃ b, follow next (S i) n = Some b ∧ g !! GetKey b = Some b.2)
    as Hnodes.
  { intros i Hi. destruct (follow_prefix (S i) (S (size g)) n) as [b Hb]; [lia|done|].
    exists b. split; [done|]. by eapply follow_node. }
  set (key_at := λ i, from_option GetKey "" (follow next (S i) n)).
  destruct (pigeonhole_keys (key_at <$> seq 0 (S (size g))) (dom g))
    as (i & j & k & Hlt & Hi & Hj).
  - intros k (i & -> & Hi)%list_elem_of_fmap. apply elem_of_seq in Hi.
    destruct (Hnodes i) as (b & Hb & Hnode); [lia|].
    unfold key_at. rewrite Hb. simpl. apply elem_of_dom. by eexists.
  - rewrite length_fmap, length_seq, size_dom. lia.
  - apply list_lookup_fmap_Some in Hi as (i' & -> & Hi').
    apply list_lookup_fmap_Some in Hj as (j' & Hkey & Hj').
    apply lookup_seq in Hi' as [-> Hi'], Hj' as [-> Hj']. cbn [Nat.add] in *.
    destruct (Hnodes i) as (bi & Hbi & Hnodei); [lia|].
    destruct (Hnodes j) as (bj & Hbj & Hnodej); [lia|].
    unfold key_at in Hkey. rewrite Hbi, Hbj in Hkey. cbn [from_option] in Hkey.
    exists (S i), (S j), bi. split; [lia|]. split; [done|].
    rewrite Hbj. f_equal. destruct bi as [ki di], bj as [kj dj].
    unfold GetKey in *. cbn [fst snd] in *. subst kj. congruence.
Qed.

(** A walk longer than the graph has nodes goes on for ever. *)
Lemma follow_forever (n : Node) :
  is_Some (follow next (S (size g)) n) → ∀ k, is_Some (follow next k n).
Proof.
  intros (i & j & b & Hlt & Hi & Hj)%follow_repeat k.
  induction (lt_wf k) as [k _ IH].
  destruct (decide (k ≤ j)) as [Hle|Hgt].
  - apply (follow_prefix k j); [done|by eexists].
  - replace k with (j + (k - j)) by lia. rewrite follow_add, Hj. simpl.
    assert (is_Some (follow next (i + (k - j)) n)) as Hsome by (apply IH; lia).
    by rewrite follow_add, Hi in Hsome.
Qed.

(** A walk that ends has ended within the number of nodes. *)
Lemma follow_end_bound (i : nat) (n b : Node) :
  follow next i n = Some b → next b = None → i ≤ size g.
Proof.
  intros Hi Hend. destruct (decide (i ≤ size g)) as [|Hgt]; [done|]. exfalso.
  assert (is_Some (follow next (S (size g)) n)) as Hlong.
  { apply (follow_prefix _ i); [lia|by eexists]. }
  destruct (follow_forever n Hlong (i + 1)) as [x Hx].
  rewrite follow_add, Hi in Hx. simpl in Hx. by rewrite Hend in Hx.
Qed.

End follow_bound.

Section node_base.

Import kvscheduler.

Context (g : Graph).

Lemma first_source_node (n b : Node) :
  first_source g n = Some b → g !! GetKey b = Some b.2.
Proof.
  unfold first_source, GetSources. intros Hhead.
  assert (b ∈ omap (GetNode g) (sources n.2 DerivesRelation)) as Hin.
  { destruct (omap (GetNode g) (sources n.2 DerivesRelation)) as [|b0 rest]; [done|].
    injection Hhead as ->. by left. }
  apply list_elem_of_omap in Hin as (k & _ & Hk).
  unfold GetNode in Hk. destruct (g !! k) as [d|] eqn:Hd; simpl in Hk; [|done].
  by injection Hk as <-.
Qed.

Lemma first_source_None (n : Node) :
  first_source g n = None ↔ GetSources g n DerivesRelation = [].
Proof. unfold first_source. by destruct (GetSources g n DerivesRelation). Qed.

Lemma getNodeBase_rec_OutOfFuel (fuel : nat) (n : Node) :
  getNodeBase_rec fuel g n = OutOfFuel ↔ is_Some (follow (first_source g) fuel n).
Proof.
  revert n. induction fuel as [|fuel IH]; intros n; simpl.
  - split; [by eexists|done].
  - unfold first_source. destruct (GetSources g n DerivesRelation) as [|b rest]; simpl.
    + split; [done|]. by intros [? [=]].
    + apply IH.
Qed.

Lemma getNodeBase_rec_walk (fuel i : nat) (n b : Node) :
  follow (first_source g) i n = Some b → first_source g b = None → i < fuel →
  getNodeBase_rec fuel g n = Ok b.
Proof.
  revert i n. induction fuel as [|fuel IH]; intros i n Hi Hend Hlt; [lia|]. simpl.
  destruct i as [|i]; simpl in Hi.
  - injection Hi as ->. apply first_source_None in Hend. by rewrite Hend.
  - unfold first_source in Hi.
    destruct (GetSources g n DerivesRelation) as [|s rest]; simpl in Hi; [done|].
    apply (IH i); [done|done|lia].
Qed.

Lemma getNodeBase_rec_Ok (fuel : nat) (n b : Node) :
  getNodeBase_rec fuel g n = Ok b →
  ∃ i, follow (first_source g) i n = Some b ∧ first_source g b = None.
Proof.
  revert n. induction fuel as [|fuel IH]; intros n; simpl; [done|].
  destruct (GetSources g n DerivesRelation) as [|s rest] eqn:Hs.
  - intros [= <-]. exists 0. split; [done|]. by apply first_source_None.
  - intros (i & Hi & Hend)%IH. exists (S i). split; [|done].
    simpl. unfold first_source. by rewrite Hs.
Qed.

Lemma getNodeBase_rec_no_panic (fuel : nat) (n : Node) (msg : string) :
  getNodeBase_rec fuel g n ≠ Panic msg.
Proof.
  revert n. induction fuel as [|fuel IH]; intros n; simpl; [done|].
  destruct (GetSources g n DerivesRelation) as [|s rest]; [done|apply IH].
Qed.

Lemma turns_follow (i : nat) (n : Node) : turns g i n = follow (next_base g) i n.
Proof.
  revert n. induction i as [|i IH]; intros n; simpl; [done|].
  destruct (next_base g n); [apply IH|done].
Qed.

Lemma next_base_None (b : Node) :
  next_base g b = None ↔ GetSources g b DerivesRelation = [] ∨ pending_source g b.
Proof.
  unfold next_base, pending_source, first_source.
  destruct (GetSources g b DerivesRelation) as [|s rest]; simpl.
  - split; [by left|done].
  - destruct (isNodePending s) eqn:Hp.
    + split; [|done]. intros _. right. by exists s.
    + split; [done|]. intros [[=]|(s' & [= <-] & Hs')]. congruence.
Qed.

(** Where the walk of [isNodeBeingRemoved] ends, the search returns what
    it finds there. *)
Lemma find_base_walk (fuel i : nat) (n b : Node) :
  turns g i n = Some b → next_base g b = None → i < fuel →
  find_base fuel g n = find_base 1 g b.
Proof.
  revert i n. induction fuel as [|fuel IH]; intros i n Hi Hend Hlt; [lia|].
  destruct i as [|i]; simpl in Hi.
  - injection Hi as ->. simpl. unfold next_base in Hend.
    destruct (GetSources g b DerivesRelation) as [|s rest]; [done|].
    by destruct (isNodePending s).
  - cbn [find_base]. unfold next_base in Hi.
    destruct (GetSources g n DerivesRelation) as [|s rest]; [done|].
    destruct (isNodePending s); [done|]. apply (IH i); [done|done|lia].
Qed.

Lemma turns_end_bound (i : nat) (n b : Node) :
  turns g i n = Some b → next_base g b = None → i ≤ size g.
Proof.
  rewrite turns_follow. apply follow_end_bound. apply next_base_node.
Qed.

(** A search that finds a base has walked along nodes that are not
    pending, as [getNodeBase] walks. *)
Lemma find_base_getNodeBase (fuel : nat) (n base : Node) :
  find_base fuel g n = Ok (Base base) →
  getNodeBase_rec fuel g n = Ok base ∧ (base = n ∨ isNodePending base = false).
Proof.
  revert n. induction fuel as [|fuel IH]; intros n; simpl; [done|].
  destruct (GetSources g n DerivesRelation) as [|s rest].
  - intros [= <-]. split; [done|by left].
  - destruct (isNodePending s) eqn:Hp; [done|].
    intros [Hbase [->|Hpend]]%IH; (split; [done|]); by right.
Qed.

End node_base.

(** X8: [isNodeBeingRemoved] never panics.  For a node that is not
    derived it returns whether the [LastChange] flag is set with a nil
    value.  For a derived node it walks along the first sources: it
    returns true where the first source is pending, and where there is no
    source it returns true for a derived node and otherwise whether that
    node's [LastChange] value is nil.  It fails to return exactly when
    that walk never ends, which takes a cycle of sources. *)
Theorem isNodeBeingRemoved_outcome (g : kvscheduler.Graph) (n : kvscheduler.Node) :
  (∀ msg, kvscheduler.isNodeBeingRemoved g n ≠ Panic msg)
  ∧ (kvscheduler.isNodeBeingRemoved g n = OutOfFuel
     ↔ kvscheduler.isNodeDerived n = true ∧ ∀ i, is_Some (turns g i n))
  ∧ (kvscheduler.isNodeDerived n = false →
     kvscheduler.isNodeBeingRemoved g n = Ok (kvscheduler.removed_by_transaction n))
  ∧ (kvscheduler.isNodeDerived n = true →
     ∀ i b, turns g i n = Some b →
       (pending_source g b → kvscheduler.isNodeBeingRemoved g n = Ok true)
       ∧ (kvscheduler.GetSources g b kvscheduler.DerivesRelation = [] →
          kvscheduler.isNodeBeingRemoved g n
          = Ok (kvscheduler.isNodeDerived b || kvscheduler.removed_by_transaction b))).
Proof.
  split; [intros msg; apply isNodeBeingRemoved_no_panic|].
  split; [|split].
  - split.
    + intros Hout. split.
      * unfold kvscheduler.isNodeBeingRemoved in Hout.
        by destruct (kvscheduler.isNodeDerived n).
      * intros i. apply find_base_OutOfFuel. by apply isNodeBeingRemoved_OutOfFuel.
    + intros [Hderived Hall]. unfold kvscheduler.isNodeBeingRemoved. rewrite Hderived.
      by rewrite (proj2 (find_base_OutOfFuel g (S (size g)) n) (Hall _)).
  - intros Hderived. unfold kvscheduler.isNodeBeingRemoved. by rewrite Hderived.
  - intros Hderived i b Hi.
    assert (next_base g b = None →
            kvscheduler.find_base (S (size g)) g n = kvscheduler.find_base 1 g b) as Hwalk.
    { intros Hend. apply (find_base_walk g _ i); [done|done|].
      pose proof (turns_end_bound g i n b Hi Hend). lia. }
    unfold kvscheduler.isNodeBeingRemoved. rewrite Hderived. split.
    + intros Hpending. rewrite Hwalk by (apply next_base_None; by right).
      destruct Hpending as (s & Hs & Hp). unfold first_source in Hs. simpl.
      destruct (kvscheduler.GetSources g b kvscheduler.DerivesRelation) as [|s' rest];
        [done|].
      injection Hs as ->. by rewrite Hp.
    + intros Hnone. rewrite Hwalk by (apply next_base_None; by left).
      simpl. rewrite Hnone. simpl. by destruct (kvscheduler.isNodeDerived b).
Qed.

(** X9: [getNodeBase] returns exactly when the walk along the first
    sources ends, with the node the walk ends at: a node without sources,
    which is its own base.  When the walk never ends, which takes a cycle
    of sources, the recursion never reaches a base and the call ends in
    the fatal error "stack overflow"; there is no other outcome. *)
Theorem getNodeBase_walk (g : kvscheduler.Graph) (n : kvscheduler.Node) :
  (∀ base, kvscheduler.getNodeBase g n = Ok base
       ↔ ∃ i, follow (first_source g) i n = Some base
              ∧ kvscheduler.GetSources g base kvscheduler.DerivesRelation = [])
  ∧ (kvscheduler.getNodeBase g n = Panic "fatal error: stack overflow"
     ↔ ∀ i, is_Some (follow (first_source g) i n))
  ∧ ((∃ base, kvscheduler.getNodeBase g n = Ok base)
     ∨ kvscheduler.getNodeBase g n = Panic "fatal error: stack overflow")
  ∧ (∀ base, kvscheduler.getNodeBase g n = Ok base →
       kvscheduler.getNodeBase g base = Ok base).
Proof.
  unfold kvscheduler.getNodeBase.
  pose proof (getNodeBase_rec_OutOfFuel g (S (size g)) n) as Hout.
  pose proof (getNodeBase_rec_no_panic g (S (size g)) n) as Hpanic.
  split; [|split; [|split]].
  - intros base. split.
    + destruct (kvscheduler.getNodeBase_rec (S (size g)) g n) as [b| |] eqn:Hrun;
        try done.
      intros [= ->]. apply getNodeBase_rec_Ok in Hrun as (i & Hi & Hend).
      exists i. split; [done|]. by apply first_source_None.
    + intros (i & Hi & Hend). apply first_source_None in Hend.
      rewrite (getNodeBase_rec_walk g _ i n base); [done|done|done|].
      pose proof (follow_end_bound g (first_source g) (first_source_node g) i n base
                    Hi Hend). lia.
  - split.
    + destruct (kvscheduler.getNodeBase_rec (S (size g)) g n) as [b|msg|] eqn:Hrun.
      * done.
      * by destruct (Hpanic msg).
      * intros _. apply (follow_forever g (first_source g) (first_source_node g)).
        by apply Hout.
    + intros Hall. by rewrite (proj2 Hout (Hall _)).
  - destruct (kvscheduler.getNodeBase_rec (S (size g)) g n) as [b|msg|] eqn:Hrun.
    + left. by exists b.
    + by destruct (Hpanic msg).
    + by right.
  - intros base Hbase.
    destruct (kvscheduler.getNodeBase_rec (S (size g)) g n) as [b| |] eqn:Hrun;
      try done.
    injection Hbase as ->. apply getNodeBase_rec_Ok in Hrun as (i & Hi & Hend).
    by rewrite (getNodeBase_rec_walk g _ 0 base base); [| | |lia].
Qed.

Example run_getNodeBase_derived :
  kvscheduler.getNodeBase graph_derived ("v/d/e", node_vde) = Ok ("v", node_v).
Proof. vm_compute. reflexivity. Qed.

Example run_getNodeBase_cycle :
  kvscheduler.getNodeBase graph_sb_loop ("x", node_x_derived)
  = Panic "fatal error: stack overflow".
Proof. vm_compute. reflexivity. Qed.

(** X10: a derived node that [isNodeBeingRemoved] finds not to be removed
    has a base: [getNodeBase] returns for it, and the base is not derived
    (so it can have metadata), not pending and not given a nil value by
    the last change. *)
Theorem derived_node_kept_has_base (g : kvscheduler.Graph) (n : kvscheduler.Node) :
  kvscheduler.isNodeDerived n = true →
  kvscheduler.isNodeBeingRemoved g n = Ok false →
  ∃ base, kvscheduler.getNodeBase g n = Ok base
          ∧ kvscheduler.canNodeHaveMetadata base = true
          ∧ kvscheduler.isNodePending base = false
          ∧ kvscheduler.getNodeLastChange base ≠ Some None.
Proof.
  intros Hderived. unfold kvscheduler.isNodeBeingRemoved. rewrite Hderived.
  destruct (kvscheduler.find_base (S (size g)) g n) as [[|base]| |] eqn:Hfind;
    simpl; try done.
  destruct (kvscheduler.isNodeDerived base) eqn:Hbase; [done|].
  intros [= Hkept]. apply find_base_getNodeBase in Hfind as [Hget Hpend].
  exists base. split; [unfold kvscheduler.getNodeBase; by rewrite Hget|].
  split; [unfold kvscheduler.canNodeHaveMetadata; by rewrite Hbase|]. split.
  - destruct Hpend as [->|]; [congruence|done].
  - unfold kvscheduler.removed_by_transaction in Hkept. intros Hnil.
    by rewrite Hnil in Hkept.
Qed.

Lemma derived_node_kept_has_base_witness :
  ∃ base, kvscheduler.getNodeBase graph_derived ("v/d/e", node_vde) = Ok base
          ∧ kvscheduler.canNodeHaveMetadata base = true
          ∧ kvscheduler.isNodePending base = false
          ∧ kvscheduler.getNodeLastChange base ≠ Some None.
Proof.
  apply (derived_node_kept_has_base graph_derived ("v/d/e", node_vde)).
  - reflexivity.
  - vm_compute. reflexivity.
Defined.

(** ** isNodeReady and the order of the dependencies *)

Section node_ready_order.

Import kvscheduler.

Context (o1 o2 : MapOrder) (g : Graph) (src : Node).

Lemma forallb_order {A : Type} (f1 f2 : A → bool) (l1 l2 : list A) :
  l1 ≡ₚ l2 → (∀ x, x ∈ l1 → f1 x = f2 x) → forallb f1 l1 = forallb f2 l2.
Proof.
  intros Hp Hext. apply eq_true_iff_eq. rewrite !forallb_forall. split.
  - intros Hall x Hx. apply list_elem_of_In in Hx. rewrite <- Hp in Hx.
    rewrite <- Hext by done. apply Hall. by apply list_elem_of_In.
  - intros Hall x Hx. apply list_elem_of_In in Hx. rewrite Hext by done.
    apply Hall. apply list_elem_of_In. by rewrite <- Hp.
Qed.

Lemma existsb_order {A : Type} (f1 f2 : A → bool) (l1 l2 : list A) :
  l1 ≡ₚ l2 → (∀ x, x ∈ l1 → f1 x = f2 x) → existsb f1 l1 = existsb f2 l2.
Proof.
  intros Hp Hext. apply eq_true_iff_eq. rewrite !existsb_exists. split.
  - intros (x & Hx & Hf). apply list_elem_of_In in Hx. exists x. split.
    + apply list_elem_of_In. by rewrite <- Hp.
    + by rewrite <- Hext.
  - intros (x & Hx & Hf). apply list_elem_of_In in Hx. rewrite <- Hp in Hx.
    exists x. split; [by apply list_elem_of_In|]. by rewrite Hext.
Qed.

Lemma leads_back_ext (rec1 rec2 : Node → KeySet → result (bool * KeySet))
    (V : KeySet) (t : Node) :
  (GetKey t ∉ V → rec1 t V = rec2 t V) →
  leads_back rec1 src V t = leads_back rec2 src V t.
Proof.
  intros Hrec. unfold leads_back.
  destruct (bool_decide (GetKey t ∈ V)) eqn:Hvis; cbn [negb andb]; [done|].
  apply bool_decide_eq_false in Hvis. by rewrite Hrec.
Qed.

Lemma isNodeReadyRec_order (fuel : nat) (cur : Node) (V : KeySet) :
  removal_decided g → node_of g cur → GetKey cur ∉ V →
  size (dom g ∖ V) ≤ fuel →
  isNodeReadyRec o1 fuel g src cur V = isNodeReadyRec o2 fuel g src cur V.
Proof.
  intros Hrem. revert cur V.
  induction fuel as [|fuel IH]; intros cur V Hnode Hcur Hsize; [done|].
  rewrite !isNodeReadyRec_unfold by done.
  pose proof (unvisited_add g cur V Hnode Hcur) as Hlt.
  assert (range o1 (GetTargets g cur DependencyRelation)
          ≡ₚ range o2 (GetTargets g cur DependencyRelation)) as Hp.
  { by rewrite !range_perm. }
  assert (∀ group t, group ∈ range o1 (GetTargets g cur DependencyRelation) →
            t ∈ group.2 →
            leads_back (isNodeReadyRec o1 fuel g src) src (add V (GetKey cur)) t
            = leads_back (isNodeReadyRec o2 fuel g src) src (add V (GetKey cur)) t)
    as Hback.
  { intros group t Hgroup Ht. apply leads_back_ext. intros Hvis.
    apply IH; [|done|lia]. by eapply (range_targets o1). }
  f_equal. f_equal. f_equal; [|f_equal].
  - apply forallb_order; [done|]. intros group Hgroup. unfold satisfied_by.
    apply existsb_order; [done|]. intros t Ht. by rewrite (Hback group t).
  - apply existsb_order; [done|]. intros group Hgroup. unfold cycle_through.
    apply existsb_order; [done|]. intros t Ht. by rewrite (Hback group t).
Qed.

End node_ready_order.

(** X11: in a graph on whose nodes the check for removal returns,
    [isNodeReady] gives the same answer for every order in which the
    dependencies of a node are iterated. *)
Theorem isNodeReady_order (o1 o2 : MapOrder) (g : kvscheduler.Graph) (n : kvscheduler.Node) :
  node_of g n → removal_decided g →
  kvscheduler.isNodeReady o1 g n = kvscheduler.isNodeReady o2 g n.
Proof.
  intros Hnode Hrem. unfold kvscheduler.isNodeReady.
  destruct (decide (kvscheduler.getNodeOrigin n = kvscheduler.FromSB)); [done|].
  rewrite (isNodeReadyRec_order o1 o2 g n (S (size g)) n ∅); try done.
  rewrite <- size_dom. assert (size (dom g ∖ ∅) ≤ size (dom g)); [|lia].
  apply subseteq_size. set_solver.
Qed.

Lemma isNodeReady_order_witness :
  kvscheduler.isNodeReady order_id graph_unmet ("n", node_n)
  = kvscheduler.isNodeReady order_rev graph_unmet ("n", node_n).
Proof.
  apply (isNodeReady_order order_id order_rev graph_unmet ("n", node_n)).
  - reflexivity.
  - apply graph_unmet_removal_decided.
Defined.

(** X12: called for a node of the graph whose key is not in [visited],
    [isNodeReadyRec] returns, and [visited] is afterwards what it was
    before the call: the key added on entry is deleted again and the
    nested calls leave nothing behind.  The graph is one on whose nodes
    the check for removal returns. *)
Theorem isNodeReadyRec_restores_visited
    (o : MapOrder) (g : kvscheduler.Graph) (src current : kvscheduler.Node)
    (visited : KeySet) :
  removal_decided g → node_of g current → kvscheduler.GetKey current ∉ visited →
  ∃ ready,
    kvscheduler.isNodeReadyRec o (S (size g)) g src current visited = Ok (ready, visited).
Proof.
  intros Hrem Hnode Hcur. apply isNodeReadyRec_total; try done.
  rewrite <- size_dom. assert (size (dom g ∖ visited) ≤ size (dom g)); [|lia].
  apply subseteq_size. set_solver.
Qed.

Lemma isNodeReadyRec_restores_visited_witness :
  ∃ ready,
    kvscheduler.isNodeReadyRec order_id (S (size graph_unmet)) graph_unmet
      ("n", node_n) ("t", node_t) {[ "n" ]} = Ok (ready, {[ "n" ]}).
Proof.
  apply (isNodeReadyRec_restores_visited order_id graph_unmet ("n", node_n)
           ("t", node_t) {[ "n" ]}).
  - apply graph_unmet_removal_decided.
  - reflexivity.
  - intros Hin. vm_compute in Hin. discriminate Hin.
Defined.

(** ** Derived nodes and keys *)

Section derived_keys.

Import kvscheduler.

Context (g : Graph).

Lemma append_each {A : Type} (acc l : list A) :
  foldl (λ derived x, derived ++ [x]) acc l = acc ++ l.
Proof.
  revert acc. induction l as [|x l IH]; intros acc; simpl; [by rewrite app_nil_r|].
  rewrite IH. by rewrite <- app_assoc.
Qed.

Lemma getDerivedNodes_concat (o : MapOrder) (n : Node) :
  getDerivedNodes o g n = mjoin ((λ group, group.2) <$> range o (GetTargets g n DerivesRelation)).
Proof.
  unfold getDerivedNodes.
  assert (∀ (l : list (string * list Node)) acc,
            foldl (λ derived (group : string * list Node),
                     foldl (λ derived derivedNode, derived ++ [derivedNode]) derived group.2)
                  acc l
            = acc ++ mjoin ((λ group, group.2) <$> l)) as Hfold.
  { induction l as [|group l IH]; intros acc; simpl; [by rewrite app_nil_r|].
    rewrite IH, append_each. by rewrite <- app_assoc. }
  by rewrite Hfold.
Qed.

Lemma getDerivedNodes_elem (o : MapOrder) (n t : Node) :
  t ∈ getDerivedNodes o g n ↔
  ∃ group, group ∈ targets n.2 DerivesRelation
           ∧ GetKey t ∈ group.2 ∧ g !! GetKey t = Some t.2.
Proof.
  rewrite getDerivedNodes_concat, list_elem_of_join. split.
  - intros (ts & Ht & (group & -> & Hgroup)%list_elem_of_fmap).
    rewrite range_elem_of in Hgroup. unfold GetTargets in Hgroup.
    apply list_elem_of_fmap in Hgroup as (grp & -> & Hgrp). simpl in Ht.
    apply list_elem_of_omap in Ht as (k & Hk & Hnode).
    apply GetNode_Some in Hnode as [<- Hnode]. by exists grp.
  - intros (grp & Hgrp & Hk & Hnode).
    exists (omap (GetNode g) grp.2). split.
    + apply list_elem_of_omap. exists (GetKey t). split; [done|]. by apply GetNode_Some.
    + apply list_elem_of_fmap. exists (grp.1, omap (GetNode g) grp.2). split; [done|].
      rewrite range_elem_of. unfold GetTargets. apply list_elem_of_fmap. by exists grp.
Qed.

Lemma add_each (l : list Node) (set : KeySet) (k : string) :
  k ∈ foldl (λ set derived, add set (GetKey derived)) set l
  ↔ k ∈ set ∨ ∃ t, t ∈ l ∧ GetKey t = k.
Proof.
  revert set. induction l as [|t l IH]; intros set; simpl.
  - split; [by left|]. intros [?|(t & Ht & _)]; [done|]. by apply elem_of_nil in Ht.
  - rewrite IH. unfold add. split.
    + intros [[?| ->%elem_of_singleton]%elem_of_union|(t' & Ht' & Hk)].
      * by left.
      * right. exists t. split; [by left|done].
      * right. exists t'. split; [by right|done].
    + intros [?|(t' & [->|Ht']%elem_of_cons & Hk)].
      * left. set_solver.
      * left. set_solver.
      * right. by exists t'.
Qed.

End derived_keys.

(** X13: the key set [getDerivedKeys] returns holds exactly the keys
    listed among the [Derives] targets of the node for which the graph has
    a node; it is the same set for every order in which the targets are
    iterated. *)
Theorem getDerivedKeys_spec (o : MapOrder) (g : kvscheduler.Graph) (n : kvscheduler.Node) :
  (∀ k, k ∈ kvscheduler.getDerivedKeys o g n
        ↔ ∃ group, group ∈ kvscheduler.targets n.2 kvscheduler.DerivesRelation
                   ∧ k ∈ group.2 ∧ is_Some (g !! k))
  ∧ ∀ o' : MapOrder, kvscheduler.getDerivedKeys o' g n = kvscheduler.getDerivedKeys o g n.
Proof.
  assert (∀ o0 k, k ∈ kvscheduler.getDerivedKeys o0 g n
                  ↔ ∃ group, group ∈ kvscheduler.targets n.2 kvscheduler.DerivesRelation
                             ∧ k ∈ group.2 ∧ is_Some (g !! k)) as Hspec.
  { intros o0 k. unfold kvscheduler.getDerivedKeys. rewrite add_each. split.
    - intros [Hempty|(t & Ht & <-)]; [set_solver|].
      apply getDerivedNodes_elem in Ht as (group & Hgroup & Hk & Hnode).
      exists group. split; [done|]. split; [done|]. by eexists.
    - intros (group & Hgroup & Hk & [d Hd]). right. exists (k, d). split; [|done].
      apply getDerivedNodes_elem. by exists group. }
  split; [apply Hspec|].
  intros o'. apply set_eq. intros k. by rewrite !Hspec.
Qed.

(** ** The key set and [dependsOn] of the scheduler *)

Section scheduler_sets.

Import kvscheduler.

Lemma subtract_fold (l : list string) (ks : KeySet) :
  foldl (λ ks key, ks ∖ {[key]}) ks l = ks ∖ list_to_set l.
Proof.
  revert ks. induction l as [|x l IH]; intros ks; simpl; [set_solver|].
  rewrite IH. set_solver.
Qed.

Lemma dependsOn_range_eq (rec1 rec2 : string → KeySet → result (bool * KeySet))
    (l : list string) (V : KeySet) :
  (∀ dep v, rec1 dep v = rec2 dep v) →
  dependsOn_range rec1 l V = utils.DependsOn_range rec2 l V.
Proof.
  intros Hrec. revert V. induction l as [|dep l IH]; intros V; simpl; [done|].
  unfold utils.Has. destruct (bool_decide (dep ∈ V)); [apply IH|].
  rewrite Hrec. destruct (rec2 dep V) as [[[] V1]| |]; simpl; [done|apply IH|done|done].
Qed.

Lemma dependsOn_rec_eq (o : MapOrder) (fuel : nat) (k1 k2 : string) (deps : DepMap)
    (V : KeySet) :
  dependsOn_rec o fuel k1 k2 deps V = utils.DependsOn_rec o fuel k1 k2 deps V.
Proof.
  revert k1 V. induction fuel as [|fuel IH]; intros k1 V; simpl; [done|].
  unfold utils.Has, utils.index. destruct (bool_decide (k2 ∈ default ∅ (deps !! k1))); [done|].
  apply dependsOn_range_eq. intros dep v. apply IH.
Qed.

End scheduler_sets.

(** X14: [subtract] leaves in the receiver exactly the keys that are not
    in [ks2], whatever the order in which [ks2] is iterated. *)
Theorem subtract_difference (o : MapOrder) (ks ks2 : KeySet) :
  kvscheduler.subtract o ks ks2 = ks ∖ ks2.
Proof.
  unfold kvscheduler.subtract. rewrite subtract_fold.
  apply set_eq. intros k. rewrite !elem_of_difference, elem_of_list_to_set.
  by rewrite range_elem_of, elem_of_elements.
Qed.

(** X15: the scheduler's own [dependsOn] behaves as [DependsOn] of the
    utilities: on the same arguments the two return the same answer and
    leave the same keys in [visited]; so it always returns, and answers
    true exactly when [k2] is reachable from [k1] by a non-empty path
    whose inner keys are not in [visited]. *)
Theorem dependsOn_as_DependsOn
    (o : MapOrder) (k1 k2 : string) (deps : DepMap) (visited : option KeySet) :
  kvscheduler.dependsOn o k1 k2 deps visited = utils.DependsOn o k1 k2 deps visited
  ∧ ∃ b V',
      kvscheduler.dependsOn o k1 k2 deps visited = Ok (b, V')
      ∧ (b = true ↔ depends_avoiding deps (default ∅ visited) k1 k2).
Proof.
  assert (kvscheduler.dependsOn o k1 k2 deps visited
          = utils.DependsOn o k1 k2 deps visited) as Heq.
  { unfold kvscheduler.dependsOn, utils.DependsOn. apply dependsOn_rec_eq. }
  split; [done|]. rewrite Heq. apply DependsOn_returns_avoiding.
Qed.

(** ** What DependsOn writes to *)

(** X19: on key sets that are Go maps in a store, [DependsOn] writes to
    nothing but [visited].  Given a [visited] that is none of the
    dependency sets, it returns the answer of the value-level function and
    leaves the store as it was except for the cell of [visited], which
    then holds the marks; given a nil [visited] it leaves every key set of
    the caller as it was. *)
Theorem DependsOn_writes_only_visited
    (o : MapOrder) (h : Store) (deps : DepRefs) (k1 k2 : string) (v : positive) :
  valid_deps (delete v h) deps → v ∈ dom h →
  (∃ b V,
     utils.DependsOn o k1 k2 (deps_content h deps) (Some (store.content h (Some v)))
       = Ok (b, V)
     ∧ store.DependsOn o h k1 k2 deps (Some v) = Ok (b, <[v := V]> h))
  ∧ (∃ b h', store.DependsOn o h k1 k2 deps None = Ok (b, h') ∧ preserved h h').
Proof.
  intros Hdeps Hin.
  assert (preserved (delete v h) h) as Hp.
  { intros l Hl. apply elem_of_dom in Hl as [s Hs].
    apply lookup_delete_Some in Hs as [Hne Hs]. by rewrite lookup_delete_ne. }
  assert (v ∉ dom (delete v h)) as Hv.
  { rewrite dom_delete_L. set_solver. }
  split.
  - destruct (DependsOn_rec_total_marked o (deps_content h deps) k2 k1
                (store.content h (Some v))) as (b & V & Hrun).
    exists b, V. split; [done|].
    unfold store.DependsOn.
    rewrite (DependsOn_rec_refines o (delete v h) deps k2 v Hdeps Hv _ k1 h Hp Hin).
    rewrite <- (deps_content_preserved (delete v h) h deps Hp Hdeps).
    unfold deps_content in Hrun |- *. rewrite map_size_fmap in Hrun.
    by rewrite Hrun.
  - destruct (DependsOn_refines o (delete v h) h deps k1 k2 Hdeps Hp)
      as (b & V & h' & _ & Hrun & Hpres).
    by exists b, h'.
Qed.

Lemma DependsOn_writes_only_visited_witness :
  (∃ b V,
     utils.DependsOn order_id "a" "c" (deps_content store_chain deps_refs_chain)
       (Some (store.content store_chain (Some 1%positive))) = Ok (b, V)
     ∧ store.DependsOn order_id store_chain "a" "c" deps_refs_chain (Some 1%positive)
       = Ok (b, <[1%positive := V]> store_chain))
  ∧ (∃ b h', store.DependsOn order_id store_chain "a" "c" deps_refs_chain None = Ok (b, h')
             ∧ preserved store_chain h').
Proof.
  apply (DependsOn_writes_only_visited order_id store_chain deps_refs_chain "a" "c"
           1%positive).
  - intros k r Hlook. unfold deps_refs_chain in Hlook.
    apply lookup_singleton_Some in Hlook as [_ <-].
    vm_compute. reflexivity.
  - apply elem_of_dom. eexists. vm_compute. reflexivity.
Defined.

(** ** What the handler operations call *)

Section handler_calls.

Import kvscheduler.

Context {Message Metadata Dependency KeyValuePair KVWithMetadata World : Type}.
Context (proto_Equal : Message → Message → bool).

Local Abbreviation Handler :=
  (@handler.descriptorHandler Message Metadata Dependency KeyValuePair KVWithMetadata World).

Local Abbreviation Descriptor :=
  (@handler.KVDescriptor Message Metadata Dependency KeyValuePair KVWithMetadata World).

(** X16: every operation of a handler with a descriptor calls at most one
    callback, at most once, and it is the field of the descriptor the
    operation is named after, applied to the operation's own arguments:
    when that field is defined the operation returns what the call
    returns ([dump] with [ableToDump] true) and leaves the world the call
    leaves; when it is nil nothing is called and the world stays as it
    was.  [retriableFailure] calls [RetriableFailure] only for an error
    that is none of the three errors of the handler itself. *)
Theorem handler_calls_own_callback
    (h : Handler) (d : Descriptor) (key : string) (v1 v2 : Message)
    (metadata : option Metadata) (err : error) (correlate : list KVWithMetadata) :
  handler.descriptor h = Some d →
  runs_callback ((λ f, f key) <$> handler.KeyLabel d) CbKeyLabel id
    (handler.keyLabel h key)
  ∧ runs_callback ((λ f, f key v1 v2) <$> handler.ValueComparator d) CbValueComparator id
      (handler.equivalentValues proto_Equal h key v1 v2)
  ∧ runs_callback ((λ f, f key v1) <$> handler.Add d) CbAdd id
      (handler.add h key v1)
  ∧ runs_callback ((λ f, f key v1 v2 metadata) <$> handler.Modify d) CbModify id
      (handler.modify h key v1 v2 metadata)
  ∧ runs_callback ((λ f, f key v1 v2 metadata) <$> handler.ModifyWithRecreate d)
      CbModifyWithRecreate id (handler.modifyWithRecreate h key v1 v2 metadata)
  ∧ runs_callback ((λ f, f key v1 metadata) <$> handler.Delete d) CbDelete id
      (handler.delete h key v1 metadata)
  ∧ runs_callback ((λ f, f key v1 metadata) <$> handler.Update d) CbUpdate id
      (handler.update h key v1 metadata)
  ∧ runs_callback
      (if decide (err ∈ [ErrUnimplementedAdd; ErrUnimplementedModify;
                         ErrUnimplementedDelete])
       then None else (λ f, f err) <$> handler.RetriableFailure d)
      CbRetriableFailure id (handler.retriableFailure h err)
  ∧ runs_callback ((λ f, f key v1) <$> handler.Dependencies d) CbDependencies id
      (handler.dependencies h key v1)
  ∧ runs_callback ((λ f, f key v1) <$> handler.DerivedValues d) CbDerivedValues id
      (handler.derivedValues h key v1)
  ∧ runs_callback ((λ f, f correlate) <$> handler.Dump d) CbDump
      (λ r, (r.1, true, r.2)) (handler.dump h correlate).
Proof.
  intros Hd.
  unfold handler.keyLabel, handler.equivalentValues, handler.add, handler.modify,
    handler.modifyWithRecreate, handler.delete, handler.update,
    handler.retriableFailure, handler.dependencies, handler.derivedValues,
    handler.dump.
  rewrite Hd. unfold runs_callback, handler.call, handler.ret.
  repeat split.
  - destruct (handler.KeyLabel d) as [f|]; intros w log; simpl; [|done].
    by destruct (f key w).
  - destruct (handler.ValueComparator d) as [f|]; intros w log; simpl; [|done].
    by destruct (f key v1 v2 w).
  - destruct (handler.Add d) as [f|]; intros w log; simpl; [|done].
    by destruct (f key v1 w).
  - destruct (handler.Modify d) as [f|]; intros w log; simpl; [|done].
    by destruct (f key v1 v2 metadata w).
  - destruct (handler.ModifyWithRecreate d) as [f|]; intros w log; simpl; [|done].
    by destruct (f key v1 v2 metadata w).
  - destruct (handler.Delete d) as [f|]; intros w log; simpl; [|done].
    by destruct (f key v1 metadata w).
  - destruct (handler.Update d) as [f|]; intros w log; simpl; [|done].
    by destruct (f key v1 metadata w).
  - destruct (decide (err ∈ _)) as [Hin|Hnotin]; intros w log.
    + apply NonRetriableIfInTheList_spec in Hin. by rewrite Hin.
    + destruct (NonRetriableIfInTheList _ err) eqn:Hlist.
      * simpl. destruct (handler.RetriableFailure d) as [f|]; simpl; [|done].
        by destruct (f err w).
      * by apply NonRetriableIfInTheList_spec in Hlist.
  - destruct (handler.Dependencies d) as [f|]; intros w log; simpl; [|done].
    by destruct (f key v1 w).
  - destruct (handler.DerivedValues d) as [f|]; intros w log; simpl; [|done].
    by destruct (f key v1 w).
  - destruct (handler.Dump d) as [f|]; intros w log; simpl; [|done].
    by destruct (f correlate w).
Qed.

(** X17: a handler without a descriptor calls nothing and reports no
    error: [add] returns nil metadata and a nil error, [modify] the old
    metadata and a nil error, [delete] and [update] a nil error,
    [modifyWithRecreate] false, [keyLabel] the key, [equivalentValues]
    what [proto.Equal] says, [dependencies] and [derivedValues] nothing,
    [dump] nothing with [ableToDump] false, and [retriableFailure] true
    for every error but the three of the handler itself. *)
Theorem handler_without_descriptor
    (h : Handler) (key : string) (v1 v2 : Message) (metadata : option Metadata)
    (err : error) (correlate : list KVWithMetadata) (s : World * list Callback) :
  handler.descriptor h = None →
  handler.keyLabel h key s = (key, s)
  ∧ handler.equivalentValues proto_Equal h key v1 v2 s = (proto_Equal v1 v2, s)
  ∧ handler.add h key v1 s = ((None, nil_error), s)
  ∧ handler.modify h key v1 v2 metadata s = ((metadata, nil_error), s)
  ∧ handler.modifyWithRecreate h key v1 v2 metadata s = (false, s)
  ∧ handler.delete h key v1 metadata s = (nil_error, s)
  ∧ handler.update h key v1 metadata s = (nil_error, s)
  ∧ handler.retriableFailure h err s
    = (bool_decide (err ∉ [ErrUnimplementedAdd; ErrUnimplementedModify;
                            ErrUnimplementedDelete]), s)
  ∧ handler.dependencies h key v1 s = ([], s)
  ∧ handler.derivedValues h key v1 s = ([], s)
  ∧ handler.dump h correlate s = (([], false, nil_error), s).
Proof.
  intros Hnone.
  unfold handler.keyLabel, handler.equivalentValues, handler.add, handler.modify,
    handler.modifyWithRecreate, handler.delete, handler.update,
    handler.retriableFailure, handler.dependencies, handler.derivedValues,
    handler.dump.
  rewrite Hnone. repeat split.
  destruct (NonRetriableIfInTheList _ err) eqn:Hlist; simpl.
  - rewrite bool_decide_eq_true_2; [done|]. intros Hin.
    apply NonRetriableIfInTheList_spec in Hin. congruence.
  - rewrite bool_decide_eq_false_2; [done|]. intros Hnotin. apply Hnotin.
    by apply NonRetriableIfInTheList_spec.
Qed.

End handler_calls.

Lemma handler_calls_own_callback_witness :
  runs_callback ((λ f, f "k") <$> kvscheduler.handler.KeyLabel descriptor_retry_all)
    kvscheduler.CbKeyLabel id (kvscheduler.handler.keyLabel handler_retry_all "k")
  ∧ runs_callback
      ((λ f, f "k" "v1" "v2") <$> kvscheduler.handler.ValueComparator descriptor_retry_all)
      kvscheduler.CbValueComparator id
      (kvscheduler.handler.equivalentValues String.eqb handler_retry_all "k" "v1" "v2")
  ∧ runs_callback ((λ f, f "k" "v1") <$> kvscheduler.handler.Add descriptor_retry_all)
      kvscheduler.CbAdd id (kvscheduler.handler.add handler_retry_all "k" "v1")
  ∧ runs_callback
      ((λ f, f "k" "v1" "v2" (Some 7)) <$> kvscheduler.handler.Modify descriptor_retry_all)
      kvscheduler.CbModify id
      (kvscheduler.handler.modify handler_retry_all "k" "v1" "v2" (Some 7))
  ∧ runs_callback
      ((λ f, f "k" "v1" "v2" (Some 7))
         <$> kvscheduler.handler.ModifyWithRecreate descriptor_retry_all)
      kvscheduler.CbModifyWithRecreate id
      (kvscheduler.handler.modifyWithRecreate handler_retry_all "k" "v1" "v2" (Some 7))
  ∧ runs_callback
      ((λ f, f "k" "v1" (Some 7)) <$> kvscheduler.handler.Delete descriptor_retry_all)
      kvscheduler.CbDelete id
      (kvscheduler.handler.delete handler_retry_all "k" "v1" (Some 7))
  ∧ runs_callback
      ((λ f, f "k" "v1" (Some 7)) <$> kvscheduler.handler.Update descriptor_retry_all)
      kvscheduler.CbUpdate id
      (kvscheduler.handler.update handler_retry_all "k" "v1" (Some 7))
  ∧ runs_callback
      (if decide (kvscheduler.errors_New "busy"
                    ∈ [kvscheduler.ErrUnimplementedAdd; kvscheduler.ErrUnimplementedModify;
                       kvscheduler.ErrUnimplementedDelete])
       then None
       else (λ f, f (kvscheduler.errors_New "busy"))
              <$> kvscheduler.handler.RetriableFailure descriptor_retry_all)
      kvscheduler.CbRetriableFailure id
      (kvscheduler.handler.retriableFailure handler_retry_all (kvscheduler.errors_New "busy"))
  ∧ runs_callback
      ((λ f, f "k" "v1") <$> kvscheduler.handler.Dependencies descriptor_retry_all)
      kvscheduler.CbDependencies id
      (kvscheduler.handler.dependencies handler_retry_all "k" "v1")
  ∧ runs_callback
      ((λ f, f "k" "v1") <$> kvscheduler.handler.DerivedValues descriptor_retry_all)
      kvscheduler.CbDerivedValues id
      (kvscheduler.handler.derivedValues handler_retry_all "k" "v1")
  ∧ runs_callback ((λ f, f [tt]) <$> kvscheduler.handler.Dump descriptor_retry_all)
      kvscheduler.CbDump (λ r, (r.1, true, r.2))
      (kvscheduler.handler.dump handler_retry_all [tt]).
Proof.
  apply (handler_calls_own_callback String.eqb handler_retry_all descriptor_retry_all
           "k" "v1" "v2" (Some 7) (kvscheduler.errors_New "busy") [tt]).
  reflexivity.
Defined.

Lemma handler_without_descriptor_witness :
  kvscheduler.handler.keyLabel handler_none "k" (0, []) = ("k", (0, []))
  ∧ kvscheduler.handler.equivalentValues String.eqb handler_none "k" "v1" "v2" (0, [])
    = (String.eqb "v1" "v2", (0, []))
  ∧ kvscheduler.handler.add handler_none "k" "v1" (0, [])
    = ((None, kvscheduler.nil_error), (0, []))
  ∧ kvscheduler.handler.modify handler_none "k" "v1" "v2" (Some 7) (0, [])
    = ((Some 7, kvscheduler.nil_error), (0, []))
  ∧ kvscheduler.handler.modifyWithRecreate handler_none "k" "v1" "v2" (Some 7) (0, [])
    = (false, (0, []))
  ∧ kvscheduler.handler.delete handler_none "k" "v1" (Some 7) (0, [])
    = (kvscheduler.nil_error, (0, []))
  ∧ kvscheduler.handler.update handler_none "k" "v1" (Some 7) (0, [])
    = (kvscheduler.nil_error, (0, []))
  ∧ kvscheduler.handler.retriableFailure handler_none (kvscheduler.errors_New "busy") (0, [])
    = (bool_decide (kvscheduler.errors_New "busy"
                      ∉ [kvscheduler.ErrUnimplementedAdd;
                         kvscheduler.ErrUnimplementedModify;
                         kvscheduler.ErrUnimplementedDelete]), (0, []))
  ∧ kvscheduler.handler.dependencies handler_none "k" "v1" (0, [])
    = ([], (0, []))
  ∧ kvscheduler.handler.derivedValues handler_none "k" "v1" (0, [])
    = ([], (0, []))
  ∧ kvscheduler.handler.dump handler_none [tt] (0, [])
    = (([], false, kvscheduler.nil_error), (0, [])).
Proof.
  apply (handler_without_descriptor String.eqb handler_none
           "k" "v1" "v2" (Some 7) (kvscheduler.errors_New "busy") [tt] (0, [])).
  reflexivity.
Defined.
